(** * Reference-counted objects and owning handles

    A shallow embedding of [gc/GCObject.h] (both the plain-integer and the
    atomic variant), [gc/GCMulti.h] and [gc/Ref.h], followed by the
    properties of the reference-count lifecycle. *)

From Stdlib Require Import ZArith Lia List Bool.
From stdpp Require Import base option list gmap fin_maps.

Local Open Scope Z_scope.

(** ** The C++ [int] *)

Module Int.

Definition int_min : Z := - 2 ^ 31.
Definition int_max : Z := 2 ^ 31 - 1.

Definition in_range (z : Z) : Prop := int_min <= z <= int_max.

(** Two's-complement reduction to 32 bits: what an atomic read-modify-write
    stores when the mathematical result leaves the range of [int]. *)
Definition wrap (z : Z) : Z := (z + 2 ^ 31) mod 2 ^ 32 - 2 ^ 31.

End Int.

(** ** [GCObject]: the count and its two operations

    [destroy()] is pure virtual in [GCObject]; at this level a call to it is
    the boolean returned next to the new count. *)

(** [std::atomic<int> ref_count{0}] with [fetch_add] / [fetch_sub]. *)
Module Atomic.

Definition initial_ref_count : Z := 0.

(** [fetch_add(d)] and [fetch_sub(d)] return the value held before the
    operation together with the value stored. *)
Definition fetch_add (c d : Z) : Z * Z := (c, Int.wrap (c + d)).
Definition fetch_sub (c d : Z) : Z * Z := (c, Int.wrap (c - d)).

(** [void incRef() { ref_count.fetch_add(1, relaxed); }] *)
Definition incRef (c : Z) : Z := snd (fetch_add c 1).

(** [void decRef() { if (ref_count.fetch_sub(1, acq_rel) == 1) destroy(); }] *)
Definition decRef (c : Z) : Z * bool :=
  let '(old, new) := fetch_sub c 1 in (new, old =? 1).

End Atomic.

(** [int ref_count = 0] with [++] / [--]; signed overflow has no defined
    result. *)
Module Plain.

Definition initial_ref_count : Z := 0.

Definition pre_increment (c : Z) : option Z :=
  if c <? Int.int_max then Some (c + 1) else None.
Definition pre_decrement (c : Z) : option Z :=
  if Int.int_min <? c then Some (c - 1) else None.

(** [void incRef() { ++ref_count; }] *)
Definition incRef (c : Z) : option Z := pre_increment c.

(** [void decRef() { if (--ref_count == 0) destroy(); }] *)
Definition decRef (c : Z) : option (Z * bool) :=
  match pre_decrement c with
  | Some new => Some (new, new =? 0)
  | None => None
  end.

End Plain.

(** The element type [T] of the client's array runs [new T[count]]:
    [GCMultiObject] itself (the [static_assert] of [allocate_impl] admits
    it), or a class derived from it (as [MyArray] is).
    [GCMultiObject::destroy] deletes the run through [this], a
    [GCMultiObject*]: an array delete through a pointer whose static type
    is not the element type has no defined behaviour. *)
Inductive run_element := BaseElement | DerivedElement.

(** The two variants of [GCObject.h] behind one interface, together with
    the element type of the client's array runs. *)
Class RefCounter := {
  rc_initial : Z;
  rc_incRef : Z -> option Z;
  rc_decRef : Z -> option (Z * bool);
  rc_run_element : run_element
}.

(** The atomic and the plain variant for a client whose array runs have
    elements of type [GCMultiObject] itself, so that [delete[] this] is
    defined; single objects are unaffected by the element type. *)
Definition atomic_counter : RefCounter :=
  {| rc_initial := Atomic.initial_ref_count;
     rc_incRef := fun c => Some (Atomic.incRef c);
     rc_decRef := fun c => Some (Atomic.decRef c);
     rc_run_element := BaseElement |}.

Definition plain_counter : RefCounter :=
  {| rc_initial := Plain.initial_ref_count;
     rc_incRef := Plain.incRef;
     rc_decRef := Plain.decRef;
     rc_run_element := BaseElement |}.

(** The same two variants for a client whose array runs have elements of
    a class derived from [GCMultiObject], as [MyArray] in [main]. *)
Definition atomic_counter_derived : RefCounter :=
  {| rc_initial := Atomic.initial_ref_count;
     rc_incRef := fun c => Some (Atomic.incRef c);
     rc_decRef := fun c => Some (Atomic.decRef c);
     rc_run_element := DerivedElement |}.

Definition plain_counter_derived : RefCounter :=
  {| rc_initial := Plain.initial_ref_count;
     rc_incRef := Plain.incRef;
     rc_decRef := Plain.decRef;
     rc_run_element := DerivedElement |}.

(** The variants by the element type of the client's runs. *)
Definition atomic_counter_of (e : run_element) : RefCounter :=
  match e with
  | BaseElement => atomic_counter
  | DerivedElement => atomic_counter_derived
  end.

Definition plain_counter_of (e : run_element) : RefCounter :=
  match e with
  | BaseElement => plain_counter
  | DerivedElement => plain_counter_derived
  end.

(** Sequences of bare increments and decrements on one count, with the
    value of the count and the [destroy()] flag recorded after each. *)
Inductive count_op := Inc | Dec.

Fixpoint run_atomic (ops : list count_op) (c : Z) : list (Z * bool) :=
  match ops with
  | [] => []
  | Inc :: ops' => let c' := Atomic.incRef c in (c', false) :: run_atomic ops' c'
  | Dec :: ops' => let r := Atomic.decRef c in r :: run_atomic ops' (fst r)
  end.

Fixpoint run_plain (ops : list count_op) (c : Z) : option (list (Z * bool)) :=
  match ops with
  | [] => Some []
  | Inc :: ops' =>
      match Plain.incRef c with
      | Some c' =>
          match run_plain ops' c' with
          | Some t => Some ((c', false) :: t)
          | None => None
          end
      | None => None
      end
  | Dec :: ops' =>
      match Plain.decRef c with
      | Some r =>
          match run_plain ops' (fst r) with
          | Some t => Some (r :: t)
          | None => None
          end
      | None => None
      end
  end.

Definition count_delta (o : count_op) : Z :=
  match o with Inc => 1 | Dec => -1 end.

(** The counts an unbounded integer would hold after each operation. *)
Fixpoint ideal_counts (ops : list count_op) (c : Z) : list Z :=
  match ops with
  | [] => []
  | o :: ops' => (c + count_delta o) :: ideal_counts ops' (c + count_delta o)
  end.

(** ** The store: managed objects, handles and the observable trace *)

(** Which of [GCSingleObject] / [GCMultiObject] the concrete type derives
    from. *)
Inductive shape := Single | Multi.

(** What [allocate] returned: a single instance, or the first element of a
    run [new T[count]].  Every element is a [GCObject] and starts with its
    own count; [incRef] / [decRef] through the returned pointer act on the
    first one. *)
Record gcobj := GCObj {
  obj_shape : shape;
  obj_counts : list Z
}.

(** A raw pointer [T*]: an address, or [None] for [nullptr]. *)
Abbreviation ptr := nat (only parsing).
Abbreviation nullptr := (@None nat) (only parsing).

Inductive event :=
| EvIncRef (p : ptr)
| EvDecRef (p : ptr)
| EvDestroy (s : shape) (p : ptr)     (* the virtual destroy() was entered *)
| EvTeardown (p : ptr) (i : nat).     (* the destructor of element i ran *)

Record state := State {
  heap : gmap nat gcobj;            (* live allocations *)
  next_addr : nat;                  (* the address the next new returns *)
  refs : gmap nat (option nat);     (* the Ref<T> variables in scope *)
  log : list event
}.

Definition empty_state : state :=
  {| heap := ∅; next_addr := 0%nat; refs := ∅; log := [] |}.

(** Computations over the store.  [None] is undefined behaviour (a use of
    freed storage, a null dereference, a signed overflow), or a statement
    the compiler rejects (a variable used out of scope or declared
    twice). *)
Definition M (A : Type) : Type := state -> option (A * state).

Definition ret {A} (a : A) : M A := fun st => Some (a, st).
Definition bind {A B} (m : M A) (k : A -> M B) : M B :=
  fun st => match m st with
            | Some (a, st') => k a st'
            | None => None
            end.
Definition undefined {A} : M A := fun _ => None.
Definition lift {A} (o : option A) : M A :=
  fun st => match o with Some a => Some (a, st) | None => None end.

Declare Scope gc_scope.
Delimit Scope gc_scope with gc.
Notation "'let*' x ':=' m 'in' k" := (bind m (fun x => k))
  (at level 10, x pattern, m at level 100, k at level 200) : gc_scope.
Notation "m ';;' k" := (bind m (fun _ => k))
  (at level 100, k at level 200, right associativity) : gc_scope.
Local Open Scope gc_scope.

Definition emit (e : event) : M unit :=
  fun st => Some (tt, {| heap := heap st; next_addr := next_addr st;
                         refs := refs st; log := log st ++ [e] |}).

Definition load_obj (p : ptr) : M gcobj :=
  fun st => match heap st !! p with
            | Some o => Some (o, st)
            | None => None
            end.

Definition store_obj (p : ptr) (o : gcobj) : M unit :=
  fun st => Some (tt, {| heap := <[p := o]> (heap st); next_addr := next_addr st;
                         refs := refs st; log := log st |}).

Definition free (p : ptr) : M unit :=
  fun st => Some (tt, {| heap := delete p (heap st); next_addr := next_addr st;
                         refs := refs st; log := log st |}).

Definition alloc (o : gcobj) : M ptr :=
  fun st => let p := next_addr st in
            Some (p, {| heap := <[p := o]> (heap st); next_addr := S p;
                        refs := refs st; log := log st |}).

(** The [ref_count] field reached through a pointer to the object. *)
Definition ref_count (o : gcobj) : option Z := obj_counts o !! 0%nat.
Definition set_ref_count (o : gcobj) (c : Z) : gcobj :=
  {| obj_shape := obj_shape o; obj_counts := <[0%nat := c]> (obj_counts o) |}.

Definition count_of (st : state) (p : ptr) : option Z :=
  match heap st !! p with
  | Some o => ref_count o
  | None => None
  end.

(** ** [GCSingleObject] and [GCMultiObject] *)

(** [delete this;] one destructor call, then the storage is released. *)
Definition delete_this (p : ptr) : M unit :=
  let* _ := load_obj p in
  emit (EvTeardown p 0);;
  free p.

(** The destructor calls of an array delete: the elements are destroyed
    last to first. *)
Fixpoint teardown_run (p : ptr) (n : nat) : M unit :=
  match n with
  | O => ret tt
  | S n' => emit (EvTeardown p n');; teardown_run p n'
  end.

(** [delete[] q;] where [q] has static type [GCMultiObject*] and the run
    has elements of type [e].  When the element type is the static type,
    every element is destroyed and the storage is released; when it is a
    derived class the array delete has no defined behaviour. *)
Definition delete_array (e : run_element) (p : ptr) : M unit :=
  match e with
  | BaseElement =>
      let* o := load_obj p in
      teardown_run p (length (obj_counts o));;
      free p
  | DerivedElement => undefined
  end.

(** [class GCSingleObject : public GCObject] *)
Module GCSingleObject.

(** [void destroy() noexcept override { delete this; }] *)
Definition destroy (p : ptr) : M unit := delete_this p.

(** [static T* allocate_impl(Args&&... args) { return new T(args...); }] *)
Definition allocate_impl `{RefCounter} : M ptr :=
  alloc (GCObj Single [rc_initial]).

End GCSingleObject.

(** [class GCMultiObject : public GCObject] *)
Module GCMultiObject.

(** [void destroy() noexcept override { delete[] this; }], with [this] a
    [GCMultiObject*]. *)
Definition destroy `{RefCounter} (p : ptr) : M unit :=
  delete_array rc_run_element p.

(** [static T* allocate_impl(size_t count) { return new T[count]; }] *)
Definition allocate_impl `{RefCounter} (count : nat) : M ptr :=
  alloc (GCObj Multi (replicate count rc_initial)).

End GCMultiObject.

(** The virtual call [destroy()], dispatched on the dynamic type of the
    object. *)
Definition destroy `{RefCounter} (p : ptr) : M unit :=
  let* o := load_obj p in
  emit (EvDestroy (obj_shape o) p);;
  match obj_shape o with
  | Single => GCSingleObject.destroy p
  | Multi => GCMultiObject.destroy p
  end.

(** Whether the teardown of [o] by its [destroy()] is defined. *)
Definition teardown_defined `{RefCounter} (o : gcobj) : bool :=
  match obj_shape o, rc_run_element with
  | Single, _ => true
  | Multi, BaseElement => true
  | Multi, DerivedElement => false
  end.

(** The arguments of [GCObject::allocate<T>]; the shape of [T] selects the
    factory at compile time. *)
Inductive alloc_request :=
| NewSingle
| NewMulti (count : nat).

(** [GCObject::allocate<T>(args...)]: [return T::allocate_impl(args...);] *)
Definition allocate `{RefCounter} (r : alloc_request) : M ptr :=
  match r with
  | NewSingle => GCSingleObject.allocate_impl
  | NewMulti count => GCMultiObject.allocate_impl count
  end.

(** ** [GCObject::incRef] and [GCObject::decRef] on the store *)

Definition incRef `{RefCounter} (p : ptr) : M unit :=
  let* o := load_obj p in
  let* c := lift (ref_count o) in
  let* c' := lift (rc_incRef c) in
  store_obj p (set_ref_count o c');;
  emit (EvIncRef p).

Definition decRef `{RefCounter} (p : ptr) : M unit :=
  let* o := load_obj p in
  let* c := lift (ref_count o) in
  let* (c', last) := lift (rc_decRef c) in
  store_obj p (set_ref_count o c');;
  emit (EvDecRef p);;
  if last : bool then destroy p else ret tt.

(** ** [Ref<T>]

    A handle is a variable named by a number; [refs] maps the variables in
    scope to their [ptr] field. *)

Definition get_ptr (h : nat) : M (option nat) :=
  fun st => match refs st !! h with
            | Some v => Some (v, st)
            | None => None
            end.

Definition set_ptr (h : nat) (v : option nat) : M unit :=
  fun st => match refs st !! h with
            | Some _ => Some (tt, {| heap := heap st; next_addr := next_addr st;
                                     refs := <[h := v]> (refs st); log := log st |})
            | None => None
            end.

(** A new variable comes into scope. *)
Definition declare (h : nat) (v : option nat) : M unit :=
  fun st => match refs st !! h with
            | Some _ => None
            | None => Some (tt, {| heap := heap st; next_addr := next_addr st;
                                   refs := <[h := v]> (refs st); log := log st |})
            end.

(** The variable leaves scope. *)
Definition undeclare (h : nat) : M unit :=
  fun st => Some (tt, {| heap := heap st; next_addr := next_addr st;
                         refs := delete h (refs st); log := log st |}).

(** [if (ptr) ptr->incRef();] and [if (ptr) ptr->decRef();] *)
Definition incRef_if `{RefCounter} (v : option nat) : M unit :=
  match v with Some p => incRef p | None => ret tt end.
Definition decRef_if `{RefCounter} (v : option nat) : M unit :=
  match v with Some p => decRef p | None => ret tt end.

Module Ref.

(** [Ref() = default;] *)
Definition ctor_default (this : nat) : M unit :=
  declare this nullptr.

(** [explicit Ref(T* p) : ptr(p) { if (ptr) ptr->incRef(); }] *)
Definition ctor_raw `{RefCounter} (this : nat) (p : option nat) : M unit :=
  declare this p;;
  let* v := get_ptr this in
  incRef_if v.

(** [Ref(const Ref& other) : ptr(other.ptr) { if (ptr) ptr->incRef(); }] *)
Definition ctor_copy `{RefCounter} (this other : nat) : M unit :=
  let* o := get_ptr other in
  declare this o;;
  let* v := get_ptr this in
  incRef_if v.

(** [Ref(Ref&& other) noexcept : ptr(other.ptr) { other.ptr = nullptr; }] *)
Definition ctor_move (this other : nat) : M unit :=
  let* o := get_ptr other in
  declare this o;;
  set_ptr other nullptr.

(** [Ref& operator=(const Ref& other)] *)
Definition assign_copy `{RefCounter} (this other : nat) : M unit :=
  if Nat.eqb this other then ret tt
  else
    let* v := get_ptr this in
    decRef_if v;;
    let* o := get_ptr other in
    set_ptr this o;;
    let* v' := get_ptr this in
    incRef_if v'.

(** [Ref& operator=(Ref&& other) noexcept] *)
Definition assign_move `{RefCounter} (this other : nat) : M unit :=
  if Nat.eqb this other then ret tt
  else
    let* v := get_ptr this in
    decRef_if v;;
    let* o := get_ptr other in
    set_ptr this o;;
    set_ptr other nullptr.

(** [~Ref() { if (ptr) ptr->decRef(); }] *)
Definition dtor `{RefCounter} (this : nat) : M unit :=
  let* v := get_ptr this in
  decRef_if v;;
  undeclare this.

(** [T* operator->() const { return ptr; }] *)
Definition op_arrow (this : nat) : M (option nat) := get_ptr this.

(** [T* get() const { return ptr; }] *)
Definition get (this : nat) : M (option nat) := get_ptr this.

(** [explicit operator bool() const { return ptr != nullptr; }] *)
Definition op_bool (this : nat) : M bool :=
  let* v := get_ptr this in
  ret (match v with Some _ => true | None => false end).

(** The built-in indirection [*p]: the object [p] points to. *)
Definition indirection (v : option nat) : M gcobj :=
  match v with
  | Some p => load_obj p
  | None => undefined
  end.

(** [T& operator*() const { return *ptr; }] *)
Definition op_star (this : nat) : M gcobj :=
  let* v := get_ptr this in
  indirection v.

(** A member access [h->m]: the built-in [->] applied to what
    [operator->] returned. *)
Definition member_access (this : nat) : M gcobj :=
  let* v := op_arrow this in
  indirection v.

End Ref.

(** ** Programs over handles *)

(** One statement of a client: a declaration of a [Ref<T>] variable by one
    of its constructors, an assignment between two variables in scope, or
    the end of a variable's scope. *)
Inductive op :=
| OpDefault (h : nat)
| OpRaw (h : nat) (p : option nat)
| OpCopy (h src : nat)
| OpMove (h src : nat)
| OpCopyAssign (h src : nat)
| OpMoveAssign (h src : nat)
| OpScopeExit (h : nat).

Definition in_scope (h : nat) : M unit :=
  let* _ := get_ptr h in ret tt.

Definition step `{RefCounter} (o : op) : M unit :=
  match o with
  | OpDefault h => Ref.ctor_default h
  | OpRaw h p => Ref.ctor_raw h p
  | OpCopy h src => Ref.ctor_copy h src
  | OpMove h src => Ref.ctor_move h src
  | OpCopyAssign h src => in_scope h;; in_scope src;; Ref.assign_copy h src
  | OpMoveAssign h src => in_scope h;; in_scope src;; Ref.assign_move h src
  | OpScopeExit h => Ref.dtor h
  end.

Fixpoint run `{RefCounter} (ops : list op) : M unit :=
  match ops with
  | [] => ret tt
  | o :: ops' => step o;; run ops'
  end.

(** The number of variables in scope whose [ptr] is [p]. *)
Definition holds (p : ptr) (v : option nat) : bool :=
  match v with Some q => Nat.eqb q p | None => false end.

Definition holders (p : ptr) (rs : gmap nat (option nat)) : nat :=
  size (filter (fun kv => holds p kv.2 = true) rs).

(** How often [destroy()] was entered for [p]. *)
Definition is_destroy (p : ptr) (e : event) : bool :=
  match e with EvDestroy _ q => Nat.eqb q p | _ => false end.

Definition destroys (p : ptr) (l : list event) : nat :=
  length (List.filter (is_destroy p) l).

Definition is_teardown (p : ptr) (i : nat) (e : event) : bool :=
  match e with EvTeardown q j => Nat.eqb q p && Nat.eqb j i | _ => false end.

Definition teardowns (p : ptr) (i : nat) (l : list event) : nat :=
  length (List.filter (is_teardown p i) l).

(** ** Concurrent owners of one object (atomic variant)

    The scenario of the specification: [K] threads share one object; each
    runs [{ Ref<T> r(p); barrier.wait(); }], that is an [incRef], a wait
    until every thread has taken its reference, and the [decRef] of
    [~Ref].  The read-modify-write operations on the one atomic count are
    totally ordered by its modification order and each reads the value
    written just before it, so an execution is an interleaving of the steps
    below; the call of [destroy()] is a step of its own, after the
    [fetch_sub] that returned 1. *)
Module Threads.

Inductive pc :=
| Start         (* before Ref(p) *)
| AtBarrier     (* holds a reference, waits for the others *)
| Destroying    (* its fetch_sub returned 1, destroy() not yet entered *)
| Done.

Record tstate := TState {
  t_count : Z;
  t_alive : bool;          (* the object has not been deleted *)
  t_destroy_calls : nat;
  t_use_after_free : bool; (* the count of a deleted object was touched *)
  t_pcs : list pc
}.

Definition init (K : nat) : tstate :=
  {| t_count := Atomic.initial_ref_count; t_alive := true;
     t_destroy_calls := 0%nat; t_use_after_free := false;
     t_pcs := replicate K Start |}.

Definition pc_eqb (a b : pc) : bool :=
  match a, b with
  | Start, Start | AtBarrier, AtBarrier
  | Destroying, Destroying | Done, Done => true
  | _, _ => false
  end.

Definition count_pc (a : pc) (l : list pc) : nat :=
  length (List.filter (pc_eqb a) l).

(** The barrier opens once no thread is still before its [incRef]. *)
Definition barrier_open (s : tstate) : bool :=
  Nat.eqb (count_pc Start (t_pcs s)) 0.

Definition all_done (s : tstate) : bool :=
  forallb (pc_eqb Done) (t_pcs s).

(** One step of thread [i]; [None] when the thread cannot move. *)
Definition step_thread (i : nat) (s : tstate) : option tstate :=
  match t_pcs s !! i with
  | Some Start =>
      Some {| t_count := Atomic.incRef (t_count s);
              t_alive := t_alive s;
              t_destroy_calls := t_destroy_calls s;
              t_use_after_free := t_use_after_free s || negb (t_alive s);
              t_pcs := <[i := AtBarrier]> (t_pcs s) |}
  | Some AtBarrier =>
      if barrier_open s then
        let '(c', last) := Atomic.decRef (t_count s) in
        Some {| t_count := c';
                t_alive := t_alive s;
                t_destroy_calls := t_destroy_calls s;
                t_use_after_free := t_use_after_free s || negb (t_alive s);
                t_pcs := <[i := if last then Destroying else Done]> (t_pcs s) |}
      else None
  | Some Destroying =>
      Some {| t_count := t_count s;
              t_alive := false;
              t_destroy_calls := S (t_destroy_calls s);
              t_use_after_free := t_use_after_free s || negb (t_alive s);
              t_pcs := <[i := Done]> (t_pcs s) |}
  | Some Done | None => None
  end.

(** An execution under a schedule: the thread that moves at each step. *)
Fixpoint run_schedule (sched : list nat) (s : tstate) : option tstate :=
  match sched with
  | [] => Some s
  | i :: sched' =>
      match step_thread i s with
      | Some s' => run_schedule sched' s'
      | None => None
      end
  end.

End Threads.

(** ** Auxiliary notions used in the statements *)

(** The events of one run of [destroy()] on [p]: the virtual call, then
    the element destructors of the shape's teardown path. *)
Definition teardown_events (p : ptr) (o : gcobj) : list event :=
  match obj_shape o with
  | Single => [EvTeardown p 0]
  | Multi => map (EvTeardown p) (rev (seq 0 (length (obj_counts o))))
  end.

Definition destroy_events (p : ptr) (o : gcobj) : list event :=
  EvDestroy (obj_shape o) p :: teardown_events p o.

Definition with_heap (st : state) (hp : gmap nat gcobj) : state :=
  {| heap := hp; next_addr := next_addr st; refs := refs st; log := log st |}.
Definition with_refs (st : state) (rs : gmap nat (option nat)) : state :=
  {| heap := heap st; next_addr := next_addr st; refs := rs; log := log st |}.
Definition with_log (st : state) (l : list event) : state :=
  {| heap := heap st; next_addr := next_addr st; refs := refs st; log := l |}.


(** ** Sample stores *)

(** A run of three elements at address 7, held by the one handle 0. *)
Definition sample_held : state :=
  {| heap := {[ 7%nat := GCObj Multi [1; 0; 0] ]}; next_addr := 8%nat;
     refs := {[ 0%nat := Some 7%nat ]}; log := [EvIncRef 7%nat] |}.

(** A single object at address 7 that no handle has wrapped yet. *)
Definition sample_unwrapped : state :=
  {| heap := {[ 7%nat := GCObj Single [0] ]}; next_addr := 8%nat;
     refs := ∅; log := [] |}.


(** A lone default-constructed handle 0 and nothing else. *)
Definition sample_empty_handle : state :=
  {| heap := ∅; next_addr := 0%nat; refs := {[ 0%nat := None ]}; log := [] |}.

(** A handle 0 that still stores the address 7 of an object that is no
    longer allocated. *)
Definition sample_dangling_handle : state :=
  {| heap := ∅; next_addr := 8%nat; refs := {[ 0%nat := Some 7%nat ]};
     log := [] |}.

(** A single object at address 7 held by handle 0, next to an empty
    handle 1. *)
Definition sample_two_handles : state :=
  {| heap := {[ 7%nat := GCObj Single [1] ]}; next_addr := 8%nat;
     refs := {[ 0%nat := Some 7%nat; 1%nat := None ]}; log := [EvIncRef 7%nat] |}.


(** Two objects, each held by one handle: a single object at 7 by handle
    0 and a run of two at 9 by handle 1. *)
Definition sample_two_objects : state :=
  {| heap := {[ 7%nat := GCObj Single [1]; 9%nat := GCObj Multi [1; 0] ]};
     next_addr := 10%nat;
     refs := {[ 0%nat := Some 7%nat; 1%nat := Some 9%nat ]};
     log := [EvIncRef 7%nat; EvIncRef 9%nat] |}.


(** ** Client scenarios *)

(** [{ T* p = GCObject::allocate<T>(count); Ref<T> h(p); }] for an array
    type [T]. *)
Definition array_scenario `{RefCounter} (h : nat) (count : nat) : M ptr :=
  let* p := allocate (NewMulti count) in
  Ref.ctor_raw h (Some p);;
  Ref.dtor h;;
  ret p.

(** The reading of the accessor contract under which every accessor is
    undefined on an empty handle. *)
Definition accessors_undefined_when_empty : Prop :=
  forall st h, refs st !! h = Some None ->
    Ref.op_star h st = None /\ Ref.member_access h st = None
    /\ Ref.get h st = None /\ Ref.op_bool h st = None.


(** A client of the single object at 7: wrap, copy, move, a
    self-assignment, and every variable leaving scope. *)
Definition sample_program : list op :=
  [OpRaw 0 (Some 7%nat); OpCopy 1 0; OpMove 2 0; OpScopeExit 0;
   OpCopyAssign 2 2; OpScopeExit 1; OpScopeExit 2]%nat.

(** A client that wraps the raw pointer a second time after the only
    handle has released the object. *)
Definition rewrap_program : list op :=
  [OpRaw 0 (Some 7%nat); OpScopeExit 0; OpRaw 1 (Some 7%nat)]%nat.


(** ** The lifecycle invariant of one object *)

(** Every raw-pointer construction of the program wraps [p] (or null). *)
Definition wraps_only (p : ptr) (o : op) : Prop :=
  match o with
  | OpRaw _ (Some q) => q = p
  | _ => True
  end.

(** Every handle in scope is empty or holds [p]. *)
Definition handles_on (p : ptr) (rs : gmap nat (option nat)) : Prop :=
  forall h q, rs !! h = Some (Some q) -> q = p.

Definition is_incRef (p : ptr) (e : event) : bool :=
  match e with EvIncRef q => Nat.eqb q p | _ => false end.

Definition increments (p : ptr) (l : list event) : nat :=
  length (List.filter (is_incRef p) l).

Definition holdsZ (p : ptr) (v : option nat) : Z :=
  if holds p v then 1 else 0.

(** [balanced p n k st]: the count of [p] equals the number of handles
    holding it plus [k] references taken or dropped by the operation in
    progress ([k = 0] between operations) and is at most [n]; once
    [destroy()] has run, [p] is gone and nothing holds it. *)
Inductive phase (p : ptr) (n : Z) (k : Z) (st : state) : Prop :=
| Live :
    destroys p (log st) = 0%nat ->
    count_of st p = Some (Z.of_nat (holders p (refs st)) + k) ->
    0 <= Z.of_nat (holders p (refs st)) + k <= n ->
    (Z.of_nat (holders p (refs st)) + k = 0 -> increments p (log st) = 0%nat) ->
    phase p n k st
| Dead :
    destroys p (log st) = 1%nat ->
    heap st !! p = None ->
    Z.of_nat (holders p (refs st)) + k = 0 ->
    phase p n k st.

Definition balanced (p : ptr) (n : Z) (k : Z) (st : state) : Prop :=
  handles_on p (refs st) /\ phase p n k st.


(** A statement is well scoped in a store when the variable it declares
    is new and the variables it uses are in scope; the compiler accepts no
    other statement. *)
Definition well_scoped (o : op) (st : state) : Prop :=
  match o with
  | OpDefault d | OpRaw d _ => refs st !! d = None
  | OpCopy d h | OpMove d h => refs st !! d = None /\ is_Some (refs st !! h)
  | OpCopyAssign d h | OpMoveAssign d h =>
      is_Some (refs st !! d) /\ is_Some (refs st !! h)
  | OpScopeExit h => is_Some (refs st !! h)
  end.


(** The common shape of the handle operations: release what the
    destination held, rebind the variables, take a reference on what is
    now held. *)
Definition release_then_acquire `{RefCounter}
    (dv v : option nat) (rs : gmap nat (option nat)) : M unit :=
  decRef_if dv;;
  fun st => incRef_if v (with_refs st rs).


(** ** The invariant of the concurrent owners *)

Definition tinv (K : nat) (s : Threads.tstate) : Prop :=
  let nS := Threads.count_pc Threads.Start (Threads.t_pcs s) in
  let nW := Threads.count_pc Threads.AtBarrier (Threads.t_pcs s) in
  let nD := Threads.count_pc Threads.Destroying (Threads.t_pcs s) in
  length (Threads.t_pcs s) = K
  /\ Threads.t_use_after_free s = false
  /\ Threads.t_count s = Z.of_nat nW
  /\ (nD + Threads.t_destroy_calls s
      = if Nat.eqb (nS + nW) 0 then 1 else 0)%nat
  /\ Threads.t_alive s = Nat.eqb (Threads.t_destroy_calls s) 0.

(** The number of steps the threads still have to take. *)
Definition remaining (s : Threads.tstate) : nat :=
  (3 * Threads.count_pc Threads.Start (Threads.t_pcs s)
   + 2 * Threads.count_pc Threads.AtBarrier (Threads.t_pcs s)
   + Threads.count_pc Threads.Destroying (Threads.t_pcs s))%nat.


(** ** Further client scenarios *)

Definition request_shape (r : alloc_request) : shape :=
  match r with NewSingle => Single | NewMulti _ => Multi end.

(** The number of [T] instances the request constructs. *)
Definition request_size (r : alloc_request) : nat :=
  match r with NewSingle => 1%nat | NewMulti count => count end.

(** [{ T* p = GCObject::allocate<T>(...); Ref<T> h(p); }] for any managed
    type, as both blocks of [main] do. *)
Definition scoped_scenario `{RefCounter} (h : nat) (r : alloc_request) : M ptr :=
  let* p := allocate r in
  Ref.ctor_raw h (Some p);;
  Ref.dtor h;;
  ret p.

(** [{ T* p = GCObject::allocate<T>(0); Ref<T> h(p); ... }] for an array
    type: the wrap of a run of no elements. *)
Definition wrap_empty_run `{RefCounter} (h : nat) : M unit :=
  let* p := allocate (NewMulti 0) in
  Ref.ctor_raw h (Some p).

(** The exchange of two handles by three moves through a temporary, the
    body of [std::swap]:
    [{ Ref<T> t(std::move(a)); a = std::move(b); b = std::move(t); }] *)
Definition swap_program (a b t : nat) : list op :=
  [OpMove t a; OpMoveAssign a b; OpMoveAssign b t; OpScopeExit t].

(** A temporary copy: [{ Ref<T> d(h); }] *)
Definition temporary_copy (d h : nat) : list op :=
  [OpCopy d h; OpScopeExit d].


(** ** Stores with any number of objects *)

(** [o'] is laid out as [o]: the same shape, the same number of elements,
    and the same counts in every element but the first. *)
Definition same_layout (o o' : gcobj) : Prop :=
  obj_shape o' = obj_shape o
  /\ length (obj_counts o') = length (obj_counts o)
  /\ forall i, (0 < i)%nat -> obj_counts o' !! i = obj_counts o !! i.

(** [st'] has no allocation that [st] lacks, lays every object out as
    [st] does, and extends the trace of [st]. *)
Definition grows_from (st st' : state) : Prop :=
  next_addr st' = next_addr st
  /\ (forall q o', heap st' !! q = Some o' ->
        exists o, heap st !! q = Some o /\ same_layout o o')
  /\ exists l, log st' = log st ++ l.

(** The count of [q], where there is one, is the number of handles that
    hold [q] plus [k]; an address without a count is held by [-k]
    handles. *)
Definition counted (k : Z) (st : state) (q : ptr) : Prop :=
  match count_of st q with
  | Some c => c = Z.of_nat (holders q (refs st)) + k
  | None => Z.of_nat (holders q (refs st)) + k = 0
  end.

(** Every count is the number of its holders, and no handle holds an
    address that carries no count (a released object, a run of no
    elements, storage never allocated). *)
Definition consistent (st : state) : Prop := forall q, counted 0 st q.

Definition counts_below (n : Z) (st : state) : Prop :=
  forall q c, count_of st q = Some c -> c <= n.

(** Two handles on one object at 7 and a third, empty one. *)
Definition sample_shared : state :=
  {| heap := {[ 7%nat := GCObj Single [2]; 9%nat := GCObj Multi [1; 0] ]};
     next_addr := 10%nat;
     refs := {[ 0%nat := Some 7%nat; 1%nat := Some 7%nat;
                2%nat := Some 9%nat; 3%nat := None ]};
     log := [] |}.


(** ** Relating the two variants on handle programs *)

Definition counts_in_range (st : state) : Prop :=
  forall p c, count_of st p = Some c -> Int.in_range c.

(** Wherever [m1] has a result on a store whose counts are [int]s, [m2]
    has the same result, and the counts are still [int]s. *)
Definition agree {T} (m1 m2 : M T) : Prop :=
  forall st r, counts_in_range st -> m1 st = Some r ->
    m2 st = Some r /\ counts_in_range (snd r).


(** ** The element type of the runs and the handle programs *)

(** Every allocated object is a single object. *)
Definition all_single (st : state) : Prop :=
  forall p o, heap st !! p = Some o -> obj_shape o = Single.

(** On a store that satisfies [Inv], whatever [m1] returns, [m2] returns
    as well, and [Inv] holds afterwards. *)
Definition simulates (Inv : state -> Prop) {T} (m1 m2 : M T) : Prop :=
  forall st r, Inv st -> m1 st = Some r -> m2 st = Some r /\ Inv (snd r).

(** Handles 0 and 1 leave scope, in that order. *)
Definition sample_release_both : list op := [OpScopeExit 0; OpScopeExit 1]%nat.

(** * Properties *)

(** ** Arithmetic of the count *)

Lemma wrap_in_range z : Int.in_range z -> Int.wrap z = z.
Proof.
  unfold Int.in_range, Int.wrap, Int.int_min, Int.int_max. intros Hz.
  rewrite Z.mod_small; lia.
Qed.

Lemma wrap_range z : Int.in_range (Int.wrap z).
Proof.
  unfold Int.in_range, Int.wrap, Int.int_min, Int.int_max.
  pose proof (Z.mod_pos_bound (z + 2 ^ 31) (2 ^ 32) eq_refl). lia.
Qed.

Lemma wrap_pred_min : Int.wrap (Int.int_min - 1) = Int.int_max.
Proof. reflexivity. Qed.

Lemma wrap_succ_max : Int.wrap (Int.int_max + 1) = Int.int_min.
Proof. reflexivity. Qed.

Lemma atomic_incRef_exact c :
  Int.int_min <= c < Int.int_max -> Atomic.incRef c = c + 1.
Proof.
  intros Hc. unfold Atomic.incRef, Atomic.fetch_add. simpl.
  apply wrap_in_range. unfold Int.in_range. lia.
Qed.

Lemma atomic_decRef_exact c :
  Int.int_min < c <= Int.int_max -> Atomic.decRef c = (c - 1, c - 1 =? 0).
Proof.
  intros Hc. unfold Atomic.decRef, Atomic.fetch_sub.
  rewrite wrap_in_range by (unfold Int.in_range; lia).
  f_equal. destruct (Z.eqb_spec c 1), (Z.eqb_spec (c - 1) 0); auto; lia.
Qed.

(** The flag of the atomic [decRef] tests the value read, the flag of the
    plain one the value written; on every representable count the two
    agree. *)
Lemma atomic_decRef_flag c :
  Int.in_range c -> snd (Atomic.decRef c) = (fst (Atomic.decRef c) =? 0).
Proof.
  intros Hc. unfold Atomic.decRef, Atomic.fetch_sub. simpl.
  destruct (Z.eq_dec c Int.int_min) as [->|Hne].
  - reflexivity.
  - rewrite wrap_in_range by (unfold Int.in_range in *; lia).
    destruct (Z.eqb_spec c 1), (Z.eqb_spec (c - 1) 0); auto; lia.
Qed.

Lemma plain_incRef_atomic c c' :
  Int.in_range c -> Plain.incRef c = Some c' -> Atomic.incRef c = c'.
Proof.
  unfold Plain.incRef, Plain.pre_increment, Int.in_range. intros Hc.
  destruct (Z.ltb_spec c Int.int_max); [|discriminate].
  intros [= <-]. apply atomic_incRef_exact. lia.
Qed.

Lemma plain_decRef_atomic c r :
  Int.in_range c -> Plain.decRef c = Some r -> Atomic.decRef c = r.
Proof.
  unfold Plain.decRef, Plain.pre_decrement, Int.in_range. intros Hc.
  destruct (Z.ltb_spec Int.int_min c); [|discriminate].
  intros [= <-]. apply atomic_decRef_exact. lia.
Qed.

Lemma plain_incRef_range c c' :
  Int.in_range c -> Plain.incRef c = Some c' -> Int.in_range c'.
Proof.
  unfold Plain.incRef, Plain.pre_increment, Int.in_range. intros Hc.
  destruct (Z.ltb_spec c Int.int_max); [|discriminate].
  intros [= <-]. lia.
Qed.

Lemma plain_decRef_range c r :
  Int.in_range c -> Plain.decRef c = Some r -> Int.in_range (fst r).
Proof.
  unfold Plain.decRef, Plain.pre_decrement, Int.in_range. intros Hc.
  destruct (Z.ltb_spec Int.int_min c); [|discriminate].
  intros [= <-]. simpl. lia.
Qed.

(** ** The two variants under sequential execution *)

Lemma run_plain_sound ops : forall c t,
  Int.in_range c -> run_plain ops c = Some t ->
  run_atomic ops c = t /\ Forall Int.in_range (ideal_counts ops c).
Proof.
  induction ops as [|o ops IH]; intros c t Hc Hrun; simpl in *.
  - injection Hrun as <-. split; [reflexivity | constructor].
  - destruct o; simpl.
    + destruct (Plain.incRef c) as [c'|] eqn:Hinc; [|discriminate].
      destruct (run_plain ops c') as [t'|] eqn:Hrest; [|discriminate].
      injection Hrun as <-.
      pose proof (plain_incRef_atomic _ _ Hc Hinc) as Hat.
      pose proof (plain_incRef_range _ _ Hc Hinc) as Hr.
      rewrite Hat. cbv zeta. destruct (IH _ _ Hr Hrest) as [Heq Hall].
      rewrite Heq.
      rewrite <- Hat, atomic_incRef_exact in Hall, Hr.
      * split; [reflexivity | constructor; assumption].
      * revert Hinc. unfold Plain.incRef, Plain.pre_increment, Int.in_range in *.
        destruct (Z.ltb_spec c Int.int_max); [lia | discriminate].
      * revert Hinc. unfold Plain.incRef, Plain.pre_increment, Int.in_range in *.
        destruct (Z.ltb_spec c Int.int_max); [lia | discriminate].
    + destruct (Plain.decRef c) as [r|] eqn:Hdec; [|discriminate].
      destruct (run_plain ops (fst r)) as [t'|] eqn:Hrest; [|discriminate].
      injection Hrun as <-.
      pose proof (plain_decRef_atomic _ _ Hc Hdec) as Hat.
      pose proof (plain_decRef_range _ _ Hc Hdec) as Hr.
      destruct (IH _ _ Hr Hrest) as [Heq Hall].
      assert (Hlt : Int.int_min < c).
      { revert Hdec. unfold Plain.decRef, Plain.pre_decrement.
        destruct (Z.ltb_spec Int.int_min c); [lia | discriminate]. }
      assert (Hfst : fst r = c + -1).
      { rewrite <- Hat, atomic_decRef_exact by (unfold Int.in_range in Hc; lia).
        simpl. lia. }
      assert (Hw : Int.wrap (c - 1) = fst r).
      { rewrite <- Hat. reflexivity. }
      rewrite Hw, Heq, <- Hat. rewrite Hat.
      rewrite Hfst in Hall, Hr.
      split; [reflexivity | constructor; assumption].
Qed.

Lemma run_plain_defined ops : forall c,
  Int.in_range c -> Forall Int.in_range (ideal_counts ops c) ->
  run_plain ops c = Some (run_atomic ops c).
Proof.
  induction ops as [|o ops IH]; intros c Hc Hall; simpl in *; [reflexivity|].
  apply Forall_cons_1 in Hall as [Hhd Htl].
  unfold Int.in_range in Hc, Hhd.
  destruct o; simpl in *.
  - unfold Plain.incRef, Plain.pre_increment.
    destruct (Z.ltb_spec c Int.int_max); [|lia].
    rewrite atomic_incRef_exact by lia.
    rewrite IH; [reflexivity | exact Hhd | exact Htl].
  - unfold Plain.decRef, Plain.pre_decrement.
    destruct (Z.ltb_spec Int.int_min c); [|lia].
    rewrite atomic_decRef_exact by lia. simpl.
    replace (c - 1) with (c + -1) by lia.
    rewrite ?(wrap_in_range (c + -1)) by exact Hhd.
    rewrite IH; [reflexivity | exact Hhd | exact Htl].
Qed.

(** C8: under sequential execution the plain-integer variant and the
    atomic variant are observationally equivalent.  For every sequence of
    increments and decrements: whenever the plain variant has a defined
    result, the atomic variant yields the same counts and raises the
    [destroy()] flag at the same operations; and the plain variant is
    defined on every sequence that keeps the count inside [int]. *)
Theorem variants_sequentially_equivalent (ops : list count_op) (c : Z) :
  Int.in_range c ->
  (forall t, run_plain ops c = Some t -> run_atomic ops c = t) /\
  (Forall Int.in_range (ideal_counts ops c) ->
   run_plain ops c = Some (run_atomic ops c)).
Proof.
  intros Hc. split.
  - intros t Ht. exact (proj1 (run_plain_sound ops c t Hc Ht)).
  - apply run_plain_defined. exact Hc.
Qed.

Lemma variants_sequentially_equivalent_witness :
  Int.in_range 0 /\
  run_atomic [Inc; Inc; Dec; Dec; Dec] 0
    = [(1, false); (2, false); (1, false); (0, true); (-1, false)] /\
  run_plain [Inc; Inc; Dec; Dec; Dec] 0
    = Some (run_atomic [Inc; Inc; Dec; Dec; Dec] 0).
Proof.
  assert (H0 : Int.in_range 0) by (unfold Int.in_range, Int.int_min, Int.int_max; lia).
  split; [exact H0|]. split; [reflexivity|].
  apply (proj2 (variants_sequentially_equivalent [Inc; Inc; Dec; Dec; Dec] 0 H0)).
  repeat constructor; vm_compute; discriminate.
Defined.

(** ** The handles that hold an object *)

Lemma holders_empty p : holders p ∅ = 0%nat.
Proof. unfold holders. rewrite map_filter_empty. apply map_size_empty. Qed.

Lemma holders_insert p h v (rs : gmap nat (option nat)) :
  holders p (<[h := v]> rs)
  = ((if holds p v then 1 else 0) + holders p (delete h rs))%nat.
Proof.
  unfold holders. rewrite map_filter_insert. case_decide as Hd; simpl in Hd.
  - rewrite Hd. rewrite <- insert_delete_eq.
    rewrite map_size_insert_None by apply lookup_delete_eq.
    by rewrite map_filter_delete.
  - destruct (holds p v); [congruence | reflexivity].
Qed.

Lemma holders_lookup p h v (rs : gmap nat (option nat)) :
  rs !! h = Some v ->
  holders p rs = ((if holds p v then 1 else 0) + holders p (delete h rs))%nat.
Proof.
  intros Hh. rewrite <- (insert_id rs h v Hh) at 1. apply holders_insert.
Qed.

Lemma holders_fresh p h (rs : gmap nat (option nat)) :
  rs !! h = None -> holders p (delete h rs) = holders p rs.
Proof. intros Hh. by rewrite delete_id. Qed.

Lemma holds_true p v : holds p v = true <-> v = Some p.
Proof.
  destruct v as [q|]; simpl; [|split; discriminate].
  rewrite Nat.eqb_eq. split; congruence.
Qed.

Lemma holds_self p : holds p (Some p) = true.
Proof. by apply holds_true. Qed.

Lemma holders_zero_lookup p h v (rs : gmap nat (option nat)) :
  holders p rs = 0%nat -> rs !! h = Some v -> v <> Some p.
Proof.
  intros H0 Hh ->. rewrite (holders_lookup p h (Some p) rs Hh), holds_self in H0.
  discriminate.
Qed.

(** ** Effects of the primitives on the store *)

Lemma state_eta st :
  {| heap := heap st; next_addr := next_addr st; refs := refs st; log := log st |} = st.
Proof. by destruct st. Qed.

Lemma ref_count_set o c c' :
  ref_count o = Some c -> ref_count (set_ref_count o c') = Some c'.
Proof.
  unfold ref_count, set_ref_count. simpl. intros Hc.
  apply list_lookup_insert_eq. by eapply lookup_lt_Some.
Qed.

Lemma teardown_events_set p o c :
  teardown_events p (set_ref_count o c) = teardown_events p o.
Proof.
  unfold teardown_events, set_ref_count. simpl. by rewrite length_insert.
Qed.

Lemma teardown_run_spec p n st :
  teardown_run p n st
  = Some (tt, with_log st (log st ++ map (EvTeardown p) (rev (seq 0 n)))).
Proof.
  revert st. induction n as [|n IH]; intros st.
  - simpl. unfold ret, with_log. rewrite app_nil_r. by rewrite state_eta.
  - rewrite seq_S, rev_app_distr. simpl.
    unfold bind, emit. rewrite IH. unfold with_log. simpl.
    by rewrite <- app_assoc.
Qed.

Lemma destroy_spec {RC : RefCounter} p o st :
  heap st !! p = Some o -> teardown_defined o = true ->
  destroy p st
  = Some (tt, {| heap := delete p (heap st); next_addr := next_addr st;
                 refs := refs st; log := log st ++ destroy_events p o |}).
Proof.
  intros Hp Htd. unfold destroy, bind, load_obj, emit. rewrite Hp. simpl.
  unfold destroy_events, teardown_events. unfold teardown_defined in Htd.
  destruct (obj_shape o).
  - unfold GCSingleObject.destroy, delete_this, bind, load_obj, emit, free.
    simpl. rewrite Hp. simpl.
    by rewrite <- app_assoc.
  - unfold GCMultiObject.destroy. destruct rc_run_element; [|discriminate].
    unfold delete_array, bind, load_obj. simpl. rewrite Hp.
    rewrite teardown_run_spec. unfold free, with_log. simpl.
    by rewrite <- app_assoc.
Qed.

Lemma destroy_undefined {RC : RefCounter} p o st :
  heap st !! p = Some o -> teardown_defined o = false ->
  destroy p st = None.
Proof.
  intros Hp Htd. unfold destroy, bind, load_obj, emit. rewrite Hp. simpl.
  unfold teardown_defined in Htd.
  destruct (obj_shape o); [discriminate|].
  unfold GCMultiObject.destroy. by destruct rc_run_element.
Qed.

Lemma teardown_defined_set {RC : RefCounter} o c :
  teardown_defined (set_ref_count o c) = teardown_defined o.
Proof. reflexivity. Qed.

Lemma teardown_defined_base {RC : RefCounter} o :
  rc_run_element = BaseElement -> teardown_defined o = true.
Proof. intros He. unfold teardown_defined. rewrite He. by destruct (obj_shape o). Qed.

Lemma teardown_defined_single {RC : RefCounter} o :
  obj_shape o = Single -> teardown_defined o = true.
Proof. intros Hs. unfold teardown_defined. by rewrite Hs. Qed.

Section Primitives.
Context {RC : RefCounter}.

Lemma incRef_spec p o c c' st :
  heap st !! p = Some o -> ref_count o = Some c -> rc_incRef c = Some c' ->
  incRef p st
  = Some (tt, {| heap := <[p := set_ref_count o c']> (heap st);
                 next_addr := next_addr st; refs := refs st;
                 log := log st ++ [EvIncRef p] |}).
Proof.
  intros Hp Hc Hi. unfold incRef, bind, load_obj, lift, store_obj, emit.
  rewrite Hp, Hc, Hi. reflexivity.
Qed.

Lemma decRef_spec_keep p o c c' st :
  heap st !! p = Some o -> ref_count o = Some c ->
  rc_decRef c = Some (c', false) ->
  decRef p st
  = Some (tt, {| heap := <[p := set_ref_count o c']> (heap st);
                 next_addr := next_addr st; refs := refs st;
                 log := log st ++ [EvDecRef p] |}).
Proof.
  intros Hp Hc Hd. unfold decRef, bind, load_obj, lift, store_obj, emit, ret.
  rewrite Hp, Hc, Hd. reflexivity.
Qed.

Lemma decRef_spec_last p o c c' st :
  heap st !! p = Some o -> ref_count o = Some c ->
  rc_decRef c = Some (c', true) ->
  teardown_defined o = true ->
  decRef p st
  = Some (tt, {| heap := delete p (heap st);
                 next_addr := next_addr st; refs := refs st;
                 log := log st ++ EvDecRef p :: destroy_events p o |}).
Proof.
  intros Hp Hc Hd Htd. unfold decRef, bind, load_obj, lift, store_obj, emit.
  rewrite Hp, Hc, Hd. simpl.
  erewrite destroy_spec; [| simpl; apply lookup_insert_eq | exact Htd]. simpl.
  rewrite delete_insert_eq, <- app_assoc. simpl.
  unfold destroy_events. rewrite teardown_events_set. reflexivity.
Qed.

Lemma decRef_spec_undefined p o c c' st :
  heap st !! p = Some o -> ref_count o = Some c ->
  rc_decRef c = Some (c', true) ->
  teardown_defined o = false ->
  decRef p st = None.
Proof.
  intros Hp Hc Hd Htd. unfold decRef, bind, load_obj, lift, store_obj, emit.
  rewrite Hp, Hc, Hd. simpl.
  erewrite destroy_undefined; [reflexivity | simpl; apply lookup_insert_eq | exact Htd].
Qed.

Lemma incRef_undefined_freed p st :
  heap st !! p = None -> incRef p st = None.
Proof. intros Hp. unfold incRef, bind, load_obj. by rewrite Hp. Qed.

Lemma decRef_undefined_freed p st :
  heap st !! p = None -> decRef p st = None.
Proof. intros Hp. unfold decRef, bind, load_obj. by rewrite Hp. Qed.

End Primitives.

(** ** Counting [destroy()] calls in the trace *)

Lemma destroys_app p l l' :
  destroys p (l ++ l') = (destroys p l + destroys p l')%nat.
Proof. unfold destroys. by rewrite List.filter_app, length_app. Qed.

Lemma destroys_teardown_map p q l :
  destroys p (map (EvTeardown q) l) = 0%nat.
Proof. unfold destroys. induction l as [|i l IH]; simpl; auto. Qed.

Lemma destroys_teardown_events p q o : destroys p (teardown_events q o) = 0%nat.
Proof.
  unfold teardown_events. destruct (obj_shape o); [reflexivity|].
  apply destroys_teardown_map.
Qed.

Lemma destroys_destroy_events p o : destroys p (destroy_events p o) = 1%nat.
Proof.
  unfold destroy_events.
  change (destroys p (EvDestroy (obj_shape o) p :: teardown_events p o))
    with (destroys p ([EvDestroy (obj_shape o) p] ++ teardown_events p o)).
  rewrite destroys_app, destroys_teardown_events.
  unfold destroys. simpl. by rewrite Nat.eqb_refl.
Qed.

Lemma destroys_destroy_events_other p q o :
  q <> p -> destroys p (destroy_events q o) = 0%nat.
Proof.
  intros Hne. unfold destroy_events.
  change (destroys p (EvDestroy (obj_shape o) q :: teardown_events q o))
    with (destroys p ([EvDestroy (obj_shape o) q] ++ teardown_events q o)).
  rewrite destroys_app, destroys_teardown_events.
  unfold destroys. simpl. apply Nat.eqb_neq in Hne. by rewrite Hne.
Qed.

Lemma count_of_some st p c :
  count_of st p = Some c ->
  exists o, heap st !! p = Some o /\ ref_count o = Some c.
Proof.
  unfold count_of. destruct (heap st !! p) as [o|]; [|discriminate]. eauto.
Qed.

(** ** Creation, first wrap and decrement *)

Lemma allocate_count (RC : RefCounter) r st :
  r <> NewMulti 0 ->
  exists st', allocate r st = Some (next_addr st, st')
              /\ count_of st' (next_addr st) = Some rc_initial
              /\ refs st' = refs st /\ log st' = log st.
Proof.
  intros Hr. destruct r as [|n]; simpl.
  - eexists. split; [reflexivity|]. unfold count_of. simpl.
    rewrite lookup_insert_eq. auto.
  - destruct n as [|n]; [congruence|].
    eexists. split; [reflexivity|]. unfold count_of. simpl.
    rewrite lookup_insert_eq. auto.
Qed.

(** C2: an object leaves the factory with count 0; the first wrap of the
    raw pointer by the owning-handle constructor brings the count to 1;
    every decrement lowers the count by one and enters [destroy()] exactly
    when the count after the decrement is zero (atomic variant; the count
    is an [int] above its minimum, below which the subtraction wraps). *)
Theorem lifecycle_of_count (st : state) (r : alloc_request) (h : nat)
    (s : state) (q : ptr) (c : Z) :
  r <> NewMulti 0 -> refs st !! h = None ->
  count_of s q = Some c -> Int.int_min < c <= Int.int_max ->
  (exists p st1 st2,
     @allocate atomic_counter r st = Some (p, st1)
     /\ count_of st1 p = Some 0
     /\ @Ref.ctor_raw atomic_counter h (Some p) st1 = Some (tt, st2)
     /\ count_of st2 p = Some 1
     /\ refs st2 !! h = Some (Some p))
  /\ Atomic.decRef c = (c - 1, c - 1 =? 0)
  /\ exists s',
       @decRef atomic_counter q s = Some (tt, s')
       /\ (c - 1 <> 0 ->
           count_of s' q = Some (c - 1)
           /\ destroys q (log s') = destroys q (log s))
       /\ (c - 1 = 0 ->
           heap s' !! q = None
           /\ destroys q (log s') = S (destroys q (log s))).
Proof.
  intros Hr Hh Hc Hrange. split.
  { destruct (allocate_count atomic_counter r st Hr) as (st1 & Hal & Hc1 & Hrefs1 & Hlog1).
  destruct (count_of_some _ _ _ Hc1) as (o & Ho & Hco).
  exists (next_addr st), st1. eexists.
  split; [exact Hal|]. split; [exact Hc1|].
  assert (Hraw : @Ref.ctor_raw atomic_counter h (Some (next_addr st)) st1
                 = Some (tt, {| heap := <[next_addr st := set_ref_count o 1]> (heap st1);
                                next_addr := next_addr st1;
                                refs := <[h := Some (next_addr st)]> (refs st1);
                                log := log st1 ++ [EvIncRef (next_addr st)] |})).
  { unfold Ref.ctor_raw, bind, declare, get_ptr. rewrite Hrefs1, Hh. simpl.
    rewrite lookup_insert_eq. simpl.
    erewrite (@incRef_spec atomic_counter) by (simpl; eauto). reflexivity. }
  split; [exact Hraw|].
  split.
  { unfold count_of. simpl. rewrite lookup_insert_eq.
    eapply ref_count_set; eauto. }
  simpl; apply lookup_insert_eq. }
  pose proof (atomic_decRef_exact c Hrange) as Hdec.
  split; [exact Hdec|].
  destruct (count_of_some _ _ _ Hc) as (oq & Hoq & Hcq).
  destruct (Z.eqb_spec (c - 1) 0) as [Hz|Hnz].
  - eexists. split.
    + eapply (@decRef_spec_last atomic_counter _ oq c);
        [exact Hoq | exact Hcq | simpl; by rewrite Hdec
        | by apply teardown_defined_base].
    + split; [intros; lia|]. intros _. simpl. split; [apply lookup_delete_eq|].
      rewrite destroys_app.
      change (EvDecRef q :: destroy_events q oq)
        with ([EvDecRef q] ++ destroy_events q oq).
      rewrite destroys_app, destroys_destroy_events. simpl. lia.
  - eexists. split.
    + eapply (@decRef_spec_keep atomic_counter); eauto. simpl. by rewrite Hdec.
    + split; [|intros; lia]. intros _. split.
      * unfold count_of. simpl. rewrite lookup_insert_eq.
        eapply ref_count_set; eauto.
      * cbn [log]. rewrite destroys_app.
        change (destroys q [EvDecRef q]) with 0%nat. lia.
Qed.

Lemma lifecycle_of_count_witness :
  (exists p st1 st2,
     @allocate atomic_counter (NewMulti 3) empty_state = Some (p, st1)
     /\ count_of st1 p = Some 0
     /\ @Ref.ctor_raw atomic_counter 0%nat (Some p) st1 = Some (tt, st2)
     /\ count_of st2 p = Some 1
     /\ refs st2 !! 0%nat = Some (Some p))
  /\ Atomic.decRef 1 = (1 - 1, 1 - 1 =? 0)
  /\ exists s',
       @decRef atomic_counter 7%nat sample_held = Some (tt, s')
       /\ (1 - 1 <> 0 ->
           count_of s' 7%nat = Some (1 - 1)
           /\ destroys 7%nat (log s') = destroys 7%nat (log sample_held))
       /\ (1 - 1 = 0 ->
           heap s' !! 7%nat = None
           /\ destroys 7%nat (log s') = S (destroys 7%nat (log sample_held))).
Proof.
  apply (lifecycle_of_count empty_state (NewMulti 3) 0%nat sample_held 7%nat 1).
  - discriminate.
  - reflexivity.
  - reflexivity.
  - unfold Int.int_min, Int.int_max. lia.
Defined.

(** C10: a decrement of an object whose count is already 0 does not enter
    [destroy()]: the count becomes -1, the object stays allocated and the
    trace gains the decrement only.  This holds in both variants. *)
Theorem decRef_at_zero_skips_destroy (st : state) (p : ptr) :
  count_of st p = Some 0 ->
  Atomic.decRef 0 = (-1, false)
  /\ Plain.decRef 0 = Some (-1, false)
  /\ exists st',
       @decRef atomic_counter p st = Some (tt, st')
       /\ @decRef plain_counter p st = Some (tt, st')
       /\ count_of st' p = Some (-1)
       /\ refs st' = refs st
       /\ log st' = log st ++ [EvDecRef p]
       /\ destroys p (log st') = destroys p (log st).
Proof.
  intros Hc. split; [reflexivity|]. split; [reflexivity|].
  destruct (count_of_some _ _ _ Hc) as (o & Ho & Hco).
  eexists. split.
  { eapply (@decRef_spec_keep atomic_counter); eauto. }
  split.
  { eapply (@decRef_spec_keep plain_counter); eauto. }
  split.
  { unfold count_of. simpl. rewrite lookup_insert_eq.
    eapply ref_count_set; eauto. }
  split; [reflexivity|]. split; [reflexivity|].
  cbn [log]. rewrite destroys_app.
  change (destroys p [EvDecRef p]) with 0%nat. lia.
Qed.

Lemma decRef_at_zero_skips_destroy_witness :
  count_of sample_unwrapped 7%nat = Some 0
  /\ exists st',
       @decRef atomic_counter 7%nat sample_unwrapped = Some (tt, st')
       /\ @decRef plain_counter 7%nat sample_unwrapped = Some (tt, st')
       /\ count_of st' 7%nat = Some (-1)
       /\ refs st' = refs sample_unwrapped
       /\ log st' = log sample_unwrapped ++ [EvDecRef 7%nat]
       /\ destroys 7%nat (log st') = destroys 7%nat (log sample_unwrapped).
Proof.
  split; [reflexivity|].
  apply (decRef_at_zero_skips_destroy sample_unwrapped 7%nat). reflexivity.
Defined.

(** ** Effects of the handle operations *)

Section HandleOps.
Context {RC : RefCounter}.

Lemma decRef_refs p st st1 :
  decRef p st = Some (tt, st1) ->
  refs st1 = refs st /\ next_addr st1 = next_addr st.
Proof.
  unfold decRef, bind, load_obj, lift, store_obj, emit, ret.
  destruct (heap st !! p) as [o|] eqn:Hp; [|discriminate].
  destruct (ref_count o) as [c|]; [|discriminate].
  destruct (rc_decRef c) as [[c' last]|]; [|discriminate].
  destruct last.
  - destruct (teardown_defined (set_ref_count o c')) eqn:Htd.
    + erewrite destroy_spec; [| simpl; apply lookup_insert_eq | exact Htd].
      intros [= <-]. auto.
    + erewrite destroy_undefined; [| simpl; apply lookup_insert_eq | exact Htd].
      discriminate.
  - intros [= <-]. auto.
Qed.

Lemma decRef_if_refs v st st1 :
  decRef_if v st = Some (tt, st1) ->
  refs st1 = refs st /\ next_addr st1 = next_addr st.
Proof.
  destruct v as [p|]; simpl.
  - apply decRef_refs.
  - unfold ret. intros [= <-]. auto.
Qed.

Lemma incRef_with_refs p st rs :
  incRef p (with_refs st rs)
  = match incRef p st with
    | Some (_, st') => Some (tt, with_refs st' rs)
    | None => None
    end.
Proof.
  unfold incRef, bind, load_obj, lift, store_obj, emit, with_refs. simpl.
  destruct (heap st !! p) as [o|]; [|reflexivity].
  destruct (ref_count o) as [c|]; [|reflexivity].
  destruct (rc_incRef c); reflexivity.
Qed.

Lemma decRef_with_refs p st rs :
  decRef p (with_refs st rs)
  = match decRef p st with
    | Some (_, st') => Some (tt, with_refs st' rs)
    | None => None
    end.
Proof.
  unfold decRef, bind, load_obj, lift, store_obj, emit, ret, with_refs. simpl.
  destruct (heap st !! p) as [o|]; [|reflexivity].
  destruct (ref_count o) as [c|]; [|reflexivity].
  destruct (rc_decRef c) as [[c' last]|]; [|reflexivity].
  destruct last; [|reflexivity].
  destruct (teardown_defined (set_ref_count o c')) eqn:Htd.
  - do 2 (erewrite destroy_spec; [| simpl; apply lookup_insert_eq | exact Htd]).
    reflexivity.
  - do 2 (erewrite destroy_undefined; [| simpl; apply lookup_insert_eq | exact Htd]).
    reflexivity.
Qed.

Lemma ctor_default_spec d st :
  refs st !! d = None ->
  Ref.ctor_default d st = Some (tt, with_refs st (<[d := None]> (refs st))).
Proof. intros Hd. unfold Ref.ctor_default, declare. by rewrite Hd. Qed.

Lemma ctor_raw_spec d v st :
  refs st !! d = None ->
  Ref.ctor_raw d v st = incRef_if v (with_refs st (<[d := v]> (refs st))).
Proof.
  intros Hd. unfold Ref.ctor_raw, bind, declare, get_ptr. rewrite Hd. simpl.
  by rewrite lookup_insert_eq.
Qed.

Lemma ctor_copy_spec d h v st :
  refs st !! h = Some v -> refs st !! d = None ->
  Ref.ctor_copy d h st = incRef_if v (with_refs st (<[d := v]> (refs st))).
Proof.
  intros Hh Hd. unfold Ref.ctor_copy, bind, declare, get_ptr.
  rewrite Hh, Hd. simpl. by rewrite lookup_insert_eq.
Qed.

Lemma ctor_move_spec d h v st :
  refs st !! h = Some v -> refs st !! d = None ->
  Ref.ctor_move d h st
  = Some (tt, with_refs st (<[h := None]> (<[d := v]> (refs st)))).
Proof.
  intros Hh Hd. unfold Ref.ctor_move, bind, declare, get_ptr, set_ptr.
  rewrite Hh, Hd. simpl.
  assert (d <> h) by congruence.
  rewrite lookup_insert_ne, Hh by done. reflexivity.
Qed.

Lemma assign_copy_self h st : Ref.assign_copy h h st = Some (tt, st).
Proof. unfold Ref.assign_copy. by rewrite Nat.eqb_refl. Qed.

Lemma assign_move_self h st : Ref.assign_move h h st = Some (tt, st).
Proof. unfold Ref.assign_move. by rewrite Nat.eqb_refl. Qed.

Lemma assign_copy_spec d h dv v st st1 :
  d <> h -> refs st !! d = Some dv -> refs st !! h = Some v ->
  decRef_if dv st = Some (tt, st1) ->
  Ref.assign_copy d h st = incRef_if v (with_refs st1 (<[d := v]> (refs st))).
Proof.
  intros Hne Hd Hh Hdec. destruct (decRef_if_refs _ _ _ Hdec) as [Hrefs _].
  unfold Ref.assign_copy. apply Nat.eqb_neq in Hne. rewrite Hne.
  unfold bind, get_ptr, set_ptr.
  rewrite Hd. cbn iota beta. rewrite Hdec. cbn iota beta.
  rewrite Hrefs, Hh. cbn iota beta. rewrite Hrefs, Hd. simpl.
  rewrite lookup_insert_eq. unfold with_refs. reflexivity.
Qed.

Lemma assign_copy_undefined d h dv st :
  d <> h -> refs st !! d = Some dv -> decRef_if dv st = None ->
  Ref.assign_copy d h st = None.
Proof.
  intros Hne Hd Hdec. unfold Ref.assign_copy. apply Nat.eqb_neq in Hne.
  rewrite Hne. unfold bind, get_ptr. by rewrite Hd, Hdec.
Qed.

Lemma assign_move_spec d h dv v st st1 :
  d <> h -> refs st !! d = Some dv -> refs st !! h = Some v ->
  decRef_if dv st = Some (tt, st1) ->
  Ref.assign_move d h st
  = Some (tt, with_refs st1 (<[h := None]> (<[d := v]> (refs st)))).
Proof.
  intros Hne Hd Hh Hdec. destruct (decRef_if_refs _ _ _ Hdec) as [Hrefs _].
  unfold Ref.assign_move. pose proof Hne as Hne'.
  apply Nat.eqb_neq in Hne. rewrite Hne.
  unfold bind, get_ptr, set_ptr.
  rewrite Hd. cbn iota beta. rewrite Hdec. cbn iota beta.
  rewrite Hrefs, Hh. cbn iota beta. rewrite Hrefs, Hd. simpl.
  rewrite lookup_insert_ne, Hh by done.
  unfold with_refs. reflexivity.
Qed.

Lemma assign_move_undefined d h dv st :
  d <> h -> refs st !! d = Some dv -> decRef_if dv st = None ->
  Ref.assign_move d h st = None.
Proof.
  intros Hne Hd Hdec. unfold Ref.assign_move. apply Nat.eqb_neq in Hne.
  rewrite Hne. unfold bind, get_ptr. by rewrite Hd, Hdec.
Qed.

Lemma dtor_spec h v st st1 :
  refs st !! h = Some v -> decRef_if v st = Some (tt, st1) ->
  Ref.dtor h st = Some (tt, with_refs st1 (delete h (refs st))).
Proof.
  intros Hh Hdec. destruct (decRef_if_refs _ _ _ Hdec) as [Hrefs _].
  unfold Ref.dtor, bind, get_ptr, undeclare. rewrite Hh, Hdec, Hrefs.
  reflexivity.
Qed.

Lemma dtor_undefined h v st :
  refs st !! h = Some v -> decRef_if v st = None -> Ref.dtor h st = None.
Proof.
  intros Hh Hdec. unfold Ref.dtor, bind, get_ptr. by rewrite Hh, Hdec.
Qed.

End HandleOps.

(** ** Self-assignment *)

(** C5: assigning a holding handle to itself, by copy or by move, is a
    no-op: the store is returned unchanged, so the held pointer and the
    count are the same and the trace gains no decrement and no
    [destroy()].  Holds in both variants. *)
Theorem self_assignment_is_noop (RC : RefCounter) (st : state) (h : nat) (p : ptr) :
  refs st !! h = Some (Some p) ->
  Ref.assign_copy h h st = Some (tt, st)
  /\ Ref.assign_move h h st = Some (tt, st)
  /\ step (OpCopyAssign h h) st = Some (tt, st)
  /\ step (OpMoveAssign h h) st = Some (tt, st).
Proof.
  intros Hh. split; [apply assign_copy_self|]. split; [apply assign_move_self|].
  unfold step, in_scope, bind, get_ptr, ret. rewrite Hh. cbn beta iota.
  rewrite Hh. by rewrite assign_copy_self, assign_move_self.
Qed.

Lemma self_assignment_is_noop_witness :
  refs sample_held !! 0%nat = Some (Some 7%nat)
  /\ @Ref.assign_copy atomic_counter 0%nat 0%nat sample_held = Some (tt, sample_held)
  /\ @Ref.assign_move atomic_counter 0%nat 0%nat sample_held = Some (tt, sample_held)
  /\ @step atomic_counter (OpCopyAssign 0%nat 0%nat) sample_held = Some (tt, sample_held)
  /\ @step atomic_counter (OpMoveAssign 0%nat 0%nat) sample_held = Some (tt, sample_held).
Proof.
  split; [reflexivity|].
  apply (self_assignment_is_noop atomic_counter sample_held 0%nat 7%nat).
  reflexivity.
Defined.

(** ** Accessors *)

(** C9, as stated, fails: on an empty handle the emptiness check returns
    [false] and [get()] returns the null pointer; neither is undefined. *)
Lemma accessors_on_empty_counterexample :
  refs sample_empty_handle !! 0%nat = Some None
  /\ Ref.op_bool 0%nat sample_empty_handle = Some (false, sample_empty_handle)
  /\ Ref.get 0%nat sample_empty_handle = Some (None, sample_empty_handle)
  /\ ~ accessors_undefined_when_empty.
Proof.
  split; [reflexivity|]. split; [reflexivity|]. split; [reflexivity|].
  intros Hclaim.
  destruct (Hclaim sample_empty_handle 0%nat eq_refl) as (_ & _ & _ & Hbool).
  discriminate Hbool.
Qed.

(** C9, amended: [get()] and the boolean check are defined on every handle
    in scope, whatever it stores, and change nothing: they return the
    stored pointer and whether it is non-null.  On an empty handle
    dereference and member access are undefined, [get()] returns the null
    pointer and the boolean check [false].  On a handle that holds a live
    object dereference and member access yield that object, [get()] the
    pointer and the boolean check [true].  On a handle whose object is no
    longer allocated dereference and member access are undefined while
    [get()] and the boolean check still answer. *)
Theorem accessors_by_handle_state (st : state) (h : nat) :
  (forall v, refs st !! h = Some v ->
     Ref.get h st = Some (v, st)
     /\ Ref.op_arrow h st = Some (v, st)
     /\ Ref.op_bool h st = Some (match v with Some _ => true | None => false end, st))
  /\ (refs st !! h = Some None ->
      Ref.op_star h st = None
      /\ Ref.member_access h st = None
      /\ Ref.op_arrow h st = Some (None, st)
      /\ Ref.get h st = Some (None, st)
      /\ Ref.op_bool h st = Some (false, st))
  /\ (forall p o, refs st !! h = Some (Some p) -> heap st !! p = Some o ->
      Ref.op_star h st = Some (o, st)
      /\ Ref.member_access h st = Some (o, st)
      /\ Ref.op_arrow h st = Some (Some p, st)
      /\ Ref.get h st = Some (Some p, st)
      /\ Ref.op_bool h st = Some (true, st))
  /\ (forall p, refs st !! h = Some (Some p) -> heap st !! p = None ->
      Ref.op_star h st = None
      /\ Ref.member_access h st = None
      /\ Ref.get h st = Some (Some p, st)
      /\ Ref.op_bool h st = Some (true, st)).
Proof.
  unfold Ref.op_star, Ref.member_access, Ref.op_arrow, Ref.get, Ref.op_bool,
    Ref.indirection, bind, get_ptr, load_obj, undefined, ret.
  split; [|split; [|split]].
  - intros v Hv. rewrite Hv. auto.
  - intros He. rewrite He. simpl. auto 10.
  - intros p o Hh Hp. rewrite Hh. simpl. rewrite Hp. auto 10.
  - intros p Hh Hp. rewrite Hh. simpl. rewrite Hp. auto 10.
Qed.

Lemma accessors_by_handle_state_witness :
  (Ref.op_star 0%nat sample_empty_handle = None
   /\ Ref.member_access 0%nat sample_empty_handle = None
   /\ Ref.op_arrow 0%nat sample_empty_handle = Some (None, sample_empty_handle)
   /\ Ref.get 0%nat sample_empty_handle = Some (None, sample_empty_handle)
   /\ Ref.op_bool 0%nat sample_empty_handle = Some (false, sample_empty_handle))
  /\ (Ref.op_star 0%nat sample_two_handles
        = Some (GCObj Single [1], sample_two_handles)
      /\ Ref.member_access 0%nat sample_two_handles
        = Some (GCObj Single [1], sample_two_handles)
      /\ Ref.op_arrow 0%nat sample_two_handles = Some (Some 7%nat, sample_two_handles)
      /\ Ref.get 0%nat sample_two_handles = Some (Some 7%nat, sample_two_handles)
      /\ Ref.op_bool 0%nat sample_two_handles = Some (true, sample_two_handles))
  /\ (Ref.op_star 0%nat sample_dangling_handle = None
      /\ Ref.member_access 0%nat sample_dangling_handle = None
      /\ Ref.get 0%nat sample_dangling_handle
         = Some (Some 7%nat, sample_dangling_handle)
      /\ Ref.op_bool 0%nat sample_dangling_handle
         = Some (true, sample_dangling_handle)).
Proof.
  destruct (accessors_by_handle_state sample_empty_handle 0%nat)
    as (_ & Hempty & _ & _).
  destruct (accessors_by_handle_state sample_two_handles 0%nat)
    as (_ & _ & Hholding & _).
  destruct (accessors_by_handle_state sample_dangling_handle 0%nat)
    as (_ & _ & _ & Hdangling).
  split; [apply Hempty; reflexivity|].
  split; [apply (Hholding 7%nat (GCObj Single [1])); reflexivity|].
  apply (Hdangling 7%nat); reflexivity.
Defined.

(** ** Array teardown *)

Lemma teardowns_app p i l l' :
  teardowns p i (l ++ l') = (teardowns p i l + teardowns p i l')%nat.
Proof. unfold teardowns. by rewrite List.filter_app, length_app. Qed.

Lemma array_scenario_spec (RC : RefCounter) (st : state) (h : nat) (n : nat) :
  rc_initial = 0 -> rc_incRef 0 = Some 1 -> rc_decRef 1 = Some (0, true) ->
  rc_run_element = BaseElement ->
  refs st !! h = None ->
  array_scenario h (S n) st
  = Some (next_addr st,
          {| heap := delete (next_addr st) (heap st);
             next_addr := S (next_addr st);
             refs := refs st;
             log := log st ++ EvIncRef (next_addr st) :: EvDecRef (next_addr st)
                      :: EvDestroy Multi (next_addr st)
                      :: map (EvTeardown (next_addr st)) (rev (seq 0 (S n))) |}).
Proof.
  intros Hinit Hinc Hdec Helem Hh.
  unfold array_scenario, bind. simpl allocate.
  unfold GCMultiObject.allocate_impl, alloc. cbn beta iota zeta.
  rewrite ctor_raw_spec by exact Hh.
  set (p := next_addr st).
  set (o := GCObj Multi (replicate (S n) rc_initial)).
  unfold incRef_if.
  erewrite incRef_spec;
    [ | simpl; apply lookup_insert_eq | unfold o; reflexivity | rewrite Hinit; exact Hinc ].
  cbn beta iota.
  erewrite dtor_spec;
    [ | simpl; apply lookup_insert_eq
      | simpl; eapply decRef_spec_last;
        [ simpl; apply lookup_insert_eq
        | eapply ref_count_set; unfold o; reflexivity
        | exact Hdec
        | by apply teardown_defined_base ] ].
  unfold ret, with_refs. simpl.
  rewrite (delete_insert_id (refs st)) by exact Hh.
  rewrite !delete_insert_eq.
  rewrite <- app_assoc. simpl.
  unfold destroy_events, teardown_events. simpl.
  by rewrite length_replicate.
Qed.

(** The state in which the handle of the array block goes out of scope:
    the run is allocated, its count is 1 and the handle stores its
    address. *)
Lemma array_scenario_prefix (RC : RefCounter) (st : state) (h : nat) (n : nat) :
  rc_initial = 0 -> rc_incRef 0 = Some 1 ->
  refs st !! h = None ->
  exists st1,
    allocate (NewMulti (S n)) st = Some (next_addr st, st1)
    /\ Ref.ctor_raw h (Some (next_addr st)) st1
       = Some (tt, {| heap := <[next_addr st := GCObj Multi (1 :: replicate n 0)]>
                                (heap st);
                      next_addr := S (next_addr st);
                      refs := <[h := Some (next_addr st)]> (refs st);
                      log := log st ++ [EvIncRef (next_addr st)] |}).
Proof.
  intros Hinit Hinc Hh. eexists. split; [reflexivity|].
  rewrite ctor_raw_spec by exact Hh.
  unfold incRef_if.
  erewrite incRef_spec;
    [ | simpl; apply lookup_insert_eq | reflexivity | rewrite Hinit; exact Hinc ].
  unfold with_refs. simpl. rewrite insert_insert_eq, Hinit. reflexivity.
Qed.

(** With a run of elements of a derived class the scope exit of the only
    handle decrements to zero, enters [destroy()] and has no defined
    behaviour from there. *)
Lemma array_scenario_undefined (RC : RefCounter) (st : state) (h : nat) (n : nat) :
  rc_initial = 0 -> rc_incRef 0 = Some 1 -> rc_decRef 1 = Some (0, true) ->
  rc_run_element = DerivedElement ->
  refs st !! h = None ->
  array_scenario h (S n) st = None.
Proof.
  intros Hinit Hinc Hdec Helem Hh.
  destruct (array_scenario_prefix RC st h n Hinit Hinc Hh) as (st1 & Hal & Hraw).
  unfold array_scenario, bind. rewrite Hal, Hraw.
  erewrite dtor_undefined; [reflexivity | simpl; apply lookup_insert_eq |].
  simpl. eapply decRef_spec_undefined;
    [ simpl; apply lookup_insert_eq | reflexivity | exact Hdec |].
  unfold teardown_defined. simpl. by rewrite Helem.
Qed.

(** C6, at the failing input
    [{ MyArray* p = GCObject::allocate<MyArray>(3); Ref<MyArray> arr(p); }]:
    the run of 3 elements of the derived class is allocated and wrapped,
    its count is 1 and the handle stores its address; the scope exit of
    the handle then decrements to zero and enters [destroy()], whose
    [delete[] this] through a [GCMultiObject*] has no defined behaviour:
    the block has no defined result, in both variants, and no trace in
    which the three elements are torn down once each.  Only for a run of
    elements of type [GCMultiObject] itself does the same block tear down
    elements 2, 1, 0 once each and release the storage. *)
Theorem array_of_three_release_undefined (st : state) (h : nat) :
  refs st !! h = None ->
  let p := next_addr st in
  (exists st1 st2,
     @allocate atomic_counter_derived (NewMulti 3) st = Some (p, st1)
     /\ @Ref.ctor_raw atomic_counter_derived h (Some p) st1 = Some (tt, st2)
     /\ heap st2 !! p = Some (GCObj Multi [1; 0; 0])
     /\ refs st2 !! h = Some (Some p)
     /\ @decRef atomic_counter_derived p st2 = None
     /\ @decRef plain_counter_derived p st2 = None
     /\ @Ref.dtor atomic_counter_derived h st2 = None
     /\ @Ref.dtor plain_counter_derived h st2 = None)
  /\ @array_scenario atomic_counter_derived h 3 st = None
  /\ @array_scenario plain_counter_derived h 3 st = None
  /\ (forall st', @GCMultiObject.destroy atomic_counter_derived p st' = None)
  /\ exists st',
       @array_scenario atomic_counter h 3 st = Some (p, st')
       /\ @array_scenario plain_counter h 3 st = Some (p, st')
       /\ log st' = log st ++ [EvIncRef p; EvDecRef p; EvDestroy Multi p;
                               EvTeardown p 2; EvTeardown p 1; EvTeardown p 0]
       /\ heap st' !! p = None.
Proof.
  intros Hh p. split; [|split; [|split; [|split]]].
  - destruct (array_scenario_prefix atomic_counter_derived st h 2
                eq_refl eq_refl Hh) as (st1 & Hal & Hraw).
    exists st1. eexists.
    split; [exact Hal|]. split; [exact Hraw|].
    split; [simpl; apply lookup_insert_eq|].
    split; [simpl; apply lookup_insert_eq|].
    assert (Ha : @decRef atomic_counter_derived (next_addr st)
                   {| heap := <[next_addr st := GCObj Multi [1; 0; 0]]> (heap st);
                      next_addr := S (next_addr st);
                      refs := <[h := Some (next_addr st)]> (refs st);
                      log := log st ++ [EvIncRef (next_addr st)] |} = None).
    { eapply (@decRef_spec_undefined atomic_counter_derived);
        [ simpl; apply lookup_insert_eq | reflexivity | reflexivity | reflexivity ]. }
    assert (Hp : @decRef plain_counter_derived (next_addr st)
                   {| heap := <[next_addr st := GCObj Multi [1; 0; 0]]> (heap st);
                      next_addr := S (next_addr st);
                      refs := <[h := Some (next_addr st)]> (refs st);
                      log := log st ++ [EvIncRef (next_addr st)] |} = None).
    { eapply (@decRef_spec_undefined plain_counter_derived);
        [ simpl; apply lookup_insert_eq | reflexivity | reflexivity | reflexivity ]. }
    split; [exact Ha|]. split; [exact Hp|].
    split.
    + eapply (@dtor_undefined atomic_counter_derived);
        [simpl; apply lookup_insert_eq | exact Ha].
    + eapply (@dtor_undefined plain_counter_derived);
        [simpl; apply lookup_insert_eq | exact Hp].
  - apply (array_scenario_undefined atomic_counter_derived st h 2); auto.
  - apply (array_scenario_undefined plain_counter_derived st h 2); auto.
  - reflexivity.
  - eexists.
    split; [apply (array_scenario_spec atomic_counter st h 2); auto|].
    split; [apply (array_scenario_spec plain_counter st h 2); auto|].
    cbn [log heap]. fold p.
    split; [reflexivity|]. apply lookup_delete_eq.
Qed.

Lemma array_of_three_release_undefined_witness :
  (exists st1 st2,
     @allocate atomic_counter_derived (NewMulti 3) empty_state = Some (0%nat, st1)
     /\ @Ref.ctor_raw atomic_counter_derived 0%nat (Some 0%nat) st1 = Some (tt, st2)
     /\ heap st2 !! 0%nat = Some (GCObj Multi [1; 0; 0])
     /\ @Ref.dtor atomic_counter_derived 0%nat st2 = None)
  /\ @array_scenario atomic_counter_derived 0%nat 3 empty_state = None
  /\ @array_scenario plain_counter_derived 0%nat 3 empty_state = None.
Proof.
  destruct (array_of_three_release_undefined empty_state 0%nat eq_refl)
    as ((st1 & st2 & Hal & Hraw & Hheap & _ & _ & _ & Hdtor & _) & Ha & Hp & _).
  split; [|split; [exact Ha | exact Hp]].
  exists st1, st2. auto.
Defined.

(** ** Copying a handle *)

Lemma count_of_insert_eq hp nx rs lg p o c c' :
  ref_count o = Some c ->
  count_of {| heap := <[p := set_ref_count o c']> hp; next_addr := nx;
              refs := rs; log := lg |} p = Some c'.
Proof.
  intros Hc. unfold count_of. simpl. rewrite lookup_insert_eq.
  eapply ref_count_set; eauto.
Qed.

Lemma atomic_incRef_defined p c st :
  count_of st p = Some c -> Int.int_min <= c < Int.int_max ->
  exists o, heap st !! p = Some o /\ ref_count o = Some c
    /\ @incRef atomic_counter p st
       = Some (tt, {| heap := <[p := set_ref_count o (c + 1)]> (heap st);
                      next_addr := next_addr st; refs := refs st;
                      log := log st ++ [EvIncRef p] |}).
Proof.
  intros Hc Hr. destruct (count_of_some _ _ _ Hc) as (o & Ho & Hco).
  exists o. split; [exact Ho|]. split; [exact Hco|].
  eapply (@incRef_spec atomic_counter); eauto.
  simpl. by rewrite atomic_incRef_exact.
Qed.

Lemma atomic_decRef_defined p c st :
  count_of st p = Some c -> Int.int_min < c <= Int.int_max ->
  exists o, heap st !! p = Some o /\ ref_count o = Some c
    /\ @decRef atomic_counter p st
       = Some (tt,
               if c =? 1
               then {| heap := delete p (heap st);
                       next_addr := next_addr st; refs := refs st;
                       log := log st ++ EvDecRef p :: destroy_events p o |}
               else {| heap := <[p := set_ref_count o (c - 1)]> (heap st);
                       next_addr := next_addr st; refs := refs st;
                       log := log st ++ [EvDecRef p] |}).
Proof.
  intros Hc Hr. destruct (count_of_some _ _ _ Hc) as (o & Ho & Hco).
  exists o. split; [exact Ho|]. split; [exact Hco|].
  pose proof (atomic_decRef_exact c Hr) as Hd.
  destruct (Z.eqb_spec c 1) as [->|Hne].
  - eapply (@decRef_spec_last atomic_counter); eauto.
    by apply teardown_defined_base.
  - eapply (@decRef_spec_keep atomic_counter); eauto. simpl. rewrite Hd.
    f_equal. f_equal. apply Z.eqb_neq. lia.
Qed.

Lemma count_of_with_refs st rs p : count_of (with_refs st rs) p = count_of st p.
Proof. reflexivity. Qed.

Lemma atomic_incRef_if_holding p c st rs :
  count_of st p = Some c -> Int.int_min <= c < Int.int_max ->
  exists st',
    @incRef_if atomic_counter (Some p) (with_refs st rs) = Some (tt, st')
    /\ refs st' = rs
    /\ count_of st' p = Some (c + 1)
    /\ log st' = log st ++ [EvIncRef p]
    /\ forall q, q <> p -> heap st' !! q = heap st !! q.
Proof.
  intros Hc Hr.
  destruct (atomic_incRef_defined p c st Hc Hr) as (o & Ho & Hco & Hinc).
  simpl incRef_if. rewrite incRef_with_refs, Hinc.
  eexists. split; [reflexivity|]. split; [reflexivity|].
  split; [eapply count_of_insert_eq; eauto|].
  split; [reflexivity|].
  intros q Hq. simpl. by rewrite lookup_insert_ne.
Qed.

(** C3: copy-constructing or copy-assigning from a handle [h] that holds
    [p] makes the destination hold [p] and raises the count of [p] by one;
    copy-assignment first decrements the pointer the destination held
    before, which destroys that object when the destination was its last
    holder (atomic variant, count of [p] below the maximum of [int]). *)
Theorem copy_shares_and_increments (st : state) (h d : nat) (p : ptr) (c : Z) :
  refs st !! h = Some (Some p) -> count_of st p = Some c ->
  Int.int_min <= c < Int.int_max ->
  (* copy construction into a new variable *)
  (refs st !! d = None ->
   exists st',
     @Ref.ctor_copy atomic_counter d h st = Some (tt, st')
     /\ refs st' = <[d := Some p]> (refs st)
     /\ count_of st' p = Some (c + 1)
     /\ log st' = log st ++ [EvIncRef p])
  (* copy assignment onto an empty destination *)
  /\ (d <> h -> refs st !! d = Some None ->
      exists st',
        @Ref.assign_copy atomic_counter d h st = Some (tt, st')
        /\ refs st' = <[d := Some p]> (refs st)
        /\ count_of st' p = Some (c + 1)
        /\ log st' = log st ++ [EvIncRef p])
  (* copy assignment onto a destination that held another object *)
  /\ (forall q cq,
        d <> h -> refs st !! d = Some (Some q) -> q <> p ->
        count_of st q = Some cq -> Int.int_min < cq <= Int.int_max ->
        exists oq st',
          heap st !! q = Some oq
          /\ @Ref.assign_copy atomic_counter d h st = Some (tt, st')
          /\ refs st' = <[d := Some p]> (refs st)
          /\ count_of st' p = Some (c + 1)
          /\ (cq <> 1 ->
              count_of st' q = Some (cq - 1)
              /\ log st' = log st ++ [EvDecRef q; EvIncRef p])
          /\ (cq = 1 ->
              heap st' !! q = None
              /\ log st' = log st ++ EvDecRef q :: destroy_events q oq
                             ++ [EvIncRef p]))
  (* copy assignment onto a destination that already held p *)
  /\ (d <> h -> refs st !! d = Some (Some p) -> c <> 1 -> Int.int_min < c ->
      exists st',
        @Ref.assign_copy atomic_counter d h st = Some (tt, st')
        /\ refs st' = <[d := Some p]> (refs st)
        /\ count_of st' p = Some c
        /\ log st' = log st ++ [EvDecRef p; EvIncRef p]).
Proof.
  intros Hh Hc Hr. repeat split.
  - intros Hd. rewrite (ctor_copy_spec d h (Some p) st Hh Hd).
    destruct (atomic_incRef_if_holding p c st (<[d := Some p]> (refs st)) Hc Hr)
      as (st' & Hrun & Hrefs & Hcnt & Hlog & _).
    exists st'. auto.
  - intros Hne Hd.
    rewrite (assign_copy_spec d h None (Some p) st st Hne Hd Hh eq_refl).
    destruct (atomic_incRef_if_holding p c st (<[d := Some p]> (refs st)) Hc Hr)
      as (st' & Hrun & Hrefs & Hcnt & Hlog & _).
    exists st'. auto.
  - intros q cq Hne Hd Hqp Hcq Hrq.
    destruct (atomic_decRef_defined q cq st Hcq Hrq) as (oq & Hoq & Hcoq & Hdec).
    exists oq.
    rewrite (assign_copy_spec d h (Some q) (Some p) st _ Hne Hd Hh Hdec).
    destruct (Z.eqb_spec cq 1) as [->|Hcq1].
    + match goal with |- context [with_refs ?s _] => set (st1 := s) end.
      assert (Hc1 : count_of st1 p = Some c).
      { unfold count_of, st1. simpl. rewrite lookup_delete_ne by done. exact Hc. }
      destruct (atomic_incRef_if_holding p c st1 (<[d := Some p]> (refs st)) Hc1 Hr)
        as (st' & Hrun & Hrefs & Hcnt & Hlog & Hframe).
      exists st'. split; [exact Hoq|]. split; [exact Hrun|]. split; [exact Hrefs|].
      split; [exact Hcnt|]. split; [intros; congruence|]. intros _. split.
      * rewrite Hframe by done. unfold st1. simpl. apply lookup_delete_eq.
      * rewrite Hlog. unfold st1. simpl. rewrite <- app_assoc. reflexivity.
    + match goal with |- context [with_refs ?s _] => set (st1 := s) end.
      assert (Hc1 : count_of st1 p = Some c).
      { unfold count_of, st1. simpl. rewrite lookup_insert_ne by done. exact Hc. }
      destruct (atomic_incRef_if_holding p c st1 (<[d := Some p]> (refs st)) Hc1 Hr)
        as (st' & Hrun & Hrefs & Hcnt & Hlog & Hframe).
      exists st'. split; [exact Hoq|]. split; [exact Hrun|]. split; [exact Hrefs|].
      split; [exact Hcnt|]. split; [|intros; congruence]. intros _. split.
      * unfold count_of. rewrite Hframe by done. unfold st1. simpl.
        rewrite lookup_insert_eq. eapply ref_count_set; eauto.
      * rewrite Hlog. unfold st1. simpl. rewrite <- app_assoc. reflexivity.
  - intros Hne Hd Hc1 Hmin.
    destruct (atomic_decRef_defined p c st Hc ltac:(lia)) as (o & Ho & Hco & Hdec).
    rewrite (assign_copy_spec d h (Some p) (Some p) st _ Hne Hd Hh Hdec).
    destruct (Z.eqb_spec c 1) as [|_]; [contradiction|].
    match goal with |- context [with_refs ?s _] => set (st1 := s) end.
    assert (Hcnt1 : count_of st1 p = Some (c - 1)).
    { unfold st1. eapply count_of_insert_eq; eauto. }
    destruct (atomic_incRef_if_holding p (c - 1) st1 (<[d := Some p]> (refs st))
                Hcnt1 ltac:(lia))
      as (st' & Hrun & Hrefs & Hcnt & Hlog & _).
    exists st'. split; [exact Hrun|]. split; [exact Hrefs|]. split.
    + rewrite Hcnt. f_equal. lia.
    + rewrite Hlog. unfold st1. simpl. rewrite <- app_assoc. reflexivity.
Qed.

Lemma copy_shares_and_increments_witness :
  exists st',
    @Ref.assign_copy atomic_counter 1%nat 0%nat sample_two_objects = Some (tt, st')
    /\ refs st' = <[1%nat := Some 7%nat]> (refs sample_two_objects)
    /\ count_of st' 7%nat = Some 2
    /\ heap st' !! 9%nat = None
    /\ log st' = log sample_two_objects
                 ++ EvDecRef 9%nat :: destroy_events 9%nat (GCObj Multi [1; 0])
                 ++ [EvIncRef 7%nat].
Proof.
  assert (Hh : refs sample_two_objects !! 0%nat = Some (Some 7%nat)) by reflexivity.
  assert (Hc : count_of sample_two_objects 7%nat = Some 1) by reflexivity.
  assert (Hr : Int.int_min <= 1 < Int.int_max)
    by (unfold Int.int_min, Int.int_max; lia).
  destruct (copy_shares_and_increments sample_two_objects 0%nat 1%nat 7%nat 1
              Hh Hc Hr) as (_ & _ & Hother & _).
  assert (Hne : 1%nat <> 0%nat) by discriminate.
  assert (Hd : refs sample_two_objects !! 1%nat = Some (Some 9%nat)) by reflexivity.
  assert (Hqp : 9%nat <> 7%nat) by discriminate.
  assert (Hcq : count_of sample_two_objects 9%nat = Some 1) by reflexivity.
  assert (Hrq : Int.int_min < 1 <= Int.int_max)
    by (unfold Int.int_min, Int.int_max; lia).
  destruct (Hother 9%nat 1 Hne Hd Hqp Hcq Hrq)
    as (oq & st' & Hoq & Hrun & Hrefs & Hcnt & _ & Hlast).
  assert (Hoq' : oq = GCObj Multi [1; 0]).
  { assert (Hlk : heap sample_two_objects !! 9%nat = Some (GCObj Multi [1; 0]))
      by reflexivity.
    rewrite Hlk in Hoq. by injection Hoq. }
  destruct (Hlast eq_refl) as [Hfreed Hlog].
  exists st'. rewrite <- Hoq'. auto.
Defined.

(** ** Moving a handle *)

(** C4: moving from a handle [h] that holds [p], by construction or by
    assignment, leaves the count of [p] untouched by the transfer, empties
    [h] and makes the destination hold [p]; move-assignment first
    decrements the pointer the destination held before (which is [p]
    itself when the destination already held it).  After the move the
    scope exit of [h] releases nothing, and the scope exit of the
    destination performs the decrement that destroys [p] when its count is
    1 (atomic variant). *)
Theorem move_transfers_ownership (st : state) (h d : nat) (p : ptr) (c : Z) :
  refs st !! h = Some (Some p) -> count_of st p = Some c ->
  Int.int_min < c <= Int.int_max ->
  (* move construction into a new variable *)
  (refs st !! d = None ->
   exists o st',
     heap st !! p = Some o
     /\ Ref.ctor_move d h st = Some (tt, st')
     /\ refs st' = <[h := None]> (<[d := Some p]> (refs st))
     /\ count_of st' p = Some c /\ heap st' = heap st /\ log st' = log st
     (* the source's scope exit releases nothing *)
     /\ (exists sh, @Ref.dtor atomic_counter h st' = Some (tt, sh)
                    /\ heap sh = heap st /\ log sh = log st)
     (* the destination's scope exit performs the decrement *)
     /\ (exists sd, @Ref.dtor atomic_counter d st' = Some (tt, sd)
                    /\ (c = 1 -> heap sd !! p = None
                                 /\ log sd = log st ++ EvDecRef p :: destroy_events p o)
                    /\ (c <> 1 -> count_of sd p = Some (c - 1)
                                  /\ log sd = log st ++ [EvDecRef p])))
  (* move assignment onto an empty destination *)
  /\ (d <> h -> refs st !! d = Some None ->
      exists st',
        @Ref.assign_move atomic_counter d h st = Some (tt, st')
        /\ refs st' = <[h := None]> (<[d := Some p]> (refs st))
        /\ count_of st' p = Some c /\ heap st' = heap st /\ log st' = log st)
  (* move assignment onto a destination that held another object *)
  /\ (forall q cq,
        d <> h -> refs st !! d = Some (Some q) -> q <> p ->
        count_of st q = Some cq -> Int.int_min < cq <= Int.int_max ->
        exists oq st',
          heap st !! q = Some oq
          /\ @Ref.assign_move atomic_counter d h st = Some (tt, st')
          /\ refs st' = <[h := None]> (<[d := Some p]> (refs st))
          /\ count_of st' p = Some c
          /\ (cq <> 1 ->
              count_of st' q = Some (cq - 1)
              /\ log st' = log st ++ [EvDecRef q])
          /\ (cq = 1 ->
              heap st' !! q = None
              /\ log st' = log st ++ EvDecRef q :: destroy_events q oq))
  (* move assignment onto a destination that already held p *)
  /\ (d <> h -> refs st !! d = Some (Some p) -> c <> 1 ->
      exists st',
        @Ref.assign_move atomic_counter d h st = Some (tt, st')
        /\ refs st' = <[h := None]> (<[d := Some p]> (refs st))
        /\ count_of st' p = Some (c - 1)
        /\ log st' = log st ++ [EvDecRef p]).
Proof.
  intros Hh Hc Hr.
  destruct (atomic_decRef_defined p c st Hc Hr) as (o & Ho & Hco & Hdec).
  split; [|split; [|split]].
  - intros Hd. exists o. eexists. split; [exact Ho|].
    split; [apply (ctor_move_spec d h (Some p) st Hh Hd)|].
    assert (Hdh : d <> h) by congruence.
    split; [reflexivity|]. split; [exact Hc|]. split; [reflexivity|].
    split; [reflexivity|]. split.
    + eexists. split.
      * eapply (@dtor_spec atomic_counter).
        { simpl. apply lookup_insert_eq. }
        { reflexivity. }
      * split; reflexivity.
    + eexists. split.
      * eapply (@dtor_spec atomic_counter).
        { simpl. rewrite lookup_insert_ne by congruence. apply lookup_insert_eq. }
        { simpl decRef_if. rewrite decRef_with_refs, Hdec. reflexivity. }
      * destruct (Z.eqb_spec c 1) as [->|Hc1]; simpl.
        { split; [|intros; congruence]. intros _.
          split; [apply lookup_delete_eq | reflexivity]. }
        { split; [intros; congruence|]. intros _.
          split; [eapply count_of_insert_eq; eauto | reflexivity]. }
  - intros Hne Hd. eexists.
    split; [apply (assign_move_spec d h None (Some p) st st Hne Hd Hh eq_refl)|].
    split; [reflexivity|]. split; [exact Hc|]. split; reflexivity.
  - intros q cq Hne Hd Hqp Hcq Hrq.
    destruct (atomic_decRef_defined q cq st Hcq Hrq) as (oq & Hoq & Hcoq & Hdq).
    exists oq. eexists. split; [exact Hoq|].
    split; [apply (assign_move_spec d h (Some q) (Some p) st _ Hne Hd Hh Hdq)|].
    split; [destruct (cq =? 1); reflexivity|].
    destruct (Z.eqb_spec cq 1) as [->|Hcq1].
    + split.
      { unfold count_of. simpl. rewrite lookup_delete_ne by done. exact Hc. }
      split; [intros; congruence|]. intros _.
      split; [simpl; apply lookup_delete_eq | reflexivity].
    + split.
      { unfold count_of. simpl. rewrite lookup_insert_ne by done. exact Hc. }
      split; [|intros; congruence]. intros _.
      split; [eapply count_of_insert_eq; eauto | reflexivity].
  - intros Hne Hd Hc1. eexists.
    split; [apply (assign_move_spec d h (Some p) (Some p) st _ Hne Hd Hh Hdec)|].
    destruct (Z.eqb_spec c 1) as [|_]; [contradiction|].
    split; [reflexivity|].
    split; [eapply count_of_insert_eq; eauto | reflexivity].
Qed.

Lemma move_transfers_ownership_witness :
  exists o st',
    heap sample_held !! 7%nat = Some o
    /\ Ref.ctor_move 1%nat 0%nat sample_held = Some (tt, st')
    /\ refs st' = <[0%nat := None]> (<[1%nat := Some 7%nat]> (refs sample_held))
    /\ count_of st' 7%nat = Some 1
    /\ heap st' = heap sample_held /\ log st' = log sample_held
    /\ (exists sh, @Ref.dtor atomic_counter 0%nat st' = Some (tt, sh)
                   /\ heap sh = heap sample_held /\ log sh = log sample_held)
    /\ (exists sd, @Ref.dtor atomic_counter 1%nat st' = Some (tt, sd)
                   /\ (1 = 1 -> heap sd !! 7%nat = None
                                /\ log sd = log sample_held
                                            ++ EvDecRef 7%nat :: destroy_events 7%nat o)
                   /\ (1 <> 1 -> count_of sd 7%nat = Some (1 - 1)
                                 /\ log sd = log sample_held ++ [EvDecRef 7%nat])).
Proof.
  assert (Hh : refs sample_held !! 0%nat = Some (Some 7%nat)) by reflexivity.
  assert (Hc : count_of sample_held 7%nat = Some 1) by reflexivity.
  assert (Hr : Int.int_min < 1 <= Int.int_max)
    by (unfold Int.int_min, Int.int_max; lia).
  apply (proj1 (move_transfers_ownership sample_held 0%nat 1%nat 7%nat 1 Hh Hc Hr)).
  reflexivity.
Defined.

(** ** The lifecycle invariant *)

Lemma handles_on_lookup p rs h v :
  handles_on p rs -> rs !! h = Some v ->
  (v = None /\ holdsZ p v = 0) \/ (v = Some p /\ holdsZ p v = 1).
Proof.
  intros Hon Hh. destruct v as [q|]; [right | left; auto].
  rewrite (Hon h q Hh). unfold holdsZ. by rewrite holds_self.
Qed.

Lemma handles_on_insert p rs h v :
  handles_on p rs -> (v = None \/ v = Some p) -> handles_on p (<[h := v]> rs).
Proof.
  intros Hon Hv h' q Hq. destruct (decide (h = h')) as [<-|Hne].
  - rewrite lookup_insert_eq in Hq. destruct Hv; congruence.
  - rewrite lookup_insert_ne in Hq by done. eauto.
Qed.

Lemma handles_on_delete p rs h :
  handles_on p rs -> handles_on p (delete h rs).
Proof.
  intros Hon h' q Hq. destruct (decide (h = h')) as [<-|Hne].
  - by rewrite lookup_delete_eq in Hq.
  - rewrite lookup_delete_ne in Hq by done. eauto.
Qed.

Lemma holdersZ_insert p h v (rs : gmap nat (option nat)) :
  Z.of_nat (holders p (<[h := v]> rs))
  = holdsZ p v + Z.of_nat (holders p (delete h rs)).
Proof.
  rewrite holders_insert. unfold holdsZ. destruct (holds p v); lia.
Qed.

Lemma holdersZ_lookup p h v (rs : gmap nat (option nat)) :
  rs !! h = Some v ->
  Z.of_nat (holders p rs) = holdsZ p v + Z.of_nat (holders p (delete h rs)).
Proof.
  intros Hh. rewrite (holders_lookup p h v rs Hh).
  unfold holdsZ. destruct (holds p v); lia.
Qed.

Lemma increments_app p l l' :
  increments p (l ++ l') = (increments p l + increments p l')%nat.
Proof. unfold increments. by rewrite List.filter_app, length_app. Qed.

Lemma increments_destroy_events p q o : increments p (destroy_events q o) = 0%nat.
Proof.
  unfold destroy_events, teardown_events, increments. simpl.
  destruct (obj_shape o); [reflexivity|].
  induction (rev (seq 0 (length (obj_counts o)))) as [|i l IH]; simpl; auto.
Qed.

Lemma balanced_weaken p n n' k st :
  n <= n' -> balanced p n k st -> balanced p n' k st.
Proof.
  intros Hn [Hon Hph]. split; [exact Hon|].
  destruct Hph as [Hd Hc Hb Hi | Hd Hp Hz].
  - apply Live; auto. lia.
  - apply Dead; auto.
Qed.

(** A change of the handle map that is paid for by the pending references
    keeps the store balanced. *)
Lemma balanced_with_refs p n k k' st rs :
  balanced p n k st -> handles_on p rs ->
  Z.of_nat (holders p rs) + k' = Z.of_nat (holders p (refs st)) + k ->
  balanced p n k' (with_refs st rs).
Proof.
  intros [Hon Hph] Hon' Heq. split; [exact Hon'|].
  destruct Hph as [Hd Hc Hb Hi | Hd Hp Hz].
  - apply Live; simpl; rewrite ?Heq; auto.
  - apply Dead; simpl; rewrite ?Heq; auto.
Qed.

Lemma release_balanced p n k st dv :
  balanced p n k st -> n <= Int.int_max ->
  (dv = None \/ dv = Some p) ->
  (dv = Some p -> 1 <= Z.of_nat (holders p (refs st)) + k) ->
  exists st1,
    @decRef_if atomic_counter dv st = Some (tt, st1)
    /\ refs st1 = refs st
    /\ balanced p n (k - holdsZ p dv) st1
    /\ increments p (log st1) = increments p (log st)
    /\ (destroys p (log st1) = destroys p (log st)
        \/ (dv = Some p
            /\ Z.of_nat (holders p (refs st)) + k = 1
            /\ exists ob, heap st !! p = Some ob
                 /\ log st1 = log st ++ EvDecRef p :: destroy_events p ob)).
Proof.
  intros [Hon Hph] Hn [->| ->] Hge.
  - exists st. split; [reflexivity|]. split; [reflexivity|].
    unfold holdsZ. simpl. rewrite Z.sub_0_r. repeat split; auto.
  - specialize (Hge eq_refl). unfold holdsZ. rewrite holds_self.
    destruct Hph as [Hd Hc Hb Hi | Hd Hp Hz]; [|lia].
    set (c := Z.of_nat (holders p (refs st)) + k) in *.
    assert (Hr : Int.int_min < c <= Int.int_max)
      by (unfold Int.int_min in *; lia).
    destruct (atomic_decRef_defined p c st Hc Hr) as (o & Ho & Hco & Hdec).
    simpl decRef_if. rewrite Hdec. eexists. split; [reflexivity|].
    destruct (Z.eqb_spec c 1) as [Hc1|Hc1]; cbn [refs log heap].
    + split; [reflexivity|]. split; [|split].
      * split; [exact Hon|]. apply Dead; cbn [refs log heap].
        -- rewrite destroys_app, Hd.
           change (EvDecRef p :: destroy_events p o)
             with ([EvDecRef p] ++ destroy_events p o).
           by rewrite destroys_app, destroys_destroy_events.
        -- apply lookup_delete_eq.
        -- fold c. lia.
      * rewrite increments_app.
        change (EvDecRef p :: destroy_events p o)
          with ([EvDecRef p] ++ destroy_events p o).
        rewrite increments_app, increments_destroy_events.
        change (increments p [EvDecRef p]) with 0%nat. lia.
      * right. split; [reflexivity|]. split; [exact Hc1|]. eauto.
    + split; [reflexivity|]. split; [|split].
      * split; [exact Hon|]. apply Live; cbn [refs log heap].
        -- rewrite destroys_app, Hd. reflexivity.
        -- erewrite count_of_insert_eq by eauto. f_equal. unfold c. lia.
        -- fold c. lia.
        -- fold c. lia.
      * rewrite increments_app.
        change (increments p [EvDecRef p]) with 0%nat. lia.
      * left. rewrite destroys_app. change (destroys p [EvDecRef p]) with 0%nat. lia.
Qed.

Lemma acquire_balanced p n k st v st1 :
  balanced p n k st -> n < Int.int_max ->
  (v = None \/ v = Some p) ->
  @incRef_if atomic_counter v st = Some (tt, st1) ->
  refs st1 = refs st
  /\ balanced p (n + 1) (k + holdsZ p v) st1
  /\ destroys p (log st1) = destroys p (log st)
  /\ (increments p (log st) <= increments p (log st1))%nat
  /\ (v = Some p -> (0 < increments p (log st1))%nat)
  /\ exists l, log st1 = log st ++ l /\ destroys p l = 0%nat.
Proof.
  intros Hbal Hn [->| ->] Hrun.
  - injection Hrun as <-. unfold holdsZ. simpl. rewrite Z.add_0_r.
    split; [reflexivity|]. split; [eapply balanced_weaken; [|exact Hbal]; lia|].
    split; [reflexivity|]. split; [lia|]. split; [discriminate|].
    exists []. by rewrite app_nil_r.
  - destruct Hbal as [Hon Hph]. unfold holdsZ. rewrite holds_self.
    destruct Hph as [Hd Hc Hb Hi | Hd Hp Hz].
    2:{ simpl in Hrun. by rewrite incRef_undefined_freed in Hrun. }
    set (c := Z.of_nat (holders p (refs st)) + k) in *.
    assert (Hr : Int.int_min <= c < Int.int_max)
      by (unfold Int.int_min in *; lia).
    destruct (atomic_incRef_defined p c st Hc Hr) as (o & Ho & Hco & Hinc).
    simpl in Hrun. rewrite Hinc in Hrun. injection Hrun as <-.
    cbn [refs log heap].
    split; [reflexivity|]. split; [|split; [|split; [|split]]].
    + split; [exact Hon|]. apply Live; cbn [refs log heap].
      * rewrite destroys_app, Hd. reflexivity.
      * erewrite count_of_insert_eq by eauto. f_equal. unfold c. lia.
      * fold c. lia.
      * fold c. lia.
    + rewrite destroys_app. change (destroys p [EvIncRef p]) with 0%nat. lia.
    + rewrite increments_app. lia.
    + intros _. rewrite increments_app. unfold increments at 2. simpl.
      rewrite Nat.eqb_refl. simpl. lia.
    + exists [EvIncRef p]. split; reflexivity.
Qed.

Lemma holdsZ_None p : holdsZ p None = 0.
Proof. reflexivity. Qed.

(** Every statement either leaves the store as it is (a self-assignment)
    or is a release of the destination's old pointer, a rebinding of the
    variables and an acquisition of the new pointer. *)
Lemma step_normal_form (RC : RefCounter) o st st' :
  step o st = Some (tt, st') ->
  (st' = st /\ forall h w, o <> OpRaw h w) \/
  exists dv v rs,
    release_then_acquire dv v rs st = Some (tt, st')
    /\ (dv = None \/ exists d, refs st !! d = Some dv)
    /\ (v = None \/ (exists h, o = OpRaw h v) \/ exists h, refs st !! h = Some v)
    /\ (forall h w, o = OpRaw h w -> v = w)
    /\ (forall x q, rs !! x = Some (Some q) ->
          (exists y, refs st !! y = Some (Some q)) \/ v = Some q)
    /\ (forall p, Z.of_nat (holders p rs)
                  = Z.of_nat (holders p (refs st)) - holdsZ p dv + holdsZ p v).
Proof.
  destruct o as [d|d w|d h|d h|d h|d h|h]; cbn [step]; intros Hrun.
  - (* Ref() *)
    destruct (refs st !! d) as [x|] eqn:Hd.
    { unfold Ref.ctor_default, declare in Hrun. by rewrite Hd in Hrun. }
    rewrite ctor_default_spec in Hrun by done. right.
    exists None, None, (<[d := None]> (refs st)).
    split; [exact Hrun|]. split; [by left|]. split; [by left|].
    split; [discriminate|]. split.
    + intros x q Hx. left. destruct (decide (d = x)) as [<-|Hne].
      * by rewrite lookup_insert_eq in Hx.
      * rewrite lookup_insert_ne in Hx by done. eauto.
    + intros p. rewrite holdersZ_insert, holders_fresh by done.
      rewrite ?holdsZ_None. lia.
  - (* Ref(T* ) *)
    destruct (refs st !! d) as [x|] eqn:Hd.
    { unfold Ref.ctor_raw, bind, declare in Hrun. by rewrite Hd in Hrun. }
    rewrite ctor_raw_spec in Hrun by done. right.
    exists None, w, (<[d := w]> (refs st)).
    split; [exact Hrun|]. split; [by left|]. split; [right; left; eauto|].
    split; [by intros ? ? [= _ ->]|]. split.
    + intros x q Hx. destruct (decide (d = x)) as [<-|Hne].
      * rewrite lookup_insert_eq in Hx. right. congruence.
      * rewrite lookup_insert_ne in Hx by done. eauto.
    + intros p. rewrite holdersZ_insert, holders_fresh by done.
      rewrite ?holdsZ_None. lia.
  - (* Ref(const Ref&) *)
    destruct (refs st !! h) as [v|] eqn:Hh.
    2:{ unfold Ref.ctor_copy, bind, get_ptr in Hrun. by rewrite Hh in Hrun. }
    destruct (refs st !! d) as [x|] eqn:Hd.
    { unfold Ref.ctor_copy, bind, get_ptr, declare in Hrun.
      rewrite Hh in Hrun. cbn beta iota in Hrun. by rewrite Hd in Hrun. }
    rewrite (ctor_copy_spec d h v) in Hrun by done. right.
    exists None, v, (<[d := v]> (refs st)).
    split; [exact Hrun|]. split; [by left|]. split; [right; right; eauto|].
    split; [discriminate|]. split.
    + intros x q Hx. destruct (decide (d = x)) as [<-|Hne].
      * rewrite lookup_insert_eq in Hx. right. congruence.
      * rewrite lookup_insert_ne in Hx by done. eauto.
    + intros p. rewrite holdersZ_insert, holders_fresh by done.
      rewrite ?holdsZ_None. lia.
  - (* Ref(Ref&&) *)
    destruct (refs st !! h) as [v|] eqn:Hh.
    2:{ unfold Ref.ctor_move, bind, get_ptr in Hrun. by rewrite Hh in Hrun. }
    destruct (refs st !! d) as [x|] eqn:Hd.
    { unfold Ref.ctor_move, bind, get_ptr, declare in Hrun.
      rewrite Hh in Hrun. cbn beta iota in Hrun. by rewrite Hd in Hrun. }
    rewrite (ctor_move_spec d h v) in Hrun by done. right.
    assert (Hdh : d <> h) by congruence.
    exists None, None, (<[h := None]> (<[d := v]> (refs st))).
    split; [exact Hrun|]. split; [by left|]. split; [by left|].
    split; [discriminate|]. split.
    + intros x q Hx. left. destruct (decide (h = x)) as [<-|Hne].
      * by rewrite lookup_insert_eq in Hx.
      * rewrite lookup_insert_ne in Hx by done.
        destruct (decide (d = x)) as [<-|Hne'].
        -- rewrite lookup_insert_eq in Hx. exists h. congruence.
        -- rewrite lookup_insert_ne in Hx by done. eauto.
    + intros p. rewrite holdersZ_insert.
      pose proof (holdersZ_lookup p h v (<[d := v]> (refs st))) as H1.
      rewrite lookup_insert_ne in H1 by done. specialize (H1 Hh).
      pose proof (holdersZ_insert p d v (refs st)) as H2.
      rewrite holders_fresh in H2 by done.
      rewrite ?holdsZ_None. lia.
  - (* operator=(const Ref&) *)
    unfold in_scope in Hrun. unfold bind, get_ptr, ret in Hrun.
    destruct (refs st !! d) as [dv|] eqn:Hd; [|done]. cbn beta iota in Hrun.
    destruct (refs st !! h) as [v|] eqn:Hh; [|done]. cbn beta iota in Hrun.
    destruct (decide (d = h)) as [->|Hne].
    { rewrite assign_copy_self in Hrun. left. split; [congruence | discriminate]. }
    right. exists dv, v, (<[d := v]> (refs st)).
    split.
    { unfold release_then_acquire, bind.
      destruct (decRef_if dv st) as [[[] st1]|] eqn:Hdec.
      - by rewrite (assign_copy_spec d h dv v st st1) in Hrun.
      - by rewrite (assign_copy_undefined d h dv st) in Hrun. }
    split; [right; eauto|]. split; [right; right; eauto|].
    split; [discriminate|]. split.
    + intros x q Hx. destruct (decide (d = x)) as [<-|Hne'].
      * rewrite lookup_insert_eq in Hx. right. congruence.
      * rewrite lookup_insert_ne in Hx by done. eauto.
    + intros p. rewrite holdersZ_insert.
      rewrite (holdersZ_lookup p d dv (refs st) Hd). lia.
  - (* operator=(Ref&&) *)
    unfold in_scope in Hrun. unfold bind, get_ptr, ret in Hrun.
    destruct (refs st !! d) as [dv|] eqn:Hd; [|done]. cbn beta iota in Hrun.
    destruct (refs st !! h) as [v|] eqn:Hh; [|done]. cbn beta iota in Hrun.
    destruct (decide (d = h)) as [->|Hne].
    { rewrite assign_move_self in Hrun. left. split; [congruence | discriminate]. }
    right. exists dv, None, (<[h := None]> (<[d := v]> (refs st))).
    split.
    { unfold release_then_acquire, bind.
      destruct (decRef_if dv st) as [[[] st1]|] eqn:Hdec.
      - by rewrite (assign_move_spec d h dv v st st1) in Hrun.
      - by rewrite (assign_move_undefined d h dv st) in Hrun. }
    split; [right; eauto|]. split; [by left|].
    split; [discriminate|]. split.
    + intros x q Hx. left. destruct (decide (h = x)) as [<-|Hne'].
      * by rewrite lookup_insert_eq in Hx.
      * rewrite lookup_insert_ne in Hx by done.
        destruct (decide (d = x)) as [<-|Hne''].
        -- rewrite lookup_insert_eq in Hx. exists h. congruence.
        -- rewrite lookup_insert_ne in Hx by done. eauto.
    + intros p. rewrite holdersZ_insert.
      pose proof (holdersZ_lookup p h v (<[d := v]> (refs st))) as H1.
      rewrite lookup_insert_ne in H1 by done. specialize (H1 Hh).
      pose proof (holdersZ_insert p d v (refs st)) as H2.
      pose proof (holdersZ_lookup p d dv (refs st) Hd) as H3.
      rewrite ?holdsZ_None. lia.
  - (* ~Ref() *)
    destruct (refs st !! h) as [dv|] eqn:Hh.
    2:{ unfold Ref.dtor, bind, get_ptr in Hrun. by rewrite Hh in Hrun. }
    right. exists dv, None, (delete h (refs st)).
    split.
    { unfold release_then_acquire, bind.
      destruct (decRef_if dv st) as [[[] st1]|] eqn:Hdec.
      - by rewrite (dtor_spec h dv st st1) in Hrun.
      - by rewrite (dtor_undefined h dv st) in Hrun. }
    split; [right; eauto|]. split; [by left|].
    split; [discriminate|]. split.
    + intros x q Hx. left. destruct (decide (h = x)) as [<-|Hne'].
      * by rewrite lookup_delete_eq in Hx.
      * rewrite lookup_delete_ne in Hx by done. eauto.
    + intros p. rewrite (holdersZ_lookup p h dv (refs st) Hh).
      rewrite ?holdsZ_None. lia.
Qed.

(** One statement keeps the store balanced, and the only way it can enter
    [destroy()] on [p] is the decrement by which the last holder lets go. *)
Lemma step_balanced p n o st st' :
  balanced p n 0 st -> n < Int.int_max -> wraps_only p o ->
  @step atomic_counter o st = Some (tt, st') ->
  balanced p (n + 1) 0 st'
  /\ (increments p (log st) <= increments p (log st'))%nat
  /\ (forall h, o = OpRaw h (Some p) -> (0 < increments p (log st'))%nat)
  /\ (destroys p (log st') = destroys p (log st)
      \/ (holders p (refs st) = 1%nat /\ holders p (refs st') = 0%nat
          /\ exists ob, heap st !! p = Some ob
               /\ log st' = log st ++ EvDecRef p :: destroy_events p ob)).
Proof.
  intros Hbal Hn Hw Hstep.
  destruct (step_normal_form atomic_counter o st st' Hstep)
    as [[-> Hnr] | (dv & v & rs & Hrun & Hdv & Hv & Hraw & Hrs & Hhold)].
  { split; [eapply balanced_weaken; [|exact Hbal]; lia|].
    split; [lia|]. split; [|by left].
    intros h ->. by destruct (Hnr h (Some p)). }
  pose proof Hbal as [Hon Hph].
  assert (Hdv' : dv = None \/ dv = Some p).
  { destruct Hdv as [->|[d Hd]]; [by left|].
    destruct (handles_on_lookup p _ d dv Hon Hd) as [[-> _]|[-> _]]; auto. }
  assert (Hge : dv = Some p -> 1 <= Z.of_nat (holders p (refs st)) + 0).
  { intros ->. destruct Hdv as [|[d Hd]]; [done|].
    rewrite (holdersZ_lookup p d (Some p) (refs st) Hd).
    unfold holdsZ. rewrite holds_self. lia. }
  destruct (release_balanced p n 0 st dv Hbal ltac:(lia) Hdv' Hge)
    as (st1 & Hdec & Hrefs1 & Hbal1 & Hinc1 & Hdes1).
  unfold release_then_acquire, bind in Hrun. rewrite Hdec in Hrun.
  assert (Hv' : v = None \/ v = Some p).
  { destruct Hv as [->|[[h ->]|[h Hh]]]; [by left| |].
    - destruct v as [q|]; [|by left]. simpl in Hw. subst q. by right.
    - destruct (handles_on_lookup p _ h v Hon Hh) as [[-> _]|[-> _]]; auto. }
  assert (Hon' : handles_on p rs).
  { intros x q Hx. destruct (Hrs x q Hx) as [[y Hy]| ->]; [by eapply Hon|].
    destruct Hv' as [|]; congruence. }
  specialize (Hhold p).
  assert (Hbal2 : balanced p n (- holdsZ p v) (with_refs st1 rs)).
  { eapply balanced_with_refs; [exact Hbal1 | exact Hon' |]. rewrite Hrefs1. lia. }
  destruct (acquire_balanced p n _ _ v st' Hbal2 Hn Hv' Hrun)
    as (Hrefs' & Hbal' & Hdes' & Hinc' & Hpos & l & Hlog' & Hl).
  replace (- holdsZ p v + holdsZ p v) with 0 in Hbal' by lia.
  split; [exact Hbal'|]. cbn [with_refs log refs] in *.
  split; [lia|]. split.
  { intros h ->. apply Hpos. exact (Hraw h (Some p) eq_refl). }
  destruct Hdes1 as [Hsame | (-> & Hone & ob & Hob & Hlog1)].
  { left. congruence. }
  right.
  assert (Hvn : v = None).
  { destruct Hv' as [Hvn | ->]; [done|]. exfalso.
    destruct Hbal1 as [_ [Hd1 _ _ _ | Hd1 Hp1 _]].
    - rewrite Hlog1, destroys_app in Hd1.
      change (EvDecRef p :: destroy_events p ob)
        with ([EvDecRef p] ++ destroy_events p ob) in Hd1.
      rewrite destroys_app, destroys_destroy_events in Hd1. lia.
    - simpl in Hrun. rewrite incRef_with_refs in Hrun.
      by rewrite incRef_undefined_freed in Hrun. }
  subst v. injection Hrun as <-. cbn [with_refs log refs heap] in *.
  unfold holdsZ in Hhold. rewrite holds_self in Hhold. simpl in Hhold.
  split; [lia|]. split; [lia|]. eauto.
Qed.

Lemma run_app (RC : RefCounter) l1 l2 st :
  run (l1 ++ l2) st
  = match run l1 st with
    | Some (_, s) => run l2 s
    | None => None
    end.
Proof.
  revert st. induction l1 as [|o l1 IH]; intros st; simpl; [reflexivity|].
  unfold bind. destruct (step o st) as [[[] s]|]; [apply IH | reflexivity].
Qed.

Lemma run_balanced p ops : forall n st st',
  balanced p n 0 st -> n + Z.of_nat (length ops) <= Int.int_max ->
  Forall (wraps_only p) ops ->
  @run atomic_counter ops st = Some (tt, st') ->
  balanced p (n + Z.of_nat (length ops)) 0 st'
  /\ (increments p (log st) <= increments p (log st'))%nat
  /\ ((exists h, In (OpRaw h (Some p)) ops) -> (0 < increments p (log st'))%nat).
Proof.
  induction ops as [|o ops IH]; intros n st st' Hbal Hn Hall Hrun.
  - injection Hrun as <-. simpl. rewrite Z.add_0_r.
    split; [exact Hbal|]. split; [lia|]. intros [h []].
  - apply Forall_cons_1 in Hall as [Hw Hall].
    simpl in Hrun. unfold bind in Hrun.
    destruct (@step atomic_counter o st) as [[[] s]|] eqn:Hstep; [|discriminate].
    simpl length in *.
    destruct (step_balanced p n o st s Hbal ltac:(lia) Hw Hstep)
      as (Hbal' & Hinc & Hpos & _).
    destruct (IH (n + 1) s st' Hbal' ltac:(lia) Hall Hrun)
      as (Hbal'' & Hinc' & Hpos').
    split.
    { replace (n + Z.of_nat (S (length ops)))
        with (n + 1 + Z.of_nat (length ops)) by lia. exact Hbal''. }
    split; [lia|].
    intros [h [Heq | Hin]].
    + specialize (Hpos h Heq). lia.
    + apply Hpos'. eauto.
Qed.

(** The same decomposition as an equation, for well-scoped statements;
    it also records that the pointer acquired by a copy is held by a
    variable other than the destination. *)
Lemma step_as_release_acquire (RC : RefCounter) o st :
  well_scoped o st ->
  step o st = Some (tt, st) \/
  exists dv v rs,
    step o st = release_then_acquire dv v rs st
    /\ (dv = None \/ exists d, refs st !! d = Some dv)
    /\ (v = None
        \/ ((exists h, o = OpRaw h v) /\ dv = None)
        \/ exists d h, d <> h /\ refs st !! h = Some v
                       /\ (dv = None \/ refs st !! d = Some dv)).
Proof.
  destruct o as [d|d w|d h|d h|d h|d h|h]; cbn [step well_scoped].
  - intros Hd. right. exists None, None, (<[d := None]> (refs st)).
    split; [by rewrite ctor_default_spec|]. split; by left.
  - intros Hd. right. exists None, w, (<[d := w]> (refs st)).
    split; [by rewrite ctor_raw_spec|]. split; [by left|].
    right; left. eauto.
  - intros [Hd [v Hh]]. right. exists None, v, (<[d := v]> (refs st)).
    split; [by rewrite (ctor_copy_spec d h v)|]. split; [by left|].
    right; right. exists d, h. split; [congruence|]. auto.
  - intros [Hd [v Hh]]. right.
    exists None, None, (<[h := None]> (<[d := v]> (refs st))).
    split; [by rewrite (ctor_move_spec d h v)|]. split; by left.
  - intros [[dv Hd] [v Hh]].
    unfold in_scope. unfold bind, get_ptr, ret. rewrite Hd. cbn beta iota.
    rewrite Hh. cbn beta iota.
    destruct (decide (d = h)) as [->|Hne].
    { left. apply assign_copy_self. }
    right. exists dv, v, (<[d := v]> (refs st)). split.
    { unfold release_then_acquire, bind.
      destruct (decRef_if dv st) as [[[] st1]|] eqn:Hdec.
      - by rewrite (assign_copy_spec d h dv v st st1).
      - by rewrite (assign_copy_undefined d h dv st). }
    split; [right; eauto|]. right; right. exists d, h. auto.
  - intros [[dv Hd] [v Hh]].
    unfold in_scope. unfold bind, get_ptr, ret. rewrite Hd. cbn beta iota.
    rewrite Hh. cbn beta iota.
    destruct (decide (d = h)) as [->|Hne].
    { left. apply assign_move_self. }
    right. exists dv, None, (<[h := None]> (<[d := v]> (refs st))). split.
    { unfold release_then_acquire, bind.
      destruct (decRef_if dv st) as [[[] st1]|] eqn:Hdec.
      - by rewrite (assign_move_spec d h dv v st st1).
      - by rewrite (assign_move_undefined d h dv st). }
    split; [right; eauto | by left].
  - intros [dv Hh]. right. exists dv, None, (delete h (refs st)). split.
    { unfold release_then_acquire, bind.
      destruct (decRef_if dv st) as [[[] st1]|] eqn:Hdec.
      - by rewrite (dtor_spec h dv st st1).
      - by rewrite (dtor_undefined h dv st). }
    split; [right; eauto | by left].
Qed.

(** A well-scoped statement has defined behaviour on a balanced store,
    unless it wraps the raw pointer of the object already destroyed. *)
Lemma step_defined p n o st :
  balanced p n 0 st -> n < Int.int_max -> wraps_only p o ->
  well_scoped o st ->
  (forall h, o = OpRaw h (Some p) -> destroys p (log st) = 0%nat) ->
  exists st', @step atomic_counter o st = Some (tt, st').
Proof.
  intros Hbal Hn Hw Hsc Hraw.
  destruct (step_as_release_acquire atomic_counter o st Hsc)
    as [Hself | (dv & v & rs & -> & Hdv & Hv)]; [eauto|].
  pose proof Hbal as [Hon Hph].
  assert (Hdv' : dv = None \/ dv = Some p).
  { destruct Hdv as [->|[d Hd]]; [by left|].
    destruct (handles_on_lookup p _ d dv Hon Hd) as [[-> _]|[-> _]]; auto. }
  assert (Hge : dv = Some p -> 1 <= Z.of_nat (holders p (refs st)) + 0).
  { intros ->. destruct Hdv as [|[d Hd]]; [done|].
    rewrite (holdersZ_lookup p d (Some p) (refs st) Hd).
    unfold holdsZ. rewrite holds_self. lia. }
  destruct (release_balanced p n 0 st dv Hbal ltac:(lia) Hdv' Hge)
    as (st1 & Hdec & Hrefs1 & [_ Hph1] & _ & Hdes1).
  unfold release_then_acquire, bind. rewrite Hdec.
  destruct v as [q|]; [|simpl; eauto].
  (* a reference on q is taken: q is p, and p is still allocated *)
  assert (Hlive : destroys p (log st1) = 0%nat /\ q = p
                  /\ 1 <= Z.of_nat (holders p (refs st)) - holdsZ p dv + 1).
  { destruct Hv as [|[[[h ->] ->]|(d & h & Hne & Hh & Hd)]]; [done| |].
    - simpl in Hw. subst q. rewrite holdsZ_None.
      split; [|split; [reflexivity | lia]].
      destruct Hdes1 as [->|(? & _)]; [eauto | done].
    - assert (q = p) as -> by (by eapply Hon).
      pose proof (holdersZ_lookup p h _ _ Hh) as H1.
      unfold holdsZ at 1 in H1. rewrite holds_self in H1.
      assert (H2 : holdsZ p dv + 1 <= Z.of_nat (holders p (refs st))).
      { destruct Hd as [->|Hd]; [rewrite holdsZ_None; lia|].
        rewrite (holdersZ_lookup p d dv _ Hd).
        pose proof (holdersZ_lookup p h (Some p) (delete d (refs st))) as H3.
        rewrite lookup_delete_ne in H3 by done. specialize (H3 Hh).
        unfold holdsZ at 1 in H3. rewrite holds_self in H3. lia. }
      split; [|split; [reflexivity | lia]].
      destruct Hdes1 as [->|(-> & Hone & _)].
      + destruct Hph as [Hd0 _ _ _ | _ _ Hz]; [exact Hd0 | lia].
      + unfold holdsZ in H2. rewrite holds_self in H2. lia. }
  destruct Hlive as (Hd1 & -> & Hpos).
  destruct Hph1 as [_ Hc1 Hb1 _ | Hd1' _ _]; [|lia].
  rewrite Hrefs1 in Hc1, Hb1.
  assert (Hr : Int.int_min <= Z.of_nat (holders p (refs st)) + (0 - holdsZ p dv)
               < Int.int_max) by (unfold Int.int_min; lia).
  destruct (atomic_incRef_defined p _ st1 Hc1 Hr) as (o1 & _ & _ & Hinc).
  simpl incRef_if. rewrite incRef_with_refs, Hinc. eauto.
Qed.

Lemma balanced_initial p st0 :
  refs st0 = ∅ -> log st0 = [] -> count_of st0 p = Some 0 ->
  balanced p 0 0 st0.
Proof.
  intros Hrefs Hlog Hc. split.
  - intros h q. rewrite Hrefs. by rewrite lookup_empty.
  - apply Live; rewrite ?Hrefs, ?Hlog, ?holders_empty; simpl; auto. lia.
Qed.

(** C1: handles are constructed from the raw pointer of one object [p]
    that left the factory with count 0, copied, moved, assigned and
    destroyed, in any finite sequence (atomic variant, fewer statements
    than [int] can count).  In every execution with defined behaviour
    [destroy()] is entered on [p] at most once; not at all while a handle
    still holds [p], whose count then equals the number of holders; exactly
    once, with [p] released, when [p] was wrapped and no handle holds it
    any more.  The statement that enters [destroy()] is the one in which
    the only remaining holder lets go, and [destroy()] follows that
    handle's decrement directly.  Behaviour is defined for every
    well-scoped statement except a raw-pointer construction from [p] after
    [p] was destroyed. *)
Theorem destroy_exactly_once_by_last_release
    (ops : list op) (p : ptr) (st0 : state) :
  refs st0 = ∅ -> log st0 = [] -> count_of st0 p = Some 0 ->
  Forall (wraps_only p) ops ->
  Z.of_nat (length ops) <= Int.int_max ->
  (forall st,
     @run atomic_counter ops st0 = Some (tt, st) ->
     (destroys p (log st) <= 1)%nat
     /\ ((0 < holders p (refs st))%nat ->
         destroys p (log st) = 0%nat
         /\ count_of st p = Some (Z.of_nat (holders p (refs st))))
     /\ (holders p (refs st) = 0%nat -> (exists h, In (OpRaw h (Some p)) ops) ->
         destroys p (log st) = 1%nat /\ heap st !! p = None))
  /\ (forall pre o post s1 s2,
        ops = pre ++ o :: post ->
        @run atomic_counter pre st0 = Some (tt, s1) ->
        @step atomic_counter o s1 = Some (tt, s2) ->
        destroys p (log s2) <> destroys p (log s1) ->
        holders p (refs s1) = 1%nat /\ holders p (refs s2) = 0%nat
        /\ exists ob, heap s1 !! p = Some ob
             /\ log s2 = log s1 ++ EvDecRef p :: destroy_events p ob)
  /\ (forall pre o post s1,
        ops = pre ++ o :: post ->
        @run atomic_counter pre st0 = Some (tt, s1) ->
        well_scoped o s1 ->
        (forall h, o = OpRaw h (Some p) -> destroys p (log s1) = 0%nat) ->
        exists s2, @step atomic_counter o s1 = Some (tt, s2)).
Proof.
  intros Hrefs Hlog Hc Hall Hlen.
  pose proof (balanced_initial p st0 Hrefs Hlog Hc) as Hbal0.
  split; [|split].
  - intros st Hrun.
    destruct (run_balanced p ops 0 st0 st Hbal0 ltac:(lia) Hall Hrun)
      as ([Hon Hph] & _ & Hpos).
    split; [|split].
    + destruct Hph as [Hd _ _ _ | Hd _ _]; lia.
    + intros Hheld. destruct Hph as [Hd Hcnt _ _ | _ _ Hz]; [|lia].
      rewrite Z.add_0_r in Hcnt. auto.
    + intros Hnone Hwrapped. specialize (Hpos Hwrapped).
      destruct Hph as [_ _ _ Hi | Hd Hp _]; [|auto].
      rewrite Hnone in Hi. specialize (Hi eq_refl). lia.
  - intros pre o post s1 s2 -> Hpre Hstep Hchange.
    apply Forall_app in Hall as [Hall_pre Hall_post].
    apply Forall_cons_1 in Hall_post as [Hw _].
    rewrite length_app in Hlen. simpl in Hlen.
    destruct (run_balanced p pre 0 st0 s1 Hbal0 ltac:(lia) Hall_pre Hpre)
      as (Hbal1 & _ & _).
    destruct (step_balanced p _ o s1 s2 Hbal1 ltac:(lia) Hw Hstep)
      as (_ & _ & _ & [Hsame | Hlast]); [congruence | exact Hlast].
  - intros pre o post s1 -> Hpre Hsc Hraw.
    apply Forall_app in Hall as [Hall_pre Hall_post].
    apply Forall_cons_1 in Hall_post as [Hw _].
    rewrite length_app in Hlen. simpl in Hlen.
    destruct (run_balanced p pre 0 st0 s1 Hbal0 ltac:(lia) Hall_pre Hpre)
      as (Hbal1 & _ & _).
    exact (step_defined p _ o s1 Hbal1 ltac:(lia) Hw Hsc Hraw).
Qed.

Lemma destroy_exactly_once_by_last_release_witness :
  exists st,
    @run atomic_counter sample_program sample_unwrapped = Some (tt, st)
    /\ holders 7%nat (refs st) = 0%nat
    /\ destroys 7%nat (log st) = 1%nat
    /\ heap st !! 7%nat = None.
Proof.
  destruct (@run atomic_counter sample_program sample_unwrapped)
    as [[[] st]|] eqn:Hrun; [|vm_compute in Hrun; discriminate Hrun].
  exists st. split; [reflexivity|].
  assert (Hnone : holders 7%nat (refs st) = 0%nat).
  { vm_compute in Hrun. injection Hrun as <-. reflexivity. }
  split; [exact Hnone|].
  assert (Hall : Forall (wraps_only 7%nat) sample_program).
  { repeat constructor. }
  assert (Hlen : Z.of_nat (length sample_program) <= Int.int_max).
  { unfold Int.int_max. simpl. lia. }
  destruct (destroy_exactly_once_by_last_release sample_program 7%nat
              sample_unwrapped eq_refl eq_refl eq_refl Hall Hlen)
    as (Hfinal & _ & _).
  destruct (Hfinal st Hrun) as (_ & _ & Hdone).
  apply Hdone; [exact Hnone|]. exists 0%nat. simpl. auto.
Defined.

Example rewrap_after_release_is_undefined :
  @run atomic_counter rewrap_program sample_unwrapped = None
  /\ exists s, @run atomic_counter [OpRaw 0 (Some 7); OpScopeExit 0]%nat
                 sample_unwrapped = Some (tt, s)
               /\ destroys 7%nat (log s) = 1%nat /\ heap s !! 7%nat = None.
Proof.
  split; [reflexivity|]. eexists. split; [reflexivity|]. split; reflexivity.
Qed.

(** ** Concurrent owners *)

Lemma count_pc_insert a (l : list Threads.pc) i old new :
  l !! i = Some old ->
  (Threads.count_pc a (<[i := new]> l) + (if Threads.pc_eqb a old then 1 else 0)
   = Threads.count_pc a l + (if Threads.pc_eqb a new then 1 else 0))%nat.
Proof.
  unfold Threads.count_pc. revert i.
  induction l as [|x l IH]; intros [|i] Hi; try discriminate; simpl in *.
  - injection Hi as ->.
    destruct (Threads.pc_eqb a old), (Threads.pc_eqb a new); simpl; lia.
  - specialize (IH i Hi). destruct (Threads.pc_eqb a x); simpl; lia.
Qed.

Lemma count_pc_bound (l : list Threads.pc) :
  (Threads.count_pc Threads.Start l + Threads.count_pc Threads.AtBarrier l
   + Threads.count_pc Threads.Destroying l <= length l)%nat.
Proof.
  unfold Threads.count_pc. induction l as [|x l IH]; simpl; [lia|].
  destruct x; simpl; lia.
Qed.

Lemma count_pc_replicate a b n :
  Threads.count_pc a (replicate n b) = if Threads.pc_eqb a b then n else 0%nat.
Proof.
  unfold Threads.count_pc. induction n as [|n IH]; simpl.
  - by destruct (Threads.pc_eqb a b).
  - destruct (Threads.pc_eqb a b); simpl; lia.
Qed.

Lemma count_pc_pos a (l : list Threads.pc) :
  (0 < Threads.count_pc a l)%nat -> exists i, l !! i = Some a.
Proof.
  unfold Threads.count_pc. induction l as [|x l IH]; simpl; [lia|].
  destruct (Threads.pc_eqb a x) eqn:Heq.
  - intros _. exists 0%nat. simpl. destruct a, x; try discriminate; reflexivity.
  - intros Hpos. destruct (IH Hpos) as [i Hi]. by exists (S i).
Qed.

Lemma all_done_counts (l : list Threads.pc) :
  forallb (Threads.pc_eqb Threads.Done) l = true ->
  Threads.count_pc Threads.Start l = 0%nat
  /\ Threads.count_pc Threads.AtBarrier l = 0%nat
  /\ Threads.count_pc Threads.Destroying l = 0%nat.
Proof.
  unfold Threads.count_pc. induction l as [|x l IH]; simpl; [auto|].
  intros H. apply andb_prop in H as [Hx Hl].
  destruct x; try discriminate. simpl. auto.
Qed.

Lemma counts_zero_all_done (l : list Threads.pc) :
  Threads.count_pc Threads.Start l = 0%nat ->
  Threads.count_pc Threads.AtBarrier l = 0%nat ->
  Threads.count_pc Threads.Destroying l = 0%nat ->
  forallb (Threads.pc_eqb Threads.Done) l = true.
Proof.
  unfold Threads.count_pc. induction l as [|x l IH]; simpl; [auto|].
  destruct x; simpl; try discriminate. auto.
Qed.

Lemma tinv_init K : (1 <= K)%nat -> tinv K (Threads.init K).
Proof.
  intros HK. unfold tinv, Threads.init. simpl.
  rewrite !count_pc_replicate. simpl. rewrite length_replicate.
  repeat split; auto.
  destruct K; [lia | reflexivity].
Qed.

Ltac pc_counts Hi new :=
  let HS := fresh "HS" in let HW := fresh "HW" in let HD := fresh "HD" in
  pose proof (count_pc_insert Threads.Start _ _ _ new Hi) as HS;
  pose proof (count_pc_insert Threads.AtBarrier _ _ _ new Hi) as HW;
  pose proof (count_pc_insert Threads.Destroying _ _ _ new Hi) as HD;
  simpl in HS, HW, HD.

Lemma step_tinv K i s s' :
  tinv K s -> Z.of_nat K <= Int.int_max ->
  Threads.step_thread i s = Some s' ->
  tinv K s'
  /\ (remaining s' < remaining s)%nat
  /\ (Threads.t_destroy_calls s <= Threads.t_destroy_calls s')%nat.
Proof.
  intros (Hlen & Huaf & Hcnt & Hbal & Halive) HK Hstep.
  unfold Threads.step_thread in Hstep.
  pose proof (count_pc_bound (Threads.t_pcs s)) as Hbound.
  destruct (Threads.t_pcs s !! i) as [pc|] eqn:Hi; [|discriminate].
  destruct pc.
  - (* the increment of Ref(p) *)
    injection Hstep as <-. pc_counts Hi Threads.AtBarrier.
    unfold tinv, remaining. cbn [Threads.t_pcs Threads.t_count Threads.t_alive
      Threads.t_destroy_calls Threads.t_use_after_free].
    rewrite length_insert.
    destruct (Nat.eqb_spec
      (Threads.count_pc Threads.Start (Threads.t_pcs s)
       + Threads.count_pc Threads.AtBarrier (Threads.t_pcs s)) 0) as [Hz|Hnz]; [lia|].
    assert (Hdc : Threads.t_destroy_calls s = 0%nat) by lia.
    rewrite Hdc in Halive. simpl in Halive.
    split; [|split; [lia | lia]].
    split; [exact Hlen|]. split; [by rewrite Huaf, Halive|]. split.
    { rewrite Hcnt, atomic_incRef_exact by (unfold Int.int_min; lia). lia. }
    split; [|by rewrite Hdc].
    destruct (Nat.eqb_spec
      (Threads.count_pc Threads.Start (<[i:=Threads.AtBarrier]> (Threads.t_pcs s))
       + Threads.count_pc Threads.AtBarrier
           (<[i:=Threads.AtBarrier]> (Threads.t_pcs s))) 0); lia.
  - (* the fetch_sub of ~Ref *)
    destruct (Threads.barrier_open s) eqn:Hopen; [|discriminate].
    unfold Threads.barrier_open in Hopen. apply Nat.eqb_eq in Hopen.
    assert (HWpos : (0 < Threads.count_pc Threads.AtBarrier (Threads.t_pcs s))%nat).
    { pose proof (count_pc_insert Threads.AtBarrier _ _ _ Threads.Done Hi) as H.
      simpl in H. lia. }
    destruct (Nat.eqb_spec
      (Threads.count_pc Threads.Start (Threads.t_pcs s)
       + Threads.count_pc Threads.AtBarrier (Threads.t_pcs s)) 0) as [Hz|Hnz]; [lia|].
    assert (Hdc : Threads.t_destroy_calls s = 0%nat) by lia.
    rewrite Hdc in Halive. simpl in Halive.
    rewrite Hcnt, atomic_decRef_exact in Hstep by (unfold Int.int_min; lia).
    injection Hstep as <-.
    unfold tinv, remaining. cbn [Threads.t_pcs Threads.t_count Threads.t_alive
      Threads.t_destroy_calls Threads.t_use_after_free].
    rewrite length_insert.
    destruct (Z.eqb_spec
      (Z.of_nat (Threads.count_pc Threads.AtBarrier (Threads.t_pcs s)) - 1) 0)
      as [Hlast|Hmore].
    + pc_counts Hi Threads.Destroying.
      split; [|split; [lia | lia]].
      split; [exact Hlen|]. split; [by rewrite Huaf, Halive|].
      split; [lia|]. split; [|by rewrite Hdc].
      destruct (Nat.eqb_spec
        (Threads.count_pc Threads.Start (<[i:=Threads.Destroying]> (Threads.t_pcs s))
         + Threads.count_pc Threads.AtBarrier
             (<[i:=Threads.Destroying]> (Threads.t_pcs s))) 0); lia.
    + pc_counts Hi Threads.Done.
      split; [|split; [lia | lia]].
      split; [exact Hlen|]. split; [by rewrite Huaf, Halive|].
      split; [lia|]. split; [|by rewrite Hdc].
      destruct (Nat.eqb_spec
        (Threads.count_pc Threads.Start (<[i:=Threads.Done]> (Threads.t_pcs s))
         + Threads.count_pc Threads.AtBarrier
             (<[i:=Threads.Done]> (Threads.t_pcs s))) 0); lia.
  - (* the call of destroy() *)
    injection Hstep as <-. pc_counts Hi Threads.Done.
    unfold tinv, remaining. cbn [Threads.t_pcs Threads.t_count Threads.t_alive
      Threads.t_destroy_calls Threads.t_use_after_free].
    rewrite length_insert.
    destruct (Nat.eqb_spec
      (Threads.count_pc Threads.Start (Threads.t_pcs s)
       + Threads.count_pc Threads.AtBarrier (Threads.t_pcs s)) 0) as [Hz|Hnz]; [|lia].
    assert (Hdc : Threads.t_destroy_calls s = 0%nat) by lia.
    rewrite Hdc in Halive. simpl in Halive.
    split; [|split; [lia | lia]].
    split; [exact Hlen|]. split; [by rewrite Huaf, Halive|].
    split; [lia|]. split; [|reflexivity].
    destruct (Nat.eqb_spec
      (Threads.count_pc Threads.Start (<[i:=Threads.Done]> (Threads.t_pcs s))
       + Threads.count_pc Threads.AtBarrier
           (<[i:=Threads.Done]> (Threads.t_pcs s))) 0); lia.
  - discriminate.
Qed.

Lemma not_all_done_pending (l : list Threads.pc) :
  forallb (Threads.pc_eqb Threads.Done) l = false ->
  (0 < Threads.count_pc Threads.Start l + Threads.count_pc Threads.AtBarrier l
       + Threads.count_pc Threads.Destroying l)%nat.
Proof.
  intros Hnd.
  destruct (Nat.eq_dec (Threads.count_pc Threads.Start l) 0%nat) as [HS|]; [|lia].
  destruct (Nat.eq_dec (Threads.count_pc Threads.AtBarrier l) 0%nat) as [HW|]; [|lia].
  destruct (Nat.eq_dec (Threads.count_pc Threads.Destroying l) 0%nat) as [HD|]; [|lia].
  rewrite (counts_zero_all_done l HS HW HD) in Hnd. discriminate.
Qed.

(** No deadlock: while some thread has not finished, some thread can move. *)
Lemma threads_progress K s :
  tinv K s -> Threads.all_done s = false ->
  exists i s', Threads.step_thread i s = Some s'.
Proof.
  intros _ Hnd. unfold Threads.all_done in Hnd.
  apply not_all_done_pending in Hnd.
  destruct (Nat.eq_dec (Threads.count_pc Threads.Start (Threads.t_pcs s)) 0%nat)
    as [HS|HS].
  - destruct (Nat.eq_dec (Threads.count_pc Threads.AtBarrier (Threads.t_pcs s)) 0%nat)
      as [HW|HW].
    + destruct (count_pc_pos Threads.Destroying (Threads.t_pcs s)) as [i Hi]; [lia|].
      exists i. unfold Threads.step_thread. rewrite Hi. eauto.
    + destruct (count_pc_pos Threads.AtBarrier (Threads.t_pcs s)) as [i Hi]; [lia|].
      exists i. unfold Threads.step_thread, Threads.barrier_open.
      rewrite Hi, HS. simpl. destruct (Atomic.decRef (Threads.t_count s)). eauto.
  - destruct (count_pc_pos Threads.Start (Threads.t_pcs s)) as [i Hi]; [lia|].
    exists i. unfold Threads.step_thread. rewrite Hi. eauto.
Qed.

Lemma run_schedule_tinv K sched : forall s s',
  tinv K s -> Z.of_nat K <= Int.int_max ->
  Threads.run_schedule sched s = Some s' -> tinv K s'.
Proof.
  induction sched as [|i sched IH]; intros s s' Hinv HK Hrun; simpl in Hrun.
  - by injection Hrun as <-.
  - destruct (Threads.step_thread i s) as [s1|] eqn:Hstep; [|discriminate].
    destruct (step_tinv K i s s1 Hinv HK Hstep) as (Hinv1 & _).
    eauto.
Qed.

(** Every state can be run to completion. *)
Lemma threads_complete K : forall m s,
  tinv K s -> Z.of_nat K <= Int.int_max -> (remaining s <= m)%nat ->
  exists sched s',
    Threads.run_schedule sched s = Some s' /\ Threads.all_done s' = true.
Proof.
  induction m as [|m IH]; intros s Hinv HK Hm.
  - exists [], s. split; [reflexivity|]. unfold Threads.all_done.
    unfold remaining in Hm. apply counts_zero_all_done; lia.
  - destruct (Threads.all_done s) eqn:Hdone.
    + exists [], s. auto.
    + destruct (threads_progress K s Hinv Hdone) as (i & s1 & Hstep).
      destruct (step_tinv K i s s1 Hinv HK Hstep) as (Hinv1 & Hlt & _).
      destruct (IH s1 Hinv1 HK ltac:(lia)) as (sched & s' & Hrun & Hd).
      exists (i :: sched), s'. simpl. rewrite Hstep. auto.
Qed.

(** C7: in the atomic variant, [K] concurrent owners of one object, each
    taking its reference and, once all have, releasing it, enter
    [destroy()] exactly once in total, whatever the number of threads and
    the interleaving of their steps: under every schedule the count of a
    deleted object is never touched and [destroy()] has been entered at
    most once; when all threads have finished it has been entered exactly
    once; no schedule deadlocks, and a complete execution exists. *)
Theorem concurrent_owners_destroy_once (K : nat) :
  (1 <= K)%nat -> Z.of_nat K <= Int.int_max ->
  (forall sched s,
     Threads.run_schedule sched (Threads.init K) = Some s ->
     (Threads.t_destroy_calls s <= 1)%nat
     /\ Threads.t_use_after_free s = false
     /\ (Threads.all_done s = true ->
         Threads.t_destroy_calls s = 1%nat /\ Threads.t_alive s = false)
     /\ (Threads.all_done s = false ->
         exists i s', Threads.step_thread i s = Some s'))
  /\ exists sched s,
       Threads.run_schedule sched (Threads.init K) = Some s
       /\ Threads.all_done s = true.
Proof.
  intros HK1 HK. pose proof (tinv_init K HK1) as Hinit. split.
  - intros sched s Hrun.
    pose proof (run_schedule_tinv K sched _ _ Hinit HK Hrun) as Hinv.
    pose proof Hinv as (Hlen & Huaf & Hcnt & Hbal & Halive).
    split; [|split; [exact Huaf|split]].
    + destruct (Nat.eqb _ 0) in Hbal; lia.
    + intros Hdone. unfold Threads.all_done in Hdone.
      destruct (all_done_counts _ Hdone) as (HS & HW & HD).
      rewrite HS, HW, HD in Hbal. simpl in Hbal.
      rewrite Halive, Hbal. auto.
    + apply (threads_progress K s Hinv).
  - apply (threads_complete K (remaining (Threads.init K)) _ Hinit HK). lia.
Qed.

Lemma concurrent_owners_destroy_once_witness :
  Threads.run_schedule [2; 0; 1; 1; 2; 0; 0]%nat (Threads.init 3)
    = Some {| Threads.t_count := 0; Threads.t_alive := false;
              Threads.t_destroy_calls := 1; Threads.t_use_after_free := false;
              Threads.t_pcs := [Threads.Done; Threads.Done; Threads.Done] |}
  /\ (Threads.t_destroy_calls
        {| Threads.t_count := 0; Threads.t_alive := false;
           Threads.t_destroy_calls := 1; Threads.t_use_after_free := false;
           Threads.t_pcs := [Threads.Done; Threads.Done; Threads.Done] |} <= 1)%nat.
Proof.
  assert (H1 : (1 <= 3)%nat) by lia.
  assert (H2 : Z.of_nat 3 <= Int.int_max) by (unfold Int.int_max; simpl; lia).
  assert (Hrun : Threads.run_schedule [2; 0; 1; 1; 2; 0; 0]%nat (Threads.init 3)
    = Some {| Threads.t_count := 0; Threads.t_alive := false;
              Threads.t_destroy_calls := 1; Threads.t_use_after_free := false;
              Threads.t_pcs := [Threads.Done; Threads.Done; Threads.Done] |})
    by reflexivity.
  split; [exact Hrun|].
  destruct (concurrent_owners_destroy_once 3 H1 H2) as [Hall _].
  exact (proj1 (Hall _ _ Hrun)).
Defined.

(** * Further properties of the code *)

(** ** The lifetime of a scoped object *)

Lemma teardowns_run p i n :
  teardowns p i (map (EvTeardown p) (rev (seq 0 n)))
  = if (i <? n)%nat then 1%nat else 0%nat.
Proof.
  induction n as [|n IH].
  - reflexivity.
  - rewrite seq_S, rev_app_distr. simpl rev. simpl map.
    change (EvTeardown p n :: map (EvTeardown p) (rev (seq 0 n)))
      with ([EvTeardown p n] ++ map (EvTeardown p) (rev (seq 0 n))).
    rewrite teardowns_app, IH. unfold teardowns at 1. simpl.
    rewrite Nat.eqb_refl. simpl.
    destruct (Nat.eqb_spec n i) as [->|Hne]; simpl.
    + rewrite Nat.ltb_irrefl.
      destruct (Nat.ltb_spec i (S i)); [reflexivity | lia].
    + destruct (Nat.ltb_spec i n), (Nat.ltb_spec i (S n)); try reflexivity; lia.
Qed.

Lemma teardowns_other_events p i q s l :
  teardowns p i (EvIncRef q :: EvDecRef q :: EvDestroy s q :: l) = teardowns p i l.
Proof. reflexivity. Qed.

Lemma scoped_scenario_spec (RC : RefCounter) (st : state) (h : nat)
    (r : alloc_request) :
  rc_initial = 0 -> rc_incRef 0 = Some 1 -> rc_decRef 1 = Some (0, true) ->
  request_shape r = Single \/ rc_run_element = BaseElement ->
  refs st !! h = None -> (0 < request_size r)%nat ->
  scoped_scenario h r st
  = Some (next_addr st,
          {| heap := delete (next_addr st) (heap st);
             next_addr := S (next_addr st);
             refs := refs st;
             log := log st ++ EvIncRef (next_addr st) :: EvDecRef (next_addr st)
                      :: EvDestroy (request_shape r) (next_addr st)
                      :: map (EvTeardown (next_addr st))
                           (rev (seq 0 (request_size r))) |}).
Proof.
  intros Hinit Hinc Hdec Hdef Hh Hsize. destruct r as [|n].
  - unfold scoped_scenario, bind. simpl allocate.
    unfold GCSingleObject.allocate_impl, alloc. cbn beta iota zeta.
    rewrite ctor_raw_spec by exact Hh.
    set (p := next_addr st).
    set (o := GCObj Single [rc_initial]).
    unfold incRef_if.
    erewrite incRef_spec;
      [ | simpl; apply lookup_insert_eq | unfold o; reflexivity
        | rewrite Hinit; exact Hinc ].
    cbn beta iota.
    erewrite dtor_spec;
      [ | simpl; apply lookup_insert_eq
        | simpl; eapply decRef_spec_last;
          [ simpl; apply lookup_insert_eq
          | eapply ref_count_set; unfold o; reflexivity
          | exact Hdec
          | by apply teardown_defined_single ] ].
    unfold ret, with_refs. simpl.
    rewrite (delete_insert_id (refs st)) by exact Hh.
    rewrite !delete_insert_eq.
    rewrite <- app_assoc. reflexivity.
  - destruct n as [|n]; [simpl in Hsize; lia|].
    destruct Hdef as [Hsingle|Hbase]; [discriminate Hsingle|].
    change (scoped_scenario h (NewMulti (S n))) with (array_scenario h (S n)).
    apply array_scenario_spec; assumption.
Qed.

Lemma scoped_scenario_undefined (RC : RefCounter) (st : state) (h : nat)
    (r : alloc_request) :
  rc_initial = 0 -> rc_incRef 0 = Some 1 -> rc_decRef 1 = Some (0, true) ->
  request_shape r = Multi -> rc_run_element = DerivedElement ->
  refs st !! h = None -> (0 < request_size r)%nat ->
  scoped_scenario h r st = None.
Proof.
  intros Hinit Hinc Hdec Hshape Helem Hh Hsize.
  destruct r as [|[|n]]; [discriminate Hshape | simpl in Hsize; lia |].
  change (scoped_scenario h (NewMulti (S n))) with (array_scenario h (S n)).
  apply array_scenario_undefined; assumption.
Qed.

Lemma atomic_counter_of_facts e :
  @rc_initial (atomic_counter_of e) = 0
  /\ @rc_incRef (atomic_counter_of e) 0 = Some 1
  /\ @rc_decRef (atomic_counter_of e) 1 = Some (0, true)
  /\ @rc_run_element (atomic_counter_of e) = e.
Proof. by destruct e. Qed.

Lemma plain_counter_of_facts e :
  @rc_initial (plain_counter_of e) = 0
  /\ @rc_incRef (plain_counter_of e) 0 = Some 1
  /\ @rc_decRef (plain_counter_of e) 1 = Some (0, true)
  /\ @rc_run_element (plain_counter_of e) = e.
Proof. by destruct e. Qed.

(** X1: the block that allocates a managed object of positive size, wraps
    it in one handle and lets the handle go out of scope, for a client
    whose runs have elements of type [e].  For a single object, and for a
    run whose elements are of type [GCMultiObject] itself, the object is
    destroyed once, through the teardown path of the shape it was
    allocated with; each of its elements is torn down exactly once and no
    other; and the store's allocations and variables are as before the
    block.  For a run of elements of a derived class the block has no
    defined behaviour.  Holds in both variants. *)
Theorem scoped_object_fully_released (e : run_element) (st : state) (h : nat)
    (r : alloc_request) :
  refs st !! h = None -> heap st !! next_addr st = None ->
  (0 < request_size r)%nat ->
  (request_shape r = Single \/ e = BaseElement ->
   exists st',
     @scoped_scenario (atomic_counter_of e) h r st = Some (next_addr st, st')
     /\ @scoped_scenario (plain_counter_of e) h r st = Some (next_addr st, st')
     /\ heap st' = heap st /\ refs st' = refs st
     /\ log st' = log st ++ EvIncRef (next_addr st) :: EvDecRef (next_addr st)
                    :: EvDestroy (request_shape r) (next_addr st)
                    :: map (EvTeardown (next_addr st)) (rev (seq 0 (request_size r)))
     /\ destroys (next_addr st) (log st') = S (destroys (next_addr st) (log st))
     /\ forall i, teardowns (next_addr st) i (log st')
                  = (teardowns (next_addr st) i (log st)
                     + if (i <? request_size r)%nat then 1 else 0)%nat)
  /\ (request_shape r = Multi -> e = DerivedElement ->
      @scoped_scenario (atomic_counter_of e) h r st = None
      /\ @scoped_scenario (plain_counter_of e) h r st = None).
Proof.
  intros Hh Hfresh Hsize.
  destruct (atomic_counter_of_facts e) as (Ha1 & Ha2 & Ha3 & Ha4).
  destruct (plain_counter_of_facts e) as (Hp1 & Hp2 & Hp3 & Hp4).
  split.
  - intros Hdef. eexists.
    split; [apply (scoped_scenario_spec (atomic_counter_of e) st h r); auto;
            by rewrite Ha4|].
    split; [apply (scoped_scenario_spec (plain_counter_of e) st h r); auto;
            by rewrite Hp4|].
    cbn [heap refs log].
    split; [by apply delete_id|]. split; [reflexivity|]. split; [reflexivity|].
    split.
    + rewrite destroys_app.
      assert (Hone : destroys (next_addr st)
                (EvIncRef (next_addr st) :: EvDecRef (next_addr st)
                 :: EvDestroy (request_shape r) (next_addr st)
                 :: map (EvTeardown (next_addr st)) (rev (seq 0 (request_size r))))
              = 1%nat).
      { change (destroys (next_addr st)
                ([EvIncRef (next_addr st); EvDecRef (next_addr st);
                  EvDestroy (request_shape r) (next_addr st)]
                 ++ map (EvTeardown (next_addr st)) (rev (seq 0 (request_size r))))
              = 1%nat).
        rewrite destroys_app, destroys_teardown_map. unfold destroys. simpl.
        by rewrite Nat.eqb_refl. }
      rewrite Hone. lia.
    + intros i. rewrite teardowns_app, teardowns_other_events, teardowns_run.
      reflexivity.
  - intros Hshape He. split.
    + apply (scoped_scenario_undefined (atomic_counter_of e) st h r); auto.
      by rewrite Ha4.
    + apply (scoped_scenario_undefined (plain_counter_of e) st h r); auto.
      by rewrite Hp4.
Qed.

Lemma scoped_object_fully_released_witness :
  (exists st',
     @scoped_scenario atomic_counter_derived 0%nat NewSingle empty_state
     = Some (0%nat, st')
     /\ heap st' = ∅ /\ refs st' = ∅
     /\ log st' = [EvIncRef 0%nat; EvDecRef 0%nat; EvDestroy Single 0%nat;
                   EvTeardown 0%nat 0%nat])
  /\ (exists st',
        @scoped_scenario plain_counter 0%nat (NewMulti 2) empty_state
        = Some (0%nat, st')
        /\ heap st' = ∅ /\ refs st' = ∅
        /\ log st' = [EvIncRef 0%nat; EvDecRef 0%nat; EvDestroy Multi 0%nat;
                      EvTeardown 0%nat 1%nat; EvTeardown 0%nat 0%nat])
  /\ @scoped_scenario atomic_counter_derived 0%nat (NewMulti 2) empty_state = None.
Proof.
  assert (Hone : (0 < request_size NewSingle)%nat) by (simpl; lia).
  assert (Htwo : (0 < request_size (NewMulti 2))%nat) by (simpl; lia).
  destruct (scoped_object_fully_released DerivedElement empty_state 0%nat
              NewSingle eq_refl eq_refl Hone) as [Hsingle _].
  destruct (scoped_object_fully_released BaseElement empty_state 0%nat
              (NewMulti 2) eq_refl eq_refl Htwo) as [Hbase _].
  destruct (scoped_object_fully_released DerivedElement empty_state 0%nat
              (NewMulti 2) eq_refl eq_refl Htwo) as [_ Hderived].
  destruct (Hsingle (or_introl eq_refl))
    as (st1 & Hrun1 & _ & Hheap1 & Hrefs1 & Hlog1 & _).
  destruct (Hbase (or_intror eq_refl))
    as (st2 & _ & Hrun2 & Hheap2 & Hrefs2 & Hlog2 & _).
  destruct (Hderived eq_refl eq_refl) as [Hnone _].
  split; [exists st1; auto|]. split; [exists st2; auto|]. exact Hnone.
Defined.

(** X2: a run of zero elements can be allocated, but it has no element to
    carry a count: wrapping the pointer in a new handle, and either count
    operation on it, has no defined behaviour.  Both variants. *)
Theorem empty_run_cannot_be_owned (RC : RefCounter) (st : state) (h : nat) :
  refs st !! h = None ->
  wrap_empty_run h st = None
  /\ exists st1,
       allocate (NewMulti 0) st = Some (next_addr st, st1)
       /\ heap st1 !! next_addr st = Some (GCObj Multi [])
       /\ Ref.ctor_raw h (Some (next_addr st)) st1 = None
       /\ incRef (next_addr st) st1 = None
       /\ decRef (next_addr st) st1 = None.
Proof.
  intros Hh.
  assert (Hraw : forall st1 : state,
            refs st1 = refs st ->
            heap st1 !! next_addr st = Some (GCObj Multi []) ->
            Ref.ctor_raw h (Some (next_addr st)) st1 = None).
  { intros st1 Hrefs Hobj. rewrite ctor_raw_spec by (by rewrite Hrefs).
    simpl. unfold incRef, bind, load_obj, lift. simpl. by rewrite Hobj. }
  split.
  - unfold wrap_empty_run, bind. simpl allocate.
    unfold GCMultiObject.allocate_impl, alloc. cbn beta iota zeta.
    apply Hraw; [reflexivity | simpl; apply lookup_insert_eq].
  - eexists. split; [reflexivity|]. simpl.
    split; [apply lookup_insert_eq|].
    split; [apply Hraw; [reflexivity | simpl; apply lookup_insert_eq]|].
    unfold incRef, decRef, bind, load_obj, lift. simpl.
    by rewrite lookup_insert_eq.
Qed.

Lemma empty_run_cannot_be_owned_witness :
  @wrap_empty_run atomic_counter 0%nat empty_state = None
  /\ @wrap_empty_run plain_counter 0%nat empty_state = None.
Proof.
  split.
  - exact (proj1 (empty_run_cannot_be_owned atomic_counter empty_state 0%nat eq_refl)).
  - exact (proj1 (empty_run_cannot_be_owned plain_counter empty_state 0%nat eq_refl)).
Defined.

(** ** Exchanging and duplicating handles *)

Lemma run_cons (RC : RefCounter) o ops st :
  run (o :: ops) st
  = match step o st with
    | Some (_, s) => run ops s
    | None => None
    end.
Proof. reflexivity. Qed.

Lemma run_nil (RC : RefCounter) st : run [] st = Some (tt, st).
Proof. reflexivity. Qed.

Lemma step_copy_assign_spec (RC : RefCounter) d h dv v st st1 :
  d <> h -> refs st !! d = Some dv -> refs st !! h = Some v ->
  decRef_if dv st = Some (tt, st1) ->
  step (OpCopyAssign d h) st
  = incRef_if v (with_refs st1 (<[d := v]> (refs st))).
Proof.
  intros Hne Hd Hh Hdec. cbn [step]. unfold in_scope.
  unfold bind at 1 2 3 4. unfold get_ptr, ret. rewrite Hd. cbn beta iota.
  rewrite Hh. cbn beta iota. by apply assign_copy_spec with dv.
Qed.

Lemma step_move_assign_spec (RC : RefCounter) d h dv v st st1 :
  d <> h -> refs st !! d = Some dv -> refs st !! h = Some v ->
  decRef_if dv st = Some (tt, st1) ->
  step (OpMoveAssign d h) st
  = Some (tt, with_refs st1 (<[h := None]> (<[d := v]> (refs st)))).
Proof.
  intros Hne Hd Hh Hdec. cbn [step]. unfold in_scope.
  unfold bind at 1 2 3 4. unfold get_ptr, ret. rewrite Hd. cbn beta iota.
  rewrite Hh. cbn beta iota. by apply assign_move_spec with dv.
Qed.

(** X3: exchanging two distinct handles by three moves through a temporary
    (the body of [std::swap]) performs no count operation: the two
    variables trade their pointers, the temporary is gone, and the
    allocations and the trace are untouched, whatever the handles hold.
    Both variants. *)
Theorem swap_by_moves_counts_nothing (RC : RefCounter) (st : state)
    (a b t : nat) (va vb : option nat) :
  a <> b -> refs st !! a = Some va -> refs st !! b = Some vb ->
  refs st !! t = None ->
  run (swap_program a b t) st
  = Some (tt, with_refs st (<[b := va]> (<[a := vb]> (refs st)))).
Proof.
  intros Hab Ha Hb Ht.
  assert (Hta : t <> a) by congruence. assert (Htb : t <> b) by congruence.
  unfold swap_program.
  rewrite run_cons. cbn [step]. rewrite (ctor_move_spec t a va st Ha Ht).
  set (r1 := <[a := None]> (<[t := va]> (refs st))).
  assert (H1a : r1 !! a = Some None) by (unfold r1; apply lookup_insert_eq).
  assert (H1b : r1 !! b = Some vb).
  { unfold r1. by rewrite !lookup_insert_ne by done. }
  rewrite run_cons.
  rewrite (step_move_assign_spec RC a b None vb (with_refs st r1) (with_refs st r1))
    by (auto; reflexivity).
  change (refs (with_refs st r1)) with r1.
  set (r2 := <[b := None]> (<[a := vb]> r1)).
  change (with_refs (with_refs st r1) r2) with (with_refs st r2).
  assert (H2b : r2 !! b = Some None) by (unfold r2; apply lookup_insert_eq).
  assert (H2t : r2 !! t = Some va).
  { unfold r2, r1. rewrite !lookup_insert_ne by done. apply lookup_insert_eq. }
  rewrite run_cons.
  rewrite (step_move_assign_spec RC b t None va (with_refs st r2) (with_refs st r2))
    by (auto; reflexivity).
  change (refs (with_refs st r2)) with r2.
  set (r3 := <[t := None]> (<[b := va]> r2)).
  change (with_refs (with_refs st r2) r3) with (with_refs st r3).
  rewrite run_cons. cbn [step].
  rewrite (dtor_spec t None (with_refs st r3) (with_refs st r3))
    by (try reflexivity; unfold r3; apply lookup_insert_eq).
  rewrite run_nil.
  change (refs (with_refs st r3)) with r3.
  change (with_refs (with_refs st r3) (delete t r3))
    with (with_refs st (delete t r3)).
  do 3 f_equal.
  apply map_eq. intros x. unfold r3, r2, r1.
  destruct (decide (x = t)) as [->|Hxt].
  { rewrite lookup_delete_eq, !lookup_insert_ne by done. by rewrite Ht. }
  rewrite lookup_delete_ne, (lookup_insert_ne _ t) by done.
  destruct (decide (x = b)) as [->|Hxb].
  { by rewrite !lookup_insert_eq. }
  rewrite !(lookup_insert_ne _ b) by done.
  destruct (decide (x = a)) as [->|Hxa].
  { by rewrite !lookup_insert_eq. }
  by rewrite !lookup_insert_ne by done.
Qed.

Lemma swap_by_moves_counts_nothing_witness :
  @run atomic_counter (swap_program 0 1 2)%nat sample_two_objects
  = Some (tt, with_refs sample_two_objects
                (<[1%nat := Some 7%nat]> (<[0%nat := Some 9%nat]>
                   (refs sample_two_objects)))).
Proof.
  apply (swap_by_moves_counts_nothing atomic_counter sample_two_objects
           0%nat 1%nat 2%nat (Some 7%nat) (Some 9%nat)).
  - discriminate.
  - reflexivity.
  - reflexivity.
  - reflexivity.
Defined.

Lemma set_ref_count_twice o c c' :
  set_ref_count (set_ref_count o c) c' = set_ref_count o c'.
Proof.
  unfold set_ref_count. simpl. f_equal.
  destruct (obj_counts o); reflexivity.
Qed.

Lemma set_ref_count_same o c : ref_count o = Some c -> set_ref_count o c = o.
Proof.
  unfold ref_count, set_ref_count. intros Hc. destruct o as [s l]. simpl in *.
  f_equal. by apply list_insert_id.
Qed.

Lemma temporary_copy_spec (RC : RefCounter) st h d p o c :
  refs st !! h = Some (Some p) -> refs st !! d = None ->
  heap st !! p = Some o -> ref_count o = Some c ->
  rc_incRef c = Some (c + 1) -> rc_decRef (c + 1) = Some (c, false) ->
  run (temporary_copy d h) st
  = Some (tt, with_log st (log st ++ [EvIncRef p; EvDecRef p])).
Proof.
  intros Hh Hd Hp Hc Hinc Hdec. unfold temporary_copy.
  rewrite run_cons. cbn [step].
  rewrite (ctor_copy_spec d h (Some p) st Hh Hd). simpl incRef_if.
  rewrite incRef_with_refs, (incRef_spec p o c (c + 1) st Hp Hc Hinc).
  rewrite run_cons. cbn [step].
  erewrite dtor_spec;
    [ | simpl; apply lookup_insert_eq
      | simpl; eapply decRef_spec_keep;
        [ simpl; apply lookup_insert_eq
        | eapply ref_count_set; exact Hc
        | exact Hdec ] ].
  rewrite run_nil. unfold with_refs, with_log. simpl.
  rewrite insert_insert_eq, set_ref_count_twice, (set_ref_count_same o c Hc).
  rewrite (insert_id (heap st) p o Hp).
  rewrite (delete_insert_id (refs st)) by exact Hd.
  by rewrite <- app_assoc.
Qed.

(** X4: a temporary copy of a handle that holds [p] leaves the store as it
    found it: when the copy goes out of scope the count of [p] is back at
    its value, nothing is destroyed, the variables are the same, and the
    trace has gained one increment and one decrement.  This needs the
    count to be at least 1 (as it is whenever a handle holds [p]) and below
    the maximum of [int].  Both variants. *)
Theorem temporary_copy_restores_store (st : state) (h d : nat) (p : ptr) (c : Z) :
  refs st !! h = Some (Some p) -> refs st !! d = None ->
  count_of st p = Some c -> 1 <= c < Int.int_max ->
  exists st',
    @run atomic_counter (temporary_copy d h) st = Some (tt, st')
    /\ @run plain_counter (temporary_copy d h) st = Some (tt, st')
    /\ heap st' = heap st /\ refs st' = refs st
    /\ next_addr st' = next_addr st
    /\ log st' = log st ++ [EvIncRef p; EvDecRef p].
Proof.
  intros Hh Hd Hc Hr.
  destruct (count_of_some _ _ _ Hc) as (o & Ho & Hco).
  exists (with_log st (log st ++ [EvIncRef p; EvDecRef p])).
  assert (Hnz : (c =? 0) = false) by (apply Z.eqb_neq; lia).
  split; [|split].
  - apply (temporary_copy_spec atomic_counter st h d p o c); auto.
    + simpl. rewrite atomic_incRef_exact; [reflexivity|].
      unfold Int.int_min. lia.
    + simpl. rewrite atomic_decRef_exact by (unfold Int.int_min; lia).
      replace (c + 1 - 1) with c by lia. by rewrite Hnz.
  - apply (temporary_copy_spec plain_counter st h d p o c); auto.
    + simpl. unfold Plain.incRef, Plain.pre_increment.
      destruct (Z.ltb_spec c Int.int_max); [reflexivity | lia].
    + simpl. unfold Plain.decRef, Plain.pre_decrement.
      destruct (Z.ltb_spec Int.int_min (c + 1));
        [|unfold Int.int_min in *; lia].
      replace (c + 1 - 1) with c by lia. by rewrite Hnz.
  - repeat split; reflexivity.
Qed.

Lemma temporary_copy_restores_store_witness :
  exists st',
    @run atomic_counter (temporary_copy 1 0)%nat sample_held = Some (tt, st')
    /\ @run plain_counter (temporary_copy 1 0)%nat sample_held = Some (tt, st')
    /\ heap st' = heap sample_held /\ refs st' = refs sample_held
    /\ next_addr st' = next_addr sample_held
    /\ log st' = log sample_held ++ [EvIncRef 7%nat; EvDecRef 7%nat].
Proof.
  apply (temporary_copy_restores_store sample_held 0%nat 1%nat 7%nat 1).
  - reflexivity.
  - reflexivity.
  - reflexivity.
  - unfold Int.int_max. lia.
Defined.

(** ** The count at the limits of [int] *)

(** X5: on every [int] value the atomic operations are defined, keep the
    count inside [int] and undo each other; they leave the unbounded
    arithmetic only by wrapping from the maximum to the minimum (increment)
    and from the minimum to the maximum (decrement, without a call of
    [destroy()]), which are exactly the two values where the plain
    operations have no defined result. *)
Theorem count_operations_at_the_limits (c : Z) :
  Int.in_range c ->
  Int.in_range (Atomic.incRef c)
  /\ Int.in_range (fst (Atomic.decRef c))
  /\ Atomic.incRef c = (if c =? Int.int_max then Int.int_min else c + 1)
  /\ Atomic.decRef c = (if c =? Int.int_min then Int.int_max else c - 1, c =? 1)
  /\ (Plain.incRef c = None <-> c = Int.int_max)
  /\ (Plain.decRef c = None <-> c = Int.int_min)
  /\ fst (Atomic.decRef (Atomic.incRef c)) = c
  /\ Atomic.incRef (fst (Atomic.decRef c)) = c.
Proof.
  intros Hc.
  assert (Hinc : Atomic.incRef c = (if c =? Int.int_max then Int.int_min else c + 1)).
  { destruct (Z.eqb_spec c Int.int_max) as [->|Hne]; [reflexivity|].
    apply atomic_incRef_exact. unfold Int.in_range in Hc. lia. }
  assert (Hdec : Atomic.decRef c
                 = (if c =? Int.int_min then Int.int_max else c - 1, c =? 1)).
  { destruct (Z.eqb_spec c Int.int_min) as [->|Hne]; [reflexivity|].
    rewrite atomic_decRef_exact by (unfold Int.in_range in Hc; lia).
    f_equal. destruct (Z.eqb_spec (c - 1) 0), (Z.eqb_spec c 1); auto; lia. }
  split; [apply wrap_range|]. split; [apply wrap_range|].
  split; [exact Hinc|]. split; [exact Hdec|].
  split; [|split; [|split]].
  - unfold Plain.incRef, Plain.pre_increment.
    destruct (Z.ltb_spec c Int.int_max); split; intros H';
      try discriminate H'; try reflexivity; unfold Int.in_range in Hc; lia.
  - unfold Plain.decRef, Plain.pre_decrement.
    destruct (Z.ltb_spec Int.int_min c); split; intros H';
      try discriminate H'; try reflexivity; unfold Int.in_range in Hc; lia.
  - rewrite Hinc. destruct (Z.eqb_spec c Int.int_max) as [->|Hne]; [reflexivity|].
    rewrite atomic_decRef_exact by (unfold Int.in_range in Hc; lia).
    simpl. lia.
  - rewrite Hdec. simpl.
    destruct (Z.eqb_spec c Int.int_min) as [->|Hne]; [reflexivity|].
    rewrite atomic_incRef_exact by (unfold Int.in_range in Hc; lia). lia.
Qed.

Lemma count_operations_at_the_limits_witness :
  Atomic.incRef Int.int_max = Int.int_min
  /\ Plain.incRef Int.int_max = None
  /\ fst (Atomic.decRef (Atomic.incRef Int.int_max)) = Int.int_max.
Proof.
  assert (Hr : Int.in_range Int.int_max)
    by (unfold Int.in_range, Int.int_min, Int.int_max; lia).
  destruct (count_operations_at_the_limits Int.int_max Hr)
    as (_ & _ & Hinc & _ & Hplain & _ & Hround & _).
  split; [exact Hinc|]. split; [by apply Hplain | exact Hround].
Defined.

(** ** The thread that destroys *)

Lemma count_pc_zero_lookup a (l : list Threads.pc) j pc :
  Threads.count_pc a l = 0%nat -> l !! j = Some pc -> pc <> a.
Proof.
  unfold Threads.count_pc. revert j.
  induction l as [|x l IH]; intros [|j] Hz Hj; try discriminate; simpl in *.
  - injection Hj as ->. intros ->.
    assert (Haa : Threads.pc_eqb a a = true) by (by destruct a).
    rewrite Haa in Hz. discriminate.
  - destruct (Threads.pc_eqb a x); [discriminate|]. eauto.
Qed.

(** X6: under every schedule, a thread is about to enter [destroy()] only
    when every other thread has finished its decrement, and once
    [destroy()] has been entered every thread has finished: no thread can
    still reach the count of the object being destroyed. *)
Theorem destroying_thread_is_last (K : nat) (sched : list nat) (s : Threads.tstate) :
  (1 <= K)%nat -> Z.of_nat K <= Int.int_max ->
  Threads.run_schedule sched (Threads.init K) = Some s ->
  (forall i, Threads.t_pcs s !! i = Some Threads.Destroying ->
     Threads.t_alive s = true /\ Threads.t_destroy_calls s = 0%nat
     /\ forall j pc, j <> i -> Threads.t_pcs s !! j = Some pc -> pc = Threads.Done)
  /\ (Threads.t_alive s = false ->
      Threads.t_destroy_calls s = 1%nat
      /\ forall j pc, Threads.t_pcs s !! j = Some pc -> pc = Threads.Done).
Proof.
  intros HK1 HK Hrun.
  pose proof (run_schedule_tinv K sched _ _ (tinv_init K HK1) HK Hrun) as Hinv.
  unfold tinv in Hinv. cbv zeta in Hinv.
  destruct Hinv as (Hlen & Huaf & Hcnt & Hbal & Halive).
  split.
  - intros i Hi.
    pose proof (count_pc_insert Threads.Start _ _ _ Threads.Done Hi) as HS.
    pose proof (count_pc_insert Threads.AtBarrier _ _ _ Threads.Done Hi) as HW.
    pose proof (count_pc_insert Threads.Destroying _ _ _ Threads.Done Hi) as HD.
    simpl in HS, HW, HD.
    destruct (Nat.eqb_spec
      (Threads.count_pc Threads.Start (Threads.t_pcs s)
       + Threads.count_pc Threads.AtBarrier (Threads.t_pcs s)) 0) as [Hz|Hnz]; [|lia].
    assert (Hdc : Threads.t_destroy_calls s = 0%nat) by lia.
    split; [by rewrite Halive, Hdc|]. split; [exact Hdc|].
    intros j pc Hji Hj.
    assert (Hj' : <[i := Threads.Done]> (Threads.t_pcs s) !! j = Some pc)
      by (by rewrite list_lookup_insert_ne).
    pose proof (count_pc_zero_lookup Threads.Start
                  (<[i := Threads.Done]> (Threads.t_pcs s)) j pc ltac:(lia) Hj').
    pose proof (count_pc_zero_lookup Threads.AtBarrier
                  (<[i := Threads.Done]> (Threads.t_pcs s)) j pc ltac:(lia) Hj').
    pose proof (count_pc_zero_lookup Threads.Destroying
                  (<[i := Threads.Done]> (Threads.t_pcs s)) j pc ltac:(lia) Hj').
    by destruct pc.
  - intros Hdead. rewrite Hdead in Halive. symmetry in Halive.
    apply Nat.eqb_neq in Halive.
    destruct (Nat.eqb_spec
      (Threads.count_pc Threads.Start (Threads.t_pcs s)
       + Threads.count_pc Threads.AtBarrier (Threads.t_pcs s)) 0) as [Hz|Hnz]; [|lia].
    split; [lia|].
    intros j pc Hj.
    pose proof (count_pc_zero_lookup Threads.Start (Threads.t_pcs s) j pc
                  ltac:(lia) Hj).
    pose proof (count_pc_zero_lookup Threads.AtBarrier (Threads.t_pcs s) j pc
                  ltac:(lia) Hj).
    pose proof (count_pc_zero_lookup Threads.Destroying (Threads.t_pcs s) j pc
                  ltac:(lia) Hj).
    by destruct pc.
Qed.

Lemma destroying_thread_is_last_witness :
  exists s,
    Threads.run_schedule [0; 1; 2; 0; 1; 2]%nat (Threads.init 3) = Some s
    /\ Threads.t_pcs s !! 2%nat = Some Threads.Destroying
    /\ Threads.t_alive s = true /\ Threads.t_destroy_calls s = 0%nat.
Proof.
  assert (H1 : (1 <= 3)%nat) by lia.
  assert (H2 : Z.of_nat 3 <= Int.int_max) by (unfold Int.int_max; simpl; lia).
  eexists. split; [reflexivity|]. split; [reflexivity|].
  destruct (destroying_thread_is_last 3 [0; 1; 2; 0; 1; 2]%nat _ H1 H2 eq_refl)
    as [Hlast _].
  destruct (Hlast 2%nat eq_refl) as (Halive & Hcalls & _).
  split; [exact Halive | exact Hcalls].
Defined.

(** ** What handle statements leave alone *)

Lemma same_layout_refl o : same_layout o o.
Proof. repeat split. Qed.

Lemma same_layout_trans o1 o2 o3 :
  same_layout o1 o2 -> same_layout o2 o3 -> same_layout o1 o3.
Proof.
  intros (Hs & Hl & Hc) (Hs' & Hl' & Hc'). repeat split; try congruence.
  intros i Hi. rewrite Hc', Hc by done. reflexivity.
Qed.

Lemma same_layout_set_ref_count o c : same_layout o (set_ref_count o c).
Proof.
  unfold same_layout, set_ref_count. simpl. split; [reflexivity|].
  split; [apply length_insert|].
  intros i Hi. apply list_lookup_insert_ne. lia.
Qed.

Section Layout.
Context {RC : RefCounter}.

Lemma grows_from_refl st : grows_from st st.
Proof.
  split; [reflexivity|]. split.
  - intros q o' Hq. exists o'. split; [exact Hq | apply same_layout_refl].
  - exists []. by rewrite app_nil_r.
Qed.

Lemma grows_from_trans st1 st2 st3 :
  grows_from st1 st2 -> grows_from st2 st3 -> grows_from st1 st3.
Proof.
  intros (Hn & Hh & l & Hl) (Hn' & Hh' & l' & Hl').
  split; [congruence|]. split.
  - intros q o3 Hq. destruct (Hh' q o3 Hq) as (o2 & Hq2 & Hlay2).
    destruct (Hh q o2 Hq2) as (o1 & Hq1 & Hlay1).
    exists o1. split; [exact Hq1 | by eapply same_layout_trans].
  - exists (l ++ l'). by rewrite Hl', Hl, app_assoc.
Qed.

Lemma incRef_grows p st st1 :
  incRef p st = Some (tt, st1) -> grows_from st st1.
Proof.
  unfold incRef, bind, load_obj, lift, store_obj, emit.
  destruct (heap st !! p) as [o|] eqn:Hp; [|discriminate].
  destruct (ref_count o) as [c|]; [|discriminate].
  destruct (rc_incRef c) as [c'|]; [|discriminate].
  intros [= <-]. split; [reflexivity|]. split; [|eexists; reflexivity].
  intros q o' Hq. simpl in Hq. destruct (decide (p = q)) as [<-|Hne].
  - rewrite lookup_insert_eq in Hq. injection Hq as <-.
    exists o. split; [exact Hp | apply same_layout_set_ref_count].
  - rewrite lookup_insert_ne in Hq by done.
    exists o'. split; [exact Hq | apply same_layout_refl].
Qed.

Lemma decRef_grows p st st1 :
  decRef p st = Some (tt, st1) -> grows_from st st1.
Proof.
  unfold decRef, bind, load_obj, lift, store_obj, emit, ret.
  destruct (heap st !! p) as [o|] eqn:Hp; [|discriminate].
  destruct (ref_count o) as [c|]; [|discriminate].
  destruct (rc_decRef c) as [[c' last]|]; [|discriminate].
  destruct last.
  - destruct (teardown_defined (set_ref_count o c')) eqn:Htd;
      [ erewrite destroy_spec; [| simpl; apply lookup_insert_eq | exact Htd]
      | erewrite destroy_undefined; [| simpl; apply lookup_insert_eq | exact Htd];
        discriminate ].
    intros [= <-]. split; [reflexivity|]. split.
    + intros q o' Hq. simpl in Hq. rewrite delete_insert_eq in Hq.
      destruct (decide (p = q)) as [<-|Hne].
      * by rewrite lookup_delete_eq in Hq.
      * rewrite lookup_delete_ne in Hq by done.
        exists o'. split; [exact Hq | apply same_layout_refl].
    + simpl. rewrite <- app_assoc. eexists; reflexivity.
  - intros [= <-]. split; [reflexivity|]. split; [|eexists; reflexivity].
    intros q o' Hq. simpl in Hq. destruct (decide (p = q)) as [<-|Hne].
    + rewrite lookup_insert_eq in Hq. injection Hq as <-.
      exists o. split; [exact Hp | apply same_layout_set_ref_count].
    + rewrite lookup_insert_ne in Hq by done.
      exists o'. split; [exact Hq | apply same_layout_refl].
Qed.

Lemma step_grows o st st' :
  step o st = Some (tt, st') -> grows_from st st'.
Proof.
  intros Hstep.
  destruct (step_normal_form RC o st st' Hstep)
    as [[-> _] | (dv & v & rs & Hrun & _)]; [apply grows_from_refl|].
  unfold release_then_acquire, bind in Hrun.
  destruct (decRef_if dv st) as [[[] st1]|] eqn:Hdec; [|discriminate].
  assert (H1 : grows_from st st1).
  { destruct dv as [t|]; simpl in Hdec.
    - by apply decRef_grows in Hdec.
    - injection Hdec as <-. apply grows_from_refl. }
  assert (H2 : grows_from (with_refs st1 rs) st').
  { destruct v as [t|]; simpl in Hrun.
    - by apply incRef_grows in Hrun.
    - injection Hrun as <-. apply grows_from_refl. }
  eapply grows_from_trans; [exact H1|]. exact H2.
Qed.

Lemma run_grows ops : forall st st',
  run ops st = Some (tt, st') -> grows_from st st'.
Proof.
  induction ops as [|o ops IH]; intros st st' Hrun.
  - injection Hrun as <-. apply grows_from_refl.
  - rewrite run_cons in Hrun.
    destruct (step o st) as [[[] s]|] eqn:Hstep; [|discriminate].
    eapply grows_from_trans; [exact (step_grows o st s Hstep) | by apply IH].
Qed.

End Layout.

(** X7: a program of handle statements never allocates, never brings a
    released object back, and never changes an object's shape, its number
    of elements or the counts of its elements other than the first; it
    only extends the trace.  Both variants. *)
Theorem handle_programs_preserve_layout (RC : RefCounter)
    (ops : list op) (st st' : state) :
  run ops st = Some (tt, st') ->
  next_addr st' = next_addr st
  /\ (forall q o', heap st' !! q = Some o' ->
        exists o, heap st !! q = Some o /\ same_layout o o')
  /\ (forall q, heap st !! q = None -> heap st' !! q = None)
  /\ exists l, log st' = log st ++ l.
Proof.
  intros Hrun. destruct (run_grows ops st st' Hrun) as (Hn & Hh & Hl).
  split; [exact Hn|]. split; [exact Hh|]. split; [|exact Hl].
  intros q Hq. destruct (heap st' !! q) as [o'|] eqn:Hq'; [|reflexivity].
  destruct (Hh q o' Hq') as (o & Ho & _). congruence.
Qed.

Lemma handle_programs_preserve_layout_witness :
  exists st',
    @run atomic_counter [OpCopy 4 2; OpScopeExit 0; OpMoveAssign 3 4]%nat
       sample_shared = Some (tt, st')
    /\ next_addr st' = next_addr sample_shared
    /\ forall q o', heap st' !! q = Some o' ->
         exists o, heap sample_shared !! q = Some o /\ same_layout o o'.
Proof.
  destruct (@run atomic_counter [OpCopy 4 2; OpScopeExit 0; OpMoveAssign 3 4]%nat
              sample_shared) as [[[] st']|] eqn:Hrun;
    [|vm_compute in Hrun; discriminate Hrun].
  exists st'. split; [reflexivity|].
  destruct (handle_programs_preserve_layout atomic_counter _ _ _ Hrun)
    as (Hn & Hh & _).
  split; [exact Hn | exact Hh].
Defined.

(** ** Consistency of counts and handles, for any number of objects *)

Lemma holdsZ_Some p q : holdsZ p (Some q) = if decide (q = p) then 1 else 0.
Proof.
  unfold holdsZ. simpl. destruct (Nat.eqb_spec q p), (decide (q = p)); congruence.
Qed.

Lemma holdsZ_range p v : 0 <= holdsZ p v <= 1.
Proof. unfold holdsZ. destruct (holds p v); lia. Qed.

Lemma incRef_needs_count (RC : RefCounter) t st :
  count_of st t = None -> incRef t st = None.
Proof.
  unfold count_of, incRef, bind, load_obj, lift.
  destruct (heap st !! t) as [o|]; [|reflexivity]. by intros ->.
Qed.

Lemma atomic_decRef_effect t c st :
  count_of st t = Some c -> Int.int_min < c <= Int.int_max ->
  exists st1,
    @decRef atomic_counter t st = Some (tt, st1)
    /\ refs st1 = refs st
    /\ count_of st1 t = (if c =? 1 then None else Some (c - 1))
    /\ forall q, q <> t -> count_of st1 q = count_of st q.
Proof.
  intros Hc Hr. destruct (atomic_decRef_defined t c st Hc Hr) as (o & Ho & Hco & ->).
  eexists. split; [reflexivity|].
  destruct (c =? 1); cbn [refs].
  - split; [reflexivity|]. split.
    + unfold count_of. simpl. by rewrite lookup_delete_eq.
    + intros q Hq. unfold count_of. simpl. by rewrite lookup_delete_ne.
  - split; [reflexivity|]. split.
    + by eapply count_of_insert_eq.
    + intros q Hq. unfold count_of. simpl. by rewrite lookup_insert_ne.
Qed.

Lemma atomic_incRef_effect t c st :
  count_of st t = Some c -> Int.int_min <= c < Int.int_max ->
  exists st1,
    @incRef atomic_counter t st = Some (tt, st1)
    /\ refs st1 = refs st
    /\ count_of st1 t = Some (c + 1)
    /\ forall q, q <> t -> count_of st1 q = count_of st q.
Proof.
  intros Hc Hr. destruct (atomic_incRef_defined t c st Hc Hr) as (o & Ho & Hco & ->).
  eexists. split; [reflexivity|]. split; [reflexivity|]. split.
  - by eapply count_of_insert_eq.
  - intros q Hq. unfold count_of. simpl. by rewrite lookup_insert_ne.
Qed.

(** A handle that holds [t] in a consistent store proves that [t] has a
    count of at least 1. *)
Lemma consistent_held st h t :
  consistent st -> refs st !! h = Some (Some t) ->
  exists c, count_of st t = Some c
            /\ c = Z.of_nat (holders t (refs st)) /\ 1 <= c.
Proof.
  intros Hcons Hh. specialize (Hcons t). unfold counted in Hcons.
  pose proof (holdersZ_lookup t h (Some t) (refs st) Hh) as Hhold.
  unfold holdsZ in Hhold. rewrite holds_self in Hhold.
  destruct (count_of st t) as [c|]; [|lia].
  exists c. split; [reflexivity|]. lia.
Qed.

(** The three stages of a statement, on the counts of all objects. *)
Lemma release_acquire_counts dv v rs st st' n :
  consistent st -> counts_below n st -> n < Int.int_max ->
  (dv = None \/ exists d, refs st !! d = Some dv) ->
  (forall q, Z.of_nat (holders q rs)
             = Z.of_nat (holders q (refs st)) - holdsZ q dv + holdsZ q v) ->
  @release_then_acquire atomic_counter dv v rs st = Some (tt, st') ->
  refs st' = rs
  /\ (forall t, v = Some t -> is_Some (count_of st' t))
  /\ forall q,
       count_of st' q
       = match count_of st q with
         | Some c =>
             if decide (c - holdsZ q dv = 0 /\ dv = Some q) then None
             else Some (c - holdsZ q dv + holdsZ q v)
         | None => None
         end.
Proof.
  intros Hcons Hbelow Hn Hdv Hrs Hrun.
  unfold release_then_acquire, bind in Hrun.
  (* the release *)
  assert (Hrel : exists st1,
    @decRef_if atomic_counter dv st = Some (tt, st1) /\ refs st1 = refs st
    /\ forall q, count_of st1 q
         = match count_of st q with
           | Some c => if decide (c - holdsZ q dv = 0 /\ dv = Some q) then None
                       else Some (c - holdsZ q dv)
           | None => None
           end).
  { destruct dv as [t|].
    - destruct Hdv as [|[d Hd]]; [done|].
      destruct (consistent_held st d t Hcons Hd) as (c & Hc & _ & Hc1).
      pose proof (Hbelow t c Hc) as Hcn.
      destruct (atomic_decRef_effect t c st Hc ltac:(unfold Int.int_min; lia))
        as (st1 & Hdec & Hrefs & Ht & Hother).
      exists st1. split; [exact Hdec|]. split; [exact Hrefs|].
      intros q. rewrite holdsZ_Some. destruct (decide (t = q)) as [<-|Hne].
      + rewrite Ht, Hc. destruct (Z.eqb_spec c 1) as [->|Hc1'].
        * by rewrite decide_True.
        * rewrite decide_False by (intros [? _]; lia). reflexivity.
      + rewrite Hother by done. destruct (count_of st q) as [cq|]; [|reflexivity].
        rewrite decide_False by (intros [_ ?]; congruence).
        f_equal. lia.
    - exists st. split; [reflexivity|]. split; [reflexivity|].
      intros q. rewrite holdsZ_None. destruct (count_of st q) as [cq|]; [|reflexivity].
      rewrite decide_False by (intros [_ ?]; congruence). f_equal. lia. }
  destruct Hrel as (st1 & Hdec & Hrefs1 & Hcnt1).
  rewrite Hdec in Hrun.
  (* the acquisition *)
  destruct v as [t|].
  - simpl in Hrun. rewrite incRef_with_refs in Hrun.
    destruct (count_of st1 t) as [c1|] eqn:Hc1.
    2:{ by rewrite (incRef_needs_count atomic_counter t st1 Hc1) in Hrun. }
    assert (Hr1 : Int.int_min <= c1 < Int.int_max).
    { pose proof (Hcnt1 t) as Ht. rewrite Hc1 in Ht.
      destruct (count_of st t) as [c|] eqn:Hc; [|discriminate].
      pose proof (Hbelow t c Hc). pose proof (holdsZ_range t dv).
      pose proof (Hcons t) as Hct. unfold counted in Hct. rewrite Hc in Hct.
      destruct (decide _) in Ht; [discriminate|]. injection Ht as ->.
      unfold Int.int_min. lia. }
    destruct (atomic_incRef_effect t c1 st1 Hc1 Hr1)
      as (st2 & Hinc & Hrefs2 & Ht2 & Hother2).
    rewrite Hinc in Hrun. injection Hrun as <-. split; [reflexivity|].
    split.
    { intros t' [= <-]. change (count_of (with_refs st2 rs) t) with (count_of st2 t).
      rewrite Ht2. eauto. }
    intros q. change (count_of (with_refs st2 rs) q) with (count_of st2 q).
    rewrite holdsZ_Some. destruct (decide (t = q)) as [<-|Hne].
    + rewrite Ht2. pose proof (Hcnt1 t) as Ht. rewrite Hc1 in Ht.
      destruct (count_of st t) as [c|]; [|discriminate].
      destruct (decide _); [discriminate|]. injection Ht as ->. reflexivity.
    + rewrite Hother2, Hcnt1 by done.
      destruct (count_of st q) as [c|]; [|reflexivity].
      destruct (decide _); [reflexivity|]. f_equal. lia.
  - injection Hrun as <-. split; [reflexivity|]. split; [discriminate|].
    intros q. change (count_of (with_refs st1 rs) q) with (count_of st1 q).
    rewrite Hcnt1, holdsZ_None.
    destruct (count_of st q) as [c|]; [|reflexivity].
    destruct (decide _); [reflexivity|]. f_equal. lia.
Qed.

Lemma holdsZ_one p v : holdsZ p v = 1 -> v = Some p.
Proof.
  unfold holdsZ. destruct (holds p v) eqn:Hh; [|discriminate].
  intros _. by apply holds_true.
Qed.

Lemma holdsZ_zero p v : holdsZ p v = 0 -> v <> Some p.
Proof.
  intros Hz ->. unfold holdsZ in Hz. rewrite holds_self in Hz. discriminate.
Qed.

Lemma step_consistent o st st' n :
  consistent st -> counts_below n st -> n < Int.int_max ->
  @step atomic_counter o st = Some (tt, st') ->
  consistent st'
  /\ counts_below (n + 1) st'
  /\ forall q c, count_of st q = Some c ->
       (count_of st' q = None
        <-> (0 < holders q (refs st))%nat /\ holders q (refs st') = 0%nat).
Proof.
  intros Hcons Hbelow Hn Hstep.
  destruct (step_normal_form atomic_counter o st st' Hstep)
    as [[-> _] | (dv & v & rs & Hrun & Hdv & _ & _ & _ & Hhold)].
  { split; [exact Hcons|]. split.
    - intros q c Hc. specialize (Hbelow q c Hc). lia.
    - intros q c Hc. rewrite Hc. split; [discriminate | lia]. }
  destruct (release_acquire_counts dv v rs st st' n Hcons Hbelow Hn Hdv Hhold Hrun)
    as (Hrefs & Hacq & Hcnt).
  assert (Hfacts : forall q,
    0 <= holdsZ q dv <= 1 /\ 0 <= holdsZ q v <= 1
    /\ holdsZ q dv <= Z.of_nat (holders q (refs st))
    /\ (holdsZ q v = 1 -> is_Some (count_of st' q))).
  { intros q. split; [apply holdsZ_range|]. split; [apply holdsZ_range|]. split.
    - destruct Hdv as [->|[d Hd]]; [rewrite holdsZ_None; lia|].
      rewrite (holdersZ_lookup q d dv (refs st) Hd). lia.
    - intros Hv1. apply Hacq. by apply holdsZ_one. }
  split; [|split].
  - intros q. unfold counted. rewrite Hrefs, Hcnt.
    specialize (Hhold q). destruct (Hfacts q) as (Hd01 & Hv01 & Hdle & Hvs).
    pose proof (Hcons q) as Hq. unfold counted in Hq.
    rewrite Hcnt in Hvs.
    destruct (count_of st q) as [c|].
    + destruct (decide _) as [[Hz Hdq]|Hnz].
      * assert (holdsZ q v <> 1) by (intros H1; by destruct (Hvs H1)). lia.
      * lia.
    + assert (holdsZ q v <> 1) by (intros H1; by destruct (Hvs H1)). lia.
  - intros q x Hx. rewrite Hcnt in Hx.
    destruct (count_of st q) as [c|] eqn:Hc; [|discriminate].
    specialize (Hbelow q c Hc). destruct (Hfacts q) as (Hd01 & Hv01 & _).
    destruct (decide _); [discriminate|]. injection Hx as <-. lia.
  - intros q c Hc. rewrite Hrefs, Hcnt, Hc.
    specialize (Hhold q). destruct (Hfacts q) as (Hd01 & Hv01 & Hdle & Hvs).
    pose proof (Hcons q) as Hq. unfold counted in Hq. rewrite Hc in Hq.
    rewrite Hcnt, Hc in Hvs.
    destruct (decide _) as [[Hz Hdq]|Hnz].
    + assert (holdsZ q v <> 1) by (intros H1; by destruct (Hvs H1)).
      assert (holdsZ q dv = 1).
      { rewrite Hdq. unfold holdsZ. by rewrite holds_self. }
      split; [intros _; lia | reflexivity].
    + split; [discriminate|]. intros [Hpos Hzero]. exfalso. apply Hnz.
      assert (holdsZ q dv = 1) by lia.
      split; [lia | by apply holdsZ_one].
Qed.

Lemma step_defined_consistent o st n :
  consistent st -> counts_below n st -> n < Int.int_max ->
  well_scoped o st ->
  (forall h q, o = OpRaw h (Some q) -> is_Some (count_of st q)) ->
  exists st', @step atomic_counter o st = Some (tt, st').
Proof.
  intros Hcons Hbelow Hn Hsc Hraw.
  destruct (step_as_release_acquire atomic_counter o st Hsc)
    as [Hself | (dv & v & rs & -> & Hdv & Hv)]; [eauto|].
  unfold release_then_acquire, bind.
  (* the release *)
  assert (Hrel : exists st1,
    @decRef_if atomic_counter dv st = Some (tt, st1)
    /\ forall q c, count_of st q = Some c ->
         (dv = Some q -> 2 <= c) ->
         exists c1, count_of st1 q = Some c1 /\ c - 1 <= c1 <= c).
  { destruct dv as [t|].
    - destruct Hdv as [|[d Hd]]; [done|].
      destruct (consistent_held st d t Hcons Hd) as (c & Hc & _ & Hc1).
      pose proof (Hbelow t c Hc) as Hcn.
      destruct (atomic_decRef_effect t c st Hc ltac:(unfold Int.int_min; lia))
        as (st1 & Hdec & _ & Ht & Hother).
      exists st1. split; [exact Hdec|].
      intros q cq Hcq Htwo. destruct (decide (q = t)) as [->|Hne].
      + rewrite Hc in Hcq. injection Hcq as <-. specialize (Htwo eq_refl).
        rewrite Ht. destruct (Z.eqb_spec c 1); [lia|]. exists (c - 1). split; [done | lia].
      + rewrite Hother by done. exists cq. split; [done | lia].
    - exists st. split; [reflexivity|]. intros q cq Hcq _. exists cq. split; [done | lia]. }
  destruct Hrel as (st1 & -> & Hkeep).
  destruct v as [q|]; [|simpl; eauto].
  simpl incRef_if. rewrite incRef_with_refs.
  assert (Hq : exists c, count_of st q = Some c /\ 0 <= c /\ (dv = Some q -> 2 <= c)).
  { destruct Hv as [|[[[h ->] ->]|(d & h & Hne & Hh & Hd)]]; [done| |].
    - destruct (Hraw h q eq_refl) as [c Hc]. exists c. split; [exact Hc|].
      pose proof (Hcons q) as Hq. unfold counted in Hq. rewrite Hc in Hq.
      split; [lia | discriminate].
    - destruct (consistent_held st h q Hcons Hh) as (c & Hc & Hch & Hc1).
      exists c. split; [exact Hc|]. split; [lia|].
      intros ->. destruct Hd as [|Hd]; [done|].
      rewrite Hch, (holdersZ_lookup q d (Some q) (refs st) Hd).
      pose proof (holdersZ_lookup q h (Some q) (delete d (refs st))) as H3.
      rewrite lookup_delete_ne in H3 by done. specialize (H3 Hh).
      unfold holdsZ in *. rewrite holds_self in *. lia. }
  destruct Hq as (c & Hc & Hc0 & Htwo).
  destruct (Hkeep q c Hc Htwo) as (c1 & Hc1 & Hrange).
  pose proof (Hbelow q c Hc).
  destruct (atomic_incRef_effect q c1 st1 Hc1 ltac:(unfold Int.int_min; lia))
    as (st2 & -> & _).
  eauto.
Qed.

(** X8: in a store with any number of objects where every count equals the
    number of handles that hold the object and no handle holds storage
    without a count, every well-scoped handle statement (a raw-pointer
    construction only from a pointer that still carries a count) has
    defined behaviour and leaves a store of the same kind; the objects it
    releases are exactly those it takes the last holder from.  Atomic
    variant, counts below the maximum of [int]. *)
Theorem counts_track_holders (o : op) (st : state) (n : Z) :
  consistent st -> counts_below n st -> n < Int.int_max ->
  well_scoped o st ->
  (forall h q, o = OpRaw h (Some q) -> is_Some (count_of st q)) ->
  exists st',
    @step atomic_counter o st = Some (tt, st')
    /\ consistent st'
    /\ counts_below (n + 1) st'
    /\ forall q c, count_of st q = Some c ->
         (count_of st' q = None
          <-> (0 < holders q (refs st))%nat /\ holders q (refs st') = 0%nat).
Proof.
  intros Hcons Hbelow Hn Hsc Hraw.
  destruct (step_defined_consistent o st n Hcons Hbelow Hn Hsc Hraw) as [st' Hstep].
  exists st'. split; [exact Hstep|].
  exact (step_consistent o st st' n Hcons Hbelow Hn Hstep).
Qed.

Lemma holders_insert_fresh p h v (rs : gmap nat (option nat)) :
  rs !! h = None ->
  holders p (<[h := v]> rs) = ((if holds p v then 1 else 0) + holders p rs)%nat.
Proof. intros Hh. by rewrite holders_insert, holders_fresh. Qed.

Lemma sample_shared_holders q :
  holders q (refs sample_shared)
  = ((if Nat.eqb 7 q then 2 else 0) + (if Nat.eqb 9 q then 1 else 0))%nat.
Proof.
  unfold sample_shared. cbn [refs].
  rewrite !holders_insert_fresh by reflexivity.
  change (holders q {[3%nat := None]}) with (holders q (<[3%nat := None]> ∅)).
  rewrite holders_insert_fresh, holders_empty by reflexivity.
  unfold holds. destruct (Nat.eqb 7 q), (Nat.eqb 9 q); reflexivity.
Qed.

Lemma sample_shared_counts q :
  count_of sample_shared q
  = if Nat.eqb 7 q then Some 2 else if Nat.eqb 9 q then Some 1 else None.
Proof.
  unfold count_of, sample_shared. cbn [heap].
  destruct (Nat.eqb_spec 7 q) as [<-|H7]; [reflexivity|].
  rewrite lookup_insert_ne by done.
  destruct (Nat.eqb_spec 9 q) as [<-|H9]; [reflexivity|].
  by rewrite lookup_singleton_ne.
Qed.

Lemma sample_shared_consistent :
  consistent sample_shared /\ counts_below 2 sample_shared.
Proof.
  split.
  - intros q. unfold counted.
    rewrite sample_shared_counts, sample_shared_holders.
    destruct (Nat.eqb_spec 7 q) as [<-|H7]; [reflexivity|].
    destruct (Nat.eqb_spec 9 q) as [<-|H9]; reflexivity.
  - intros q c. rewrite sample_shared_counts.
    destruct (Nat.eqb 7 q); [intros [= <-]; lia|].
    destruct (Nat.eqb 9 q); [intros [= <-]; lia | discriminate].
Qed.

Lemma counts_track_holders_witness :
  exists st',
    @step atomic_counter (OpCopyAssign 2 0)%nat sample_shared = Some (tt, st')
    /\ consistent st'
    /\ counts_below (2 + 1) st'
    /\ (count_of st' 9%nat = None
        <-> (0 < holders 9%nat (refs sample_shared))%nat
            /\ holders 9%nat (refs st') = 0%nat).
Proof.
  assert (Hn : 2 < Int.int_max) by (unfold Int.int_max; lia).
  assert (Hsc : well_scoped (OpCopyAssign 2 0)%nat sample_shared).
  { split; eexists; reflexivity. }
  destruct (counts_track_holders (OpCopyAssign 2 0)%nat sample_shared 2
              (proj1 sample_shared_consistent) (proj2 sample_shared_consistent)
              Hn Hsc ltac:(discriminate))
    as (st' & Hstep & Hcons & Hbelow & Hfreed).
  exists st'. split; [exact Hstep|]. split; [exact Hcons|]. split; [exact Hbelow|].
  apply (Hfreed 9%nat 1). reflexivity.
Defined.

(** ** No object outlives its handles *)

Lemma run_consistent ops : forall st st' n,
  consistent st -> counts_below n st ->
  n + Z.of_nat (length ops) <= Int.int_max ->
  @run atomic_counter ops st = Some (tt, st') ->
  consistent st'
  /\ forall q, (0 < holders q (refs st))%nat ->
       count_of st' q = None \/ (0 < holders q (refs st'))%nat.
Proof.
  induction ops as [|o ops IH]; intros st st' n Hcons Hbelow Hn Hrun.
  - injection Hrun as <-. split; [exact Hcons|]. auto.
  - rewrite run_cons in Hrun.
    destruct (@step atomic_counter o st) as [[[] s]|] eqn:Hstep; [|discriminate].
    simpl length in Hn.
    destruct (step_consistent o st s n Hcons Hbelow ltac:(lia) Hstep)
      as (Hcons1 & Hbelow1 & Hfreed).
    destruct (IH s st' (n + 1) Hcons1 Hbelow1 ltac:(lia) Hrun) as (Hcons' & Hkeep).
    split; [exact Hcons'|].
    intros q Hheld.
    destruct (Nat.eq_dec (holders q (refs s)) 0%nat) as [Hz|Hnz].
    + left.
      assert (Hgone : count_of s q = None).
      { destruct (count_of st q) as [c|] eqn:Hc.
        - apply (Hfreed q c Hc). auto.
        - pose proof (Hcons q) as Hq. unfold counted in Hq. rewrite Hc in Hq. lia. }
      destruct (count_of st' q) as [c'|] eqn:Hc'; [|reflexivity]. exfalso.
      destruct (count_of_some _ _ _ Hc') as (o' & Ho' & Hco').
      destruct (run_grows ops s st' Hrun) as (_ & Hlay & _).
      destruct (Hlay q o' Ho') as (o0 & Ho0 & _ & Hlen & _).
      unfold count_of in Hgone. rewrite Ho0 in Hgone.
      unfold ref_count in *. apply lookup_lt_Some in Hco'.
      apply lookup_ge_None in Hgone. lia.
    + apply Hkeep. lia.
Qed.

(** X9: along a program of handle statements that starts in a store where
    counts equal holders, the end store is again of that kind, and every
    object that was held at the start is, at the end, either still held or
    released: an object that no handle holds any more has been destroyed,
    and an object that is still held has not.  Atomic variant, counts and
    program length within [int]. *)
Theorem no_object_outlives_its_handles
    (ops : list op) (st st' : state) (n : Z) :
  consistent st -> counts_below n st ->
  n + Z.of_nat (length ops) <= Int.int_max ->
  @run atomic_counter ops st = Some (tt, st') ->
  consistent st'
  /\ (forall q, (0 < holders q (refs st))%nat ->
        holders q (refs st') = 0%nat -> count_of st' q = None)
  /\ (forall q, (0 < holders q (refs st'))%nat ->
        exists c, count_of st' q = Some c /\ c = Z.of_nat (holders q (refs st'))).
Proof.
  intros Hcons Hbelow Hn Hrun.
  destruct (run_consistent ops st st' n Hcons Hbelow Hn Hrun) as (Hcons' & Hkeep).
  split; [exact Hcons'|]. split.
  - intros q Hheld Hnone. destruct (Hkeep q Hheld) as [Hgone|Hpos]; [exact Hgone | lia].
  - intros q Hheld. pose proof (Hcons' q) as Hq. unfold counted in Hq.
    destruct (count_of st' q) as [c|]; [|lia]. exists c. split; [reflexivity | lia].
Qed.

Lemma no_object_outlives_its_handles_witness :
  exists st',
    @run atomic_counter
       [OpScopeExit 2; OpMove 4 0; OpScopeExit 1; OpScopeExit 0; OpScopeExit 4]%nat
       sample_shared = Some (tt, st')
    /\ consistent st'
    /\ count_of st' 7%nat = None /\ count_of st' 9%nat = None.
Proof.
  destruct (@run atomic_counter
       [OpScopeExit 2; OpMove 4 0; OpScopeExit 1; OpScopeExit 0; OpScopeExit 4]%nat
       sample_shared) as [[[] st']|] eqn:Hrun;
    [|vm_compute in Hrun; discriminate Hrun].
  exists st'. split; [reflexivity|].
  assert (Hn : 2 + Z.of_nat (length
            [OpScopeExit 2; OpMove 4 0; OpScopeExit 1; OpScopeExit 0;
             OpScopeExit 4]%nat) <= Int.int_max)
    by (unfold Int.int_max; simpl; lia).
  destruct (no_object_outlives_its_handles _ _ _ 2
              (proj1 sample_shared_consistent) (proj2 sample_shared_consistent)
              Hn Hrun) as (Hcons' & Hgone & _).
  split; [exact Hcons'|].
  assert (Hrefs : forall q, holders q (refs st') = 0%nat).
  { vm_compute in Hrun. injection Hrun as <-. intros q. exact (holders_empty q). }
  split; apply Hgone; try apply Hrefs; rewrite sample_shared_holders; simpl; lia.
Defined.

(** ** The two variants on handle programs *)

Lemma agree_ret {T} (a : T) : agree (ret a) (ret a).
Proof. intros st r Hst [= <-]. auto. Qed.

Lemma agree_bind {T U} (m1 m2 : M T) (k1 k2 : T -> M U) :
  agree m1 m2 -> (forall a, agree (k1 a) (k2 a)) ->
  agree (bind m1 k1) (bind m2 k2).
Proof.
  intros Hm Hk st r Hst Hrun. unfold bind in *.
  destruct (m1 st) as [[a st1]|] eqn:H1; [|discriminate].
  destruct (Hm st (a, st1) Hst H1) as [-> Hst1].
  exact (Hk a st1 r Hst1 Hrun).
Qed.

(** A computation that leaves the allocations alone agrees with itself. *)
Lemma agree_same_heap {T} (m : M T) :
  (forall st a st', m st = Some (a, st') -> heap st' = heap st) -> agree m m.
Proof.
  intros Hm st [a st'] Hst Hrun. split; [exact Hrun|].
  intros p c. unfold count_of. simpl. rewrite (Hm st a st' Hrun). apply Hst.
Qed.

Lemma agree_get_ptr h : agree (get_ptr h) (get_ptr h).
Proof.
  apply agree_same_heap. intros st a st'. unfold get_ptr.
  destruct (refs st !! h); [|discriminate]. by intros [= _ <-].
Qed.

Lemma agree_set_ptr h v : agree (set_ptr h v) (set_ptr h v).
Proof.
  apply agree_same_heap. intros st a st'. unfold set_ptr.
  destruct (refs st !! h); [|discriminate]. by intros [= _ <-].
Qed.

Lemma agree_declare h v : agree (declare h v) (declare h v).
Proof.
  apply agree_same_heap. intros st a st'. unfold declare.
  destruct (refs st !! h); [discriminate|]. by intros [= _ <-].
Qed.

Lemma agree_undeclare h : agree (undeclare h) (undeclare h).
Proof.
  apply agree_same_heap. intros st a st'. unfold undeclare. by intros [= _ <-].
Qed.

Lemma agree_in_scope h : agree (in_scope h) (in_scope h).
Proof.
  unfold in_scope. apply agree_bind; [apply agree_get_ptr|].
  intros _. apply agree_ret.
Qed.

Lemma counts_in_range_update st p o c c' nx rs lg :
  counts_in_range st -> Int.in_range c' -> ref_count o = Some c ->
  counts_in_range {| heap := <[p := set_ref_count o c']> (heap st);
                     next_addr := nx; refs := rs; log := lg |}.
Proof.
  intros Hst Hc' Ho q x. unfold count_of. simpl.
  destruct (decide (p = q)) as [<-|Hne].
  - rewrite lookup_insert_eq. erewrite ref_count_set by exact Ho.
    by intros [= <-].
  - rewrite lookup_insert_ne by done. apply Hst.
Qed.

Lemma counts_in_range_delete st p nx rs lg :
  counts_in_range st ->
  counts_in_range {| heap := delete p (heap st);
                     next_addr := nx; refs := rs; log := lg |}.
Proof.
  intros Hst q x. unfold count_of. simpl.
  destruct (decide (p = q)) as [<-|Hne].
  - by rewrite lookup_delete_eq.
  - rewrite lookup_delete_ne by done. apply Hst.
Qed.

Lemma agree_incRef p : agree (@incRef plain_counter p) (@incRef atomic_counter p).
Proof.
  intros st r Hst Hrun.
  destruct (heap st !! p) as [o|] eqn:Hp.
  2:{ by rewrite (@incRef_undefined_freed plain_counter) in Hrun. }
  destruct (ref_count o) as [c|] eqn:Hc.
  2:{ rewrite (incRef_needs_count plain_counter) in Hrun; [discriminate|].
      unfold count_of. by rewrite Hp. }
  assert (Hcr : Int.in_range c) by (apply (Hst p); unfold count_of; by rewrite Hp).
  destruct (Plain.incRef c) as [c'|] eqn:Hinc.
  2:{ unfold incRef, bind, load_obj, lift in Hrun. rewrite Hp, Hc in Hrun.
      simpl in Hrun. by rewrite Hinc in Hrun. }
  rewrite (@incRef_spec plain_counter p o c c' st Hp Hc Hinc) in Hrun.
  injection Hrun as <-.
  split.
  - apply (@incRef_spec atomic_counter p o c c' st Hp Hc). simpl.
    by rewrite (plain_incRef_atomic c c' Hcr Hinc).
  - simpl. eapply counts_in_range_update; eauto.
    by eapply plain_incRef_range.
Qed.

Lemma agree_decRef p : agree (@decRef plain_counter p) (@decRef atomic_counter p).
Proof.
  intros st r Hst Hrun.
  destruct (heap st !! p) as [o|] eqn:Hp.
  2:{ by rewrite (@decRef_undefined_freed plain_counter) in Hrun. }
  destruct (ref_count o) as [c|] eqn:Hc.
  2:{ unfold decRef, bind, load_obj, lift in Hrun. rewrite Hp, Hc in Hrun.
      discriminate. }
  assert (Hcr : Int.in_range c) by (apply (Hst p); unfold count_of; by rewrite Hp).
  destruct (Plain.decRef c) as [[c' last]|] eqn:Hdec.
  2:{ unfold decRef, bind, load_obj, lift in Hrun. rewrite Hp, Hc in Hrun.
      simpl in Hrun. by rewrite Hdec in Hrun. }
  pose proof (plain_decRef_atomic c _ Hcr Hdec) as Hat.
  pose proof (plain_decRef_range c _ Hcr Hdec) as Hrange. simpl in Hrange.
  destruct last.
  - rewrite (@decRef_spec_last plain_counter p o c c' st Hp Hc Hdec
               (@teardown_defined_base plain_counter o eq_refl)) in Hrun.
    injection Hrun as <-. split.
    + apply (@decRef_spec_last atomic_counter p o c c' st Hp Hc);
        [simpl; by rewrite Hat | by apply teardown_defined_base].
    + simpl. by apply counts_in_range_delete.
  - rewrite (@decRef_spec_keep plain_counter p o c c' st Hp Hc Hdec) in Hrun.
    injection Hrun as <-. split.
    + apply (@decRef_spec_keep atomic_counter p o c c' st Hp Hc). simpl.
      by rewrite Hat.
    + simpl. eapply counts_in_range_update; eauto.
Qed.

Lemma agree_incRef_if v :
  agree (@incRef_if plain_counter v) (@incRef_if atomic_counter v).
Proof. destruct v; [apply agree_incRef | apply agree_ret]. Qed.

Lemma agree_decRef_if v :
  agree (@decRef_if plain_counter v) (@decRef_if atomic_counter v).
Proof. destruct v; [apply agree_decRef | apply agree_ret]. Qed.

Lemma agree_step o : agree (@step plain_counter o) (@step atomic_counter o).
Proof.
  destruct o as [d|d w|d h|d h|d h|d h|h]; cbn [step].
  - apply agree_declare.
  - unfold Ref.ctor_raw. apply agree_bind; [apply agree_declare|]. intros _.
    apply agree_bind; [apply agree_get_ptr | apply agree_incRef_if].
  - unfold Ref.ctor_copy. apply agree_bind; [apply agree_get_ptr|]. intros v.
    apply agree_bind; [apply agree_declare|]. intros _.
    apply agree_bind; [apply agree_get_ptr | apply agree_incRef_if].
  - unfold Ref.ctor_move. apply agree_bind; [apply agree_get_ptr|]. intros v.
    apply agree_bind; [apply agree_declare|]. intros _. apply agree_set_ptr.
  - apply agree_bind; [apply agree_in_scope|]. intros _.
    apply agree_bind; [apply agree_in_scope|]. intros _.
    unfold Ref.assign_copy. destruct (Nat.eqb d h); [apply agree_ret|].
    apply agree_bind; [apply agree_get_ptr|]. intros v.
    apply agree_bind; [apply agree_decRef_if|]. intros _.
    apply agree_bind; [apply agree_get_ptr|]. intros w.
    apply agree_bind; [apply agree_set_ptr|]. intros _.
    apply agree_bind; [apply agree_get_ptr | apply agree_incRef_if].
  - apply agree_bind; [apply agree_in_scope|]. intros _.
    apply agree_bind; [apply agree_in_scope|]. intros _.
    unfold Ref.assign_move. destruct (Nat.eqb d h); [apply agree_ret|].
    apply agree_bind; [apply agree_get_ptr|]. intros v.
    apply agree_bind; [apply agree_decRef_if|]. intros _.
    apply agree_bind; [apply agree_get_ptr|]. intros w.
    apply agree_bind; [apply agree_set_ptr|]. intros _. apply agree_set_ptr.
  - unfold Ref.dtor. apply agree_bind; [apply agree_get_ptr|]. intros v.
    apply agree_bind; [apply agree_decRef_if|]. intros _. apply agree_undeclare.
Qed.

Lemma agree_run ops : agree (@run plain_counter ops) (@run atomic_counter ops).
Proof.
  induction ops as [|o ops IH]; cbn [run]; [apply agree_ret|].
  apply agree_bind; [apply agree_step | intros _; exact IH].
Qed.

(** X10: under sequential execution a client of the handle cannot tell the
    two variants apart: on a store whose counts are [int]s, every program
    of handle statements that has defined behaviour with the plain count
    ends with the atomic count in the same store with the same trace. *)
Theorem plain_programs_run_alike_atomic
    (ops : list op) (st st' : state) :
  counts_in_range st ->
  @run plain_counter ops st = Some (tt, st') ->
  @run atomic_counter ops st = Some (tt, st') /\ counts_in_range st'.
Proof. intros Hst Hrun. exact (agree_run ops st (tt, st') Hst Hrun). Qed.

Lemma sample_unwrapped_in_range : counts_in_range sample_unwrapped.
Proof.
  intros p c. unfold count_of, sample_unwrapped. cbn [heap].
  destruct (decide (7%nat = p)) as [<-|Hne].
  - rewrite lookup_singleton_eq. intros [= <-].
    unfold Int.in_range, Int.int_min, Int.int_max. lia.
  - by rewrite lookup_singleton_ne.
Qed.

Lemma plain_programs_run_alike_atomic_witness :
  exists st',
    @run plain_counter sample_program sample_unwrapped = Some (tt, st')
    /\ @run atomic_counter sample_program sample_unwrapped = Some (tt, st').
Proof.
  destruct (@run plain_counter sample_program sample_unwrapped)
    as [[[] st']|] eqn:Hrun; [|vm_compute in Hrun; discriminate Hrun].
  exists st'. split; [reflexivity|].
  exact (proj1 (plain_programs_run_alike_atomic sample_program sample_unwrapped st'
                  sample_unwrapped_in_range Hrun)).
Defined.

(** ** Checking before dereferencing *)

(** X11: in a store where counts equal holders, the boolean check of a
    handle in scope decides whether dereferencing it is defined: when the
    check returns [true] both [operator*] and member access yield the live
    object and [get()] is not null; when it returns [false] both are
    undefined and [get()] is null.  The check itself and [get()] are
    always defined and leave the store unchanged. *)
Theorem boolean_check_guards_dereference (st : state) (h : nat) (v : option nat) :
  consistent st -> refs st !! h = Some v ->
  Ref.get h st = Some (v, st)
  /\ (exists b, Ref.op_bool h st = Some (b, st))
  /\ (Ref.op_bool h st = Some (true, st) ->
      v <> None
      /\ exists o, Ref.op_star h st = Some (o, st)
                   /\ Ref.member_access h st = Some (o, st))
  /\ (Ref.op_bool h st = Some (false, st) ->
      v = None /\ Ref.op_star h st = None /\ Ref.member_access h st = None).
Proof.
  intros Hcons Hh.
  unfold Ref.get, Ref.op_bool, Ref.op_star, Ref.member_access, Ref.op_arrow,
    Ref.indirection, bind, get_ptr, ret, undefined, load_obj.
  rewrite Hh. split; [reflexivity|]. split; [eauto|].
  destruct v as [t|]; simpl.
  - split; [|discriminate]. intros _. split; [discriminate|].
    destruct (consistent_held st h t Hcons Hh) as (c & Hc & _).
    destruct (count_of_some _ _ _ Hc) as (o & Ho & _).
    exists o. by rewrite Ho.
  - split; [discriminate|]. auto.
Qed.

Lemma boolean_check_guards_dereference_witness :
  Ref.op_bool 0%nat sample_shared = Some (true, sample_shared)
  /\ exists o, Ref.op_star 0%nat sample_shared = Some (o, sample_shared)
               /\ Ref.member_access 0%nat sample_shared = Some (o, sample_shared).
Proof.
  assert (Hb : Ref.op_bool 0%nat sample_shared = Some (true, sample_shared))
    by reflexivity.
  split; [exact Hb|].
  destruct (boolean_check_guards_dereference sample_shared 0%nat (Some 7%nat)
              (proj1 sample_shared_consistent) eq_refl) as (_ & _ & Htrue & _).
  exact (proj2 (Htrue Hb)).
Defined.

(** ** Empty handles *)

Lemma step_empty_handles (RC : RefCounter) o st st' :
  (forall h v, refs st !! h = Some v -> v = None) ->
  (forall h q, o <> OpRaw h (Some q)) ->
  step o st = Some (tt, st') ->
  heap st' = heap st /\ log st' = log st /\ next_addr st' = next_addr st
  /\ forall h v, refs st' !! h = Some v -> v = None.
Proof.
  intros Hempty Hnoraw Hstep.
  destruct (step_normal_form RC o st st' Hstep)
    as [[-> _] | (dv & v & rs & Hrun & Hdv & Hv & _ & Hrs & _)]; [auto|].
  assert (dv = None) as ->.
  { destruct Hdv as [|[d Hd]]; [done | by eapply Hempty]. }
  assert (v = None) as ->.
  { destruct Hv as [|[[h ->]|[h Hh]]]; [done| |by eapply Hempty].
    destruct v as [q|]; [|done]. by destruct (Hnoraw h q). }
  injection Hrun as <-. repeat split.
  intros h v Hh. destruct v as [q|]; [|done]. exfalso.
  destruct (Hrs h q Hh) as [[y Hy]|]; [|done].
  by specialize (Hempty y _ Hy).
Qed.

(** X12: empty handles affect no count: a program of handle statements
    that starts with every variable empty and wraps no object (default
    constructions, wraps of the null pointer, copies, moves, assignments,
    scope exits) performs no count operation and destroys nothing; the
    allocations and the trace are untouched and every variable is still
    empty.  Both variants. *)
Theorem empty_handles_touch_nothing (RC : RefCounter)
    (ops : list op) (st st' : state) :
  (forall h v, refs st !! h = Some v -> v = None) ->
  Forall (fun o => forall h q, o <> OpRaw h (Some q)) ops ->
  run ops st = Some (tt, st') ->
  heap st' = heap st /\ log st' = log st /\ next_addr st' = next_addr st
  /\ forall h v, refs st' !! h = Some v -> v = None.
Proof.
  revert st. induction ops as [|o ops IH]; intros st Hempty Hall Hrun.
  - injection Hrun as <-. auto.
  - apply Forall_cons_1 in Hall as [Ho Hall]. rewrite run_cons in Hrun.
    destruct (step o st) as [[[] s]|] eqn:Hstep; [|discriminate].
    destruct (step_empty_handles RC o st s Hempty Ho Hstep)
      as (Hh & Hl & Hn & Hempty').
    destruct (IH s Hempty' Hall Hrun) as (Hh' & Hl' & Hn' & Hfinal).
    repeat split; try congruence. exact Hfinal.
Qed.

Lemma empty_handles_touch_nothing_witness :
  exists st',
    @run atomic_counter
       [OpRaw 1 None; OpCopy 2 0; OpMoveAssign 0 1; OpCopyAssign 1 2;
        OpScopeExit 0]%nat sample_empty_handle = Some (tt, st')
    /\ heap st' = heap sample_empty_handle /\ log st' = log sample_empty_handle.
Proof.
  destruct (@run atomic_counter
       [OpRaw 1 None; OpCopy 2 0; OpMoveAssign 0 1; OpCopyAssign 1 2;
        OpScopeExit 0]%nat sample_empty_handle) as [[[] st']|] eqn:Hrun;
    [|vm_compute in Hrun; discriminate Hrun].
  exists st'. split; [reflexivity|].
  assert (Hempty : forall h v, refs sample_empty_handle !! h = Some v -> v = None).
  { intros h v. unfold sample_empty_handle. cbn [refs].
    destruct (decide (0%nat = h)) as [<-|Hne].
    - rewrite lookup_singleton_eq. by intros [= <-].
    - by rewrite lookup_singleton_ne. }
  assert (Hall : Forall (fun o => forall h q, o <> OpRaw h (Some q))
            [OpRaw 1 None; OpCopy 2 0; OpMoveAssign 0 1; OpCopyAssign 1 2;
             OpScopeExit 0]%nat).
  { repeat constructor; discriminate. }
  destruct (empty_handles_touch_nothing atomic_counter _ _ _ Hempty Hall Hrun)
    as (Hh & Hl & _).
  split; [exact Hh | exact Hl].
Defined.

(** ** The element type of the runs matters only where a run is torn down *)

Section Simulation.
Context (Inv : state -> Prop) (RC1 RC2 : RefCounter).
Hypothesis Inv_heap : forall st st', heap st' = heap st -> Inv st -> Inv st'.
Hypothesis Inv_update : forall st st' p o c,
  Inv st -> heap st !! p = Some o ->
  heap st' = <[p := set_ref_count o c]> (heap st) -> Inv st'.
Hypothesis same_incRef : forall c, @rc_incRef RC1 c = @rc_incRef RC2 c.
Hypothesis same_decRef : forall c, @rc_decRef RC1 c = @rc_decRef RC2 c.
Hypothesis sim_destroy :
  forall p, simulates Inv (@destroy RC1 p) (@destroy RC2 p).

Lemma sim_ret {T} (a : T) : simulates Inv (ret a) (ret a).
Proof. intros st r Hst [= <-]. auto. Qed.

Lemma sim_bind {T U} (m1 m2 : M T) (k1 k2 : T -> M U) :
  simulates Inv m1 m2 -> (forall a, simulates Inv (k1 a) (k2 a)) ->
  simulates Inv (bind m1 k1) (bind m2 k2).
Proof.
  intros Hm Hk st r Hst Hrun. unfold bind in *.
  destruct (m1 st) as [[a st1]|] eqn:H1; [|discriminate].
  destruct (Hm st (a, st1) Hst H1) as [-> Hst1].
  exact (Hk a st1 r Hst1 Hrun).
Qed.

Lemma sim_same_heap {T} (m : M T) :
  (forall st a st', m st = Some (a, st') -> heap st' = heap st) ->
  simulates Inv m m.
Proof.
  intros Hm st [a st'] Hst Hrun. split; [exact Hrun|].
  simpl. eapply Inv_heap; [exact (Hm st a st' Hrun) | exact Hst].
Qed.

Lemma sim_get_ptr h : simulates Inv (get_ptr h) (get_ptr h).
Proof.
  apply sim_same_heap. intros st a st'. unfold get_ptr.
  destruct (refs st !! h); [|discriminate]. by intros [= _ <-].
Qed.

Lemma sim_set_ptr h v : simulates Inv (set_ptr h v) (set_ptr h v).
Proof.
  apply sim_same_heap. intros st a st'. unfold set_ptr.
  destruct (refs st !! h); [|discriminate]. by intros [= _ <-].
Qed.

Lemma sim_declare h v : simulates Inv (declare h v) (declare h v).
Proof.
  apply sim_same_heap. intros st a st'. unfold declare.
  destruct (refs st !! h); [discriminate|]. by intros [= _ <-].
Qed.

Lemma sim_undeclare h : simulates Inv (undeclare h) (undeclare h).
Proof.
  apply sim_same_heap. intros st a st'. unfold undeclare. by intros [= _ <-].
Qed.

Lemma sim_in_scope h : simulates Inv (in_scope h) (in_scope h).
Proof.
  unfold in_scope. apply sim_bind; [apply sim_get_ptr|].
  intros _. apply sim_ret.
Qed.

Lemma sim_incRef p : simulates Inv (@incRef RC1 p) (@incRef RC2 p).
Proof.
  intros st r Hst.
  unfold incRef, bind, load_obj, lift, store_obj, emit.
  destruct (heap st !! p) as [o|] eqn:Hp; [|discriminate].
  destruct (ref_count o) as [c|]; [|discriminate].
  rewrite <- same_incRef.
  destruct (@rc_incRef RC1 c) as [c'|]; [|discriminate].
  intros [= <-]. split; [reflexivity|].
  eapply Inv_update; [exact Hst | exact Hp | reflexivity].
Qed.

Lemma sim_decRef p : simulates Inv (@decRef RC1 p) (@decRef RC2 p).
Proof.
  intros st r Hst.
  unfold decRef, bind, load_obj, lift, store_obj, emit, ret.
  destruct (heap st !! p) as [o|] eqn:Hp; [|discriminate].
  destruct (ref_count o) as [c|]; [|discriminate].
  rewrite <- same_decRef.
  destruct (@rc_decRef RC1 c) as [[c' last]|]; [|discriminate].
  destruct last.
  - apply sim_destroy.
    eapply Inv_update; [exact Hst | exact Hp | reflexivity].
  - intros [= <-]. split; [reflexivity|].
    eapply Inv_update; [exact Hst | exact Hp | reflexivity].
Qed.

Lemma sim_incRef_if v : simulates Inv (@incRef_if RC1 v) (@incRef_if RC2 v).
Proof. destruct v; [apply sim_incRef | apply sim_ret]. Qed.

Lemma sim_decRef_if v : simulates Inv (@decRef_if RC1 v) (@decRef_if RC2 v).
Proof. destruct v; [apply sim_decRef | apply sim_ret]. Qed.

Lemma sim_step o : simulates Inv (@step RC1 o) (@step RC2 o).
Proof.
  destruct o as [d|d w|d h|d h|d h|d h|h]; cbn [step].
  - apply sim_declare.
  - unfold Ref.ctor_raw. apply sim_bind; [apply sim_declare|]. intros _.
    apply sim_bind; [apply sim_get_ptr | apply sim_incRef_if].
  - unfold Ref.ctor_copy. apply sim_bind; [apply sim_get_ptr|]. intros v.
    apply sim_bind; [apply sim_declare|]. intros _.
    apply sim_bind; [apply sim_get_ptr | apply sim_incRef_if].
  - unfold Ref.ctor_move. apply sim_bind; [apply sim_get_ptr|]. intros v.
    apply sim_bind; [apply sim_declare|]. intros _. apply sim_set_ptr.
  - apply sim_bind; [apply sim_in_scope|]. intros _.
    apply sim_bind; [apply sim_in_scope|]. intros _.
    unfold Ref.assign_copy. destruct (Nat.eqb d h); [apply sim_ret|].
    apply sim_bind; [apply sim_get_ptr|]. intros v.
    apply sim_bind; [apply sim_decRef_if|]. intros _.
    apply sim_bind; [apply sim_get_ptr|]. intros w.
    apply sim_bind; [apply sim_set_ptr|]. intros _.
    apply sim_bind; [apply sim_get_ptr | apply sim_incRef_if].
  - apply sim_bind; [apply sim_in_scope|]. intros _.
    apply sim_bind; [apply sim_in_scope|]. intros _.
    unfold Ref.assign_move. destruct (Nat.eqb d h); [apply sim_ret|].
    apply sim_bind; [apply sim_get_ptr|]. intros v.
    apply sim_bind; [apply sim_decRef_if|]. intros _.
    apply sim_bind; [apply sim_get_ptr|]. intros w.
    apply sim_bind; [apply sim_set_ptr|]. intros _. apply sim_set_ptr.
  - unfold Ref.dtor. apply sim_bind; [apply sim_get_ptr|]. intros v.
    apply sim_bind; [apply sim_decRef_if|]. intros _. apply sim_undeclare.
Qed.

Lemma sim_run ops : simulates Inv (@run RC1 ops) (@run RC2 ops).
Proof.
  induction ops as [|o ops IH]; cbn [run]; [apply sim_ret|].
  apply sim_bind; [apply sim_step | intros _; exact IH].
Qed.

End Simulation.

Lemma destroy_to_base (RC1 RC2 : RefCounter) p :
  @rc_run_element RC2 = BaseElement ->
  simulates (fun _ => True) (@destroy RC1 p) (@destroy RC2 p).
Proof.
  intros Hbase st r _ Hrun.
  destruct (heap st !! p) as [o|] eqn:Hp.
  2:{ unfold destroy, bind, load_obj in Hrun. rewrite Hp in Hrun. discriminate. }
  destruct (@teardown_defined RC1 o) eqn:Htd.
  - rewrite (@destroy_spec RC1 p o st Hp Htd) in Hrun.
    rewrite (@destroy_spec RC2 p o st Hp (@teardown_defined_base RC2 o Hbase)).
    split; [exact Hrun | exact I].
  - rewrite (@destroy_undefined RC1 p o st Hp Htd) in Hrun. discriminate.
Qed.

Lemma all_single_heap st st' :
  heap st' = heap st -> all_single st -> all_single st'.
Proof. intros Hh Hst p o. rewrite Hh. apply Hst. Qed.

Lemma all_single_update st st' p o c :
  all_single st -> heap st !! p = Some o ->
  heap st' = <[p := set_ref_count o c]> (heap st) -> all_single st'.
Proof.
  intros Hst Hp Hh q o'. rewrite Hh.
  destruct (decide (p = q)) as [<-|Hne].
  - rewrite lookup_insert_eq. intros [= <-]. simpl. exact (Hst p o Hp).
  - rewrite lookup_insert_ne by done. apply Hst.
Qed.

Lemma destroy_single (RC1 RC2 : RefCounter) p :
  simulates all_single (@destroy RC1 p) (@destroy RC2 p).
Proof.
  intros st r Hst Hrun.
  destruct (heap st !! p) as [o|] eqn:Hp.
  2:{ unfold destroy, bind, load_obj in Hrun. rewrite Hp in Hrun. discriminate. }
  pose proof (Hst p o Hp) as Hshape.
  rewrite (@destroy_spec RC1 p o st Hp (@teardown_defined_single RC1 o Hshape)) in Hrun.
  rewrite (@destroy_spec RC2 p o st Hp (@teardown_defined_single RC2 o Hshape)).
  split; [exact Hrun|]. injection Hrun as <-. simpl.
  intros q o'. simpl. destruct (decide (p = q)) as [<-|Hne].
  - by rewrite lookup_delete_eq.
  - rewrite lookup_delete_ne by done. apply Hst.
Qed.

Lemma run_to_base (RC1 RC2 : RefCounter) (ops : list op) (st : state) r :
  (forall c, @rc_incRef RC1 c = @rc_incRef RC2 c) ->
  (forall c, @rc_decRef RC1 c = @rc_decRef RC2 c) ->
  @rc_run_element RC2 = BaseElement ->
  @run RC1 ops st = Some r -> @run RC2 ops st = Some r.
Proof.
  intros Hinc Hdec Hbase Hrun.
  refine (proj1 (sim_run (fun _ => True) RC1 RC2 _ _ Hinc Hdec _ ops st r I Hrun)).
  - auto.
  - auto.
  - intros p. by apply destroy_to_base.
Qed.

Lemma run_all_single (RC1 RC2 : RefCounter) (ops : list op) (st : state) :
  (forall c, @rc_incRef RC1 c = @rc_incRef RC2 c) ->
  (forall c, @rc_decRef RC1 c = @rc_decRef RC2 c) ->
  all_single st ->
  @run RC1 ops st = @run RC2 ops st.
Proof.
  intros Hinc Hdec Hst.
  destruct (@run RC1 ops st) as [r|] eqn:H1.
  - symmetry.
    exact (proj1 (sim_run all_single RC1 RC2 all_single_heap all_single_update
                    Hinc Hdec (destroy_single RC1 RC2) ops st r Hst H1)).
  - destruct (@run RC2 ops st) as [r|] eqn:H2; [|reflexivity].
    pose proof (proj1 (sim_run all_single RC2 RC1 all_single_heap
                         all_single_update (fun c => eq_sym (Hinc c))
                         (fun c => eq_sym (Hdec c)) (destroy_single RC2 RC1)
                         ops st r Hst H2)) as H1'.
    rewrite H1 in H1'. discriminate.
Qed.

(** X13: the element type of a client's runs matters only where a run is
    torn down.  Every program of handle statements that has defined
    behaviour for a client whose runs have elements of a derived class
    ends in the same store with the same trace for a client whose runs
    have elements of type [GCMultiObject] itself; and on a store in which
    every allocated object is a single object the two clients behave
    alike on every program, defined or not.  Both variants. *)
Theorem run_element_matters_only_at_run_teardown (ops : list op) (st : state) :
  (forall r, @run atomic_counter_derived ops st = Some r ->
             @run atomic_counter ops st = Some r)
  /\ (forall r, @run plain_counter_derived ops st = Some r ->
                @run plain_counter ops st = Some r)
  /\ (all_single st ->
      @run atomic_counter_derived ops st = @run atomic_counter ops st
      /\ @run plain_counter_derived ops st = @run plain_counter ops st).
Proof.
  split; [|split].
  - intros r. by apply run_to_base.
  - intros r. by apply run_to_base.
  - intros Hst. split; by apply run_all_single.
Qed.

Lemma sample_unwrapped_all_single : all_single sample_unwrapped.
Proof.
  intros p o. unfold sample_unwrapped. cbn [heap].
  destruct (decide (7%nat = p)) as [<-|Hne].
  - rewrite lookup_singleton_eq. by intros [= <-].
  - by rewrite lookup_singleton_ne.
Qed.

Lemma run_element_matters_only_at_run_teardown_witness :
  (exists st',
     @run atomic_counter_derived sample_program sample_unwrapped = Some (tt, st')
     /\ @run atomic_counter sample_program sample_unwrapped = Some (tt, st'))
  /\ @run atomic_counter_derived sample_release_both sample_two_objects = None
  /\ exists st',
       @run atomic_counter sample_release_both sample_two_objects = Some (tt, st').
Proof.
  destruct (run_element_matters_only_at_run_teardown sample_program
              sample_unwrapped) as (Hto & _ & Hsame).
  destruct (Hsame sample_unwrapped_all_single) as [Heq _].
  split; [|split].
  - destruct (@run atomic_counter_derived sample_program sample_unwrapped)
      as [[[] st']|] eqn:Hrun; [|vm_compute in Hrun; discriminate Hrun].
    exists st'. split; [reflexivity|]. exact (Hto _ eq_refl).
  - reflexivity.
  - destruct (@run atomic_counter sample_release_both sample_two_objects)
      as [[[] st']|] eqn:Hrun; [|vm_compute in Hrun; discriminate Hrun].
    exists st'. reflexivity.
Defined.
